(** * InfoSynth: hybrid retrieval engine and incremental chunk cache

    A shallow embedding of [core/retriever.py] and [core/llm.py]:
    the paragraph chunker, the chunk-cache reconciliation
    ([Retriever.load_and_chunk_files]), the fusion ranker
    ([Retriever.search]) and the answer generator ([generate_answer]).

    Conventions.
    - Python [str] values are [string]s of bytes; the whitespace class is the
      one [str.isspace] and the regex class [\s] share on ASCII.
    - Python [float] scores are exact rationals [Q]; every property below is
      an order or ratio property.
    - A Python exception is the [Raise] case of [result].
    - Calls into other packages (scikit-learn, rank_bm25, numpy, the file
      system, the language model) are fields of records or classes, so that
      every statement is quantified over them. *)

From Stdlib Require Import List String Ascii Bool Arith ZArith QArith Lia.
From Stdlib Require Import Permutation Sorted DecimalString Lqa.
Import ListNotations.

Close Scope Q_scope.
Open Scope nat_scope.
Open Scope string_scope.
Open Scope list_scope.

Set Implicit Arguments.

(* ================================================================= *)
(** ** Python values and builtins *)

Module Py.

Inductive exn : Type :=
| ValueError   (* max() of an empty sequence, operands of different shape *)
| IndexError   (* list index out of range *)
| LibraryError (* an exception raised inside an imported package *).

Inductive result (A : Type) : Type :=
| Ok (a : A)
| Raise (e : exn).
Arguments Ok {A} a.
Arguments Raise {A} e.

Definition bind {A B} (m : result A) (k : A -> result B) : result B :=
  match m with
  | Ok a => k a
  | Raise e => Raise e
  end.

Definition is_ok {A} (m : result A) : bool :=
  match m with Ok _ => true | Raise _ => false end.

(** [traverse f l]: a [for] loop or comprehension whose body may raise. *)
Fixpoint traverse {A B} (f : A -> result B) (l : list A) : result (list B) :=
  match l with
  | [] => Ok []
  | a :: l' =>
      bind (f a) (fun b => bind (traverse f l') (fun bs => Ok (b :: bs)))
  end.

(** [l[i]] for a non-negative [i]. *)
Definition getitem {A} (l : list A) (i : nat) : result A :=
  match nth_error l i with
  | Some a => Ok a
  | None => Raise IndexError
  end.

(** [l[-n:]] for [n > 0]: the last [n] items, all of [l] when it is
    shorter. *)
Definition last_items {A} (n : Z) (l : list A) : list A :=
  skipn (List.length l - Z.to_nat n) l.

(** [l[:k]]; a negative [k] counts from the end. *)
Definition slice_to {A} (k : Z) (l : list A) : list A :=
  if (0 <=? k)%Z then firstn (Z.to_nat k) l
  else firstn (List.length l - Z.to_nat (- k)) l.

(** [d.get(key, default)] on a dict with string keys. *)
Fixpoint dict_get {V} (d : list (string * V)) (key : string) (default : V) : V :=
  match d with
  | [] => default
  | (k, v) :: d' => if String.eqb k key then v else dict_get d' key default
  end.

(** *** Strings *)

Definition isspace (c : ascii) : bool :=
  let n := nat_of_ascii c in
  ((9 <=? n)%nat && (n <=? 13)%nat) || ((28 <=? n)%nat && (n <=? 32)%nat).

Definition newline : ascii := ascii_of_nat 10.
Definition space : ascii := ascii_of_nat 32.

Definition is_newline (c : ascii) : bool := Ascii.eqb c newline.

Definition is_empty (s : string) : bool :=
  match s with EmptyString => true | String _ _ => false end.

Fixpoint lstrip (s : string) : string :=
  match s with
  | EmptyString => EmptyString
  | String c r => if isspace c then lstrip r else s
  end.

Fixpoint rstrip (s : string) : string :=
  match s with
  | EmptyString => EmptyString
  | String c r =>
      match rstrip r with
      | EmptyString => if isspace c then EmptyString else String c EmptyString
      | r' => String c r'
      end
  end.

(** [s.strip()] *)
Definition strip (s : string) : string := rstrip (lstrip s).

(** [s.replace("\n", " ")] *)
Fixpoint replace_newlines (s : string) : string :=
  match s with
  | EmptyString => EmptyString
  | String c r =>
      String (if is_newline c then space else c) (replace_newlines r)
  end.

(** [s.split()]: the maximal runs of non-whitespace characters.  [w] is
    the word being read, if any. *)
Fixpoint split_from (w : option string) (s : string) : list string :=
  match s with
  | EmptyString => match w with Some x => [x] | None => [] end
  | String c r =>
      if isspace c then
        match w with
        | Some x => x :: split_from None r
        | None => split_from None r
        end
      else
        split_from
          (Some (match w with Some x => x | None => EmptyString end
                 ++ String c EmptyString)%string) r
  end.

Definition split (s : string) : list string := split_from None s.

(** [sep.join(l)] *)
Definition join (sep : string) (l : list string) : string :=
  String.concat sep l.

End Py.

Import Py.

Declare Scope py_scope.
Notation "x <- m ;; k" := (Py.bind m (fun x => k))
  (at level 61, m at next level, right associativity) : py_scope.
Open Scope py_scope.

(* ================================================================= *)
(** ** The chunker ([chunk_text]) *)

Module Chunker.

(** *** [re.split(r"\n{2,}|(?<=\n)\s*(?=\S)", text)]

    The scan goes left to right and takes the leftmost match, the first
    alternative first.
    - [\n{2,}] matches at a position where two newlines start; it takes the
      whole run of newlines.
    - [(?<=\n)\s*(?=\S)] matches at a position that follows a newline when
      the whitespace starting there is followed by a character that is not
      whitespace, that is, when a non-whitespace character remains; it
      takes that whitespace, which may be empty.  After an empty match the
      engine must advance, and the character there (not whitespace) starts
      the next piece.
    [skip] counts the characters of the current match still to drop,
    [prev_nl] tells whether the previous character is a newline, [piece]
    is the piece being read. *)

Fixpoint has_nonspace (s : string) : bool :=
  match s with
  | EmptyString => false
  | String c r => negb (isspace c) || has_nonspace r
  end.

Fixpoint space_run (s : string) : nat :=
  match s with
  | EmptyString => 0
  | String c r => if isspace c then S (space_run r) else 0
  end.

Fixpoint newline_run (s : string) : nat :=
  match s with
  | EmptyString => 0
  | String c r => if is_newline c then S (newline_run r) else 0
  end.

Fixpoint re_split_from (prev_nl : bool) (skip : nat) (piece : string)
         (s : string) : list string :=
  match s with
  | EmptyString => [piece]
  | String c r =>
      match skip with
      | S k => re_split_from (is_newline c) k piece r
      | O =>
          if is_newline c && (0 <? newline_run r)%nat then
            piece :: re_split_from true (newline_run r) EmptyString r
          else if prev_nl && has_nonspace s then
            match space_run s with
            | O => piece :: re_split_from (is_newline c) 0 (String c EmptyString) r
            | S k => piece :: re_split_from (is_newline c) k EmptyString r
            end
          else
            re_split_from (is_newline c) 0 (piece ++ String c EmptyString)%string r
      end
  end.

Definition re_split (s : string) : list string :=
  re_split_from false 0 EmptyString s.

(** Lines 237-238: the paragraphs of a text. *)
Definition paragraphs (text : string) : list string :=
  map (fun p => replace_newlines (strip p))
      (filter (fun p => negb (is_empty (strip p))) (re_split (strip text))).

(** The loop state of lines 240-242. *)
Record state : Type := mkState {
  chunks : list string;
  current_chunk : list string;
  current_length : Z
}.

Definition initial : state :=
  {| chunks := []; current_chunk := []; current_length := 0 |}.

(** [current_chunk[-overlap:] if overlap > 0 else []] *)
Definition overlap_words (overlap : Z) (current : list string) : list string :=
  if (0 <? overlap)%Z then last_items overlap current else [].

(** The body of the loop of lines 244-256. *)
Definition step (chunk_size overlap : Z) (st : state) (para : string) : state :=
  let para_words := split para in
  match para_words with
  | [] => st
  | _ :: _ =>
      if (current_length st + Z.of_nat (List.length para_words) <=? chunk_size)%Z then
        {| chunks := chunks st;
           current_chunk := current_chunk st ++ para_words;
           current_length := current_length st + Z.of_nat (List.length para_words) |}
      else
        let current := overlap_words overlap (current_chunk st) ++ para_words in
        {| chunks := chunks st ++ [join " " (current_chunk st)];
           current_chunk := current;
           current_length := Z.of_nat (List.length current) |}
  end.

(** Lines 258-261: the last buffer is flushed when it is not empty. *)
Definition flush (st : state) : list string :=
  match current_chunk st with
  | [] => chunks st
  | _ :: _ => chunks st ++ [join " " (current_chunk st)]
  end.

Definition chunk_paragraphs (paras : list string) (chunk_size overlap : Z)
  : list string :=
  flush (fold_left (step chunk_size overlap) paras initial).

Definition chunk_text (text : string) (chunk_size overlap : Z) : list string :=
  chunk_paragraphs (paragraphs text) chunk_size overlap.

Definition default_chunk_size : Z := 500.
Definition default_overlap : Z := 50.

End Chunker.

(* ================================================================= *)
(** ** The chunk cache ([Retriever.load_and_chunk_files]) *)

Module Cache.

(** [os.stat_result]: the times are kept as integers, they are only
    stored and compared for equality. *)
Record file_info : Type := mkInfo {
  st_mtime : Z;
  st_ctime : Z;
  st_size : Z
}.

(** What reconcile sees of the disk and of [pathlib]/[datetime].  A [Path]
    is the string it was built from; [path_str] is what [str] makes of it,
    which [pathlib] normalises ([./notes.txt] becomes [notes.txt]);
    [stat p = None] when [Path(p).exists()] is false.
    [read_text] is the function of that name (lines 193-233), which catches
    every exception of the extractors and returns the empty text then. *)
Record file_system : Type := mkFs {
  stat : string -> option file_info;
  read_text : string -> string;
  path_str : string -> string;     (* str(Path(p)) *)
  resolve : string -> string;      (* str(Path(p).resolve()) *)
  path_name : string -> string;    (* Path(p).name *)
  isoformat : Z -> string          (* datetime.fromtimestamp(t).isoformat() *)
}.

(** One record of the library; a key that may be absent is an [option]. *)
Record file_meta : Type := mkMeta {
  file_path : string;
  chunks : option (list string);
  num_chunks : option nat;
  last_modified : option Z;
  file_name : option string;
  size_kb : option Q;
  created_at : option string
}.

(** The library: a dict, in insertion order. *)
Definition library : Type := list (string * file_meta).

(** What the function does to the outside world. *)
Inductive event : Type :=
| ReadText (path : string)        (* text extraction of one file *)
| StoreWrite (lib : library)      (* json.dump of the whole library *).

(** [round(size / 1024, 2)]: to the nearest hundredth, ties to even. *)
Definition round_kb (size : Z) : Q :=
  let n := (size * 100)%Z in
  let q := (n / 1024)%Z in
  let r := (n mod 1024)%Z in
  let up := if (512 <? r)%Z then true
            else if (r =? 512)%Z then Z.odd q else false in
  Qmake (if up then q + 1 else q) 100.

(** Lines 264-267, with the default parameters of [chunk_text]. *)
Definition read_and_chunk_file (fs : file_system) (path : string)
  : list string * string :=
  (Chunker.chunk_text (read_text fs path)
     Chunker.default_chunk_size Chunker.default_overlap, path_str fs path).

Definition has_chunks (m : file_meta) : bool :=
  match chunks m with
  | None | Some [] => false
  | Some (_ :: _) => true
  end.

Definition mtime_differs (cached : option Z) (current : Z) : bool :=
  match cached with
  | None => true
  | Some t => negb (t =? current)%Z
  end.

(** Lines 160-165. *)
Definition needs_chunking (m : file_meta) (current_mtime : Z) : bool :=
  negb (has_chunks m) || mtime_differs (last_modified m) current_mtime.

(** The state of the loop of lines 144-184. *)
Record loop_state : Type := mkLoop {
  lib : library;               (* the records visited so far *)
  all_chunks : list string;
  all_sources : list string;
  updated : bool;
  trace : list event
}.

Definition start : loop_state :=
  {| lib := []; all_chunks := []; all_sources := [];
     updated := false; trace := [] |}.

(** Lines 176-180. *)
Definition core_metadata (fs : file_system) (path : string) (info : file_info)
           (m : file_meta) : file_meta :=
  {| file_path := resolve fs path;
     chunks := chunks m;
     num_chunks := num_chunks m;
     last_modified := last_modified m;
     file_name := Some (path_name fs path);
     size_kb := Some (round_kb (st_size info));
     created_at := Some (isoformat fs (st_ctime info)) |}.

(** Lines 168-171. *)
Definition rechunked (m : file_meta) (cs : list string) (mtime : Z) : file_meta :=
  {| file_path := file_path m;
     chunks := Some cs;
     num_chunks := Some (List.length cs);
     last_modified := Some mtime;
     file_name := file_name m;
     size_kb := size_kb m;
     created_at := created_at m |}.

Definition stored_chunks (m : file_meta) : list string :=
  match chunks m with Some cs => cs | None => [] end.

(** The body of the loop for one record. *)
Definition visit (fs : file_system) (st : loop_state)
           (entry : string * file_meta) : loop_state :=
  let (name, meta) := entry in
  let path := file_path meta in
  match stat fs path with
  | None =>
      (* [continue]: nothing is touched *)
      {| lib := lib st ++ [(name, meta)];
         all_chunks := all_chunks st;
         all_sources := all_sources st;
         updated := updated st;
         trace := trace st |}
  | Some info =>
      let current_mtime := st_mtime info in
      if needs_chunking meta current_mtime then
        let cs := fst (read_and_chunk_file fs path) in
        let meta' := core_metadata fs path info (rechunked meta cs current_mtime) in
        {| lib := lib st ++ [(name, meta')];
           all_chunks := all_chunks st ++ cs;
           all_sources :=
             all_sources st ++ repeat (path_str fs path) (List.length cs);
           updated := true;
           trace := trace st ++ [ReadText path] |}
      else
        let cs := stored_chunks meta in
        let meta' := core_metadata fs path info meta in
        {| lib := lib st ++ [(name, meta')];
           all_chunks := all_chunks st ++ cs;
           all_sources :=
             all_sources st ++ repeat (path_str fs path) (List.length cs);
           updated := updated st;
           trace := trace st |}
  end.

(** What a call returns, with the events it caused. *)
Record outcome : Type := mkOutcome {
  out_library : library;
  out_chunks : list string;
  out_sources : list string;
  out_trace : list event
}.

(** Lines 186-190. *)
Definition finish (st : loop_state) : outcome :=
  {| out_library := lib st;
     out_chunks := all_chunks st;
     out_sources := all_sources st;
     out_trace := if updated st then trace st ++ [StoreWrite (lib st)]
                  else trace st |}.

(** [chunk_size] is a parameter of the source function that its body never
    reads. *)
Definition load_and_chunk_files (fs : file_system) (l : library)
           (chunk_size : Z) : outcome :=
  finish (fold_left (visit fs) l start).

Definition is_write (e : event) : bool :=
  match e with StoreWrite _ => true | ReadText _ => false end.

Definition writes (t : list event) : list event := filter is_write t.

(** The paths whose text was extracted, in order. *)
Definition extractions (t : list event) : list string :=
  flat_map (fun e => match e with
                     | ReadText p => [p]
                     | StoreWrite _ => []
                     end) t.

End Cache.

(* ================================================================= *)
(** ** The fusion ranker ([Retriever.__init__], [Retriever.search]) *)

Module Ranker.

Definition Qlt_bool (a b : Q) : bool := negb (Qle_bool b a).

(** [a[i]] on a score vector, [0] standing for a missing entry in
    statements only; the code reads entries through [getitem]. *)
Definition score_at (v : list Q) (i : nat) : Q := nth i v 0%Q.

(** The contract of [numpy.argsort]: the indices of the vector, in an order
    that makes the values ascend.  Its default sort does not promise an
    order among equal values. *)
Class Numpy : Type := {
  argsort : list Q -> list nat;
  argsort_perm : forall v, Permutation (argsort v) (seq 0 (List.length v));
  argsort_sorted :
    forall v, StronglySorted (fun i j => (score_at v i <= score_at v j)%Q)
                             (argsort v)
}.

(** A stable ascending sort of the indices: insertion after every entry
    that is not larger. *)
Fixpoint insert_index (v : list Q) (k : nat) (l : list nat) : list nat :=
  match l with
  | [] => [k]
  | h :: t =>
      if Qlt_bool (score_at v k) (score_at v h) then k :: l
      else h :: insert_index v k t
  end.

Definition stable_argsort (v : list Q) : list nat :=
  fold_left (fun sorted k => insert_index v k sorted)
            (seq 0 (List.length v)) [].

(** The builtin [max] over the entries of a vector: the first largest
    entry; [ValueError] on an empty one. *)
Fixpoint max_from (m : Q) (l : list Q) : Q :=
  match l with
  | [] => m
  | x :: r => max_from (if Qlt_bool m x then x else m) r
  end.

Definition py_max (l : list Q) : result Q :=
  match l with
  | [] => Raise ValueError
  | x :: r => Ok (max_from x r)
  end.

(** Lines 76-77: [max(v) if max(v) > 0 else 1]. *)
Definition divisor (v : list Q) : result Q :=
  m <- py_max v ;;
  Ok (if Qlt_bool 0 m then m else 1%Q).

(** Lines 79-80: [v / d]. *)
Definition divide (v : list Q) (d : Q) : list Q :=
  map (fun x => (x / d)%Q) v.

Definition normalize (v : list Q) : result (list Q) :=
  d <- divisor v ;;
  Ok (divide v d).

Definition scale (w : Q) (v : list Q) : list Q :=
  map (fun x => (w * x)%Q) v.

(** [a + b] on one-dimensional arrays: entry by entry; an array of one
    entry is stretched to the other's length; other shapes do not match. *)
Definition np_add (a b : list Q) : result (list Q) :=
  if (List.length a =? List.length b)%nat then
    Ok (map (fun p => (fst p + snd p)%Q) (combine a b))
  else
    match a, b with
    | [x], _ => Ok (map (fun y => (x + y)%Q) b)
    | _, [y] => Ok (map (fun x => (x + y)%Q) a)
    | _, _ => Raise ValueError
    end.

(** The weights of a query analysis: a dict from signal name to weight. *)
Definition weights : Type := list (string * Q).

Definition half : Q := Qmake 1 2.

(** The state of a [Retriever] after [__init__].  The two fitted indices
    are kept as the score functions [search] calls on them:
    [tfidf_similarities q] is
    [cosine_similarity(vectorizer.transform([q]), doc_vectors).flatten()]
    and [bm25_get_scores ts] is [bm25_index.get_scores(ts)]. *)
Record Retriever : Type := mkRetriever {
  documents : list string;
  doc_paths : list string;
  tfidf_similarities : string -> list Q;
  tokenize_text : string -> list string;   (* _tokenize_text *)
  bm25_get_scores : list string -> list Q;
  max_results : Z;
  analyze_query : string -> weights
}.

(** The packages [__init__] calls.  A constructor that raises gives
    [Raise]. *)
Class Backend : Type := {
  tfidf_fit : list string -> result (string -> list Q);
  analyzer : string -> list string;
  BM25Okapi : list (list string) -> result (list string -> list Q);
  classifier : string -> weights
}.

(** Lines 29-41. *)
Definition init `{Backend} (documents doc_paths : list string)
           (max_results : Z) : result Retriever :=
  tfidf <- tfidf_fit documents ;;
  let tokenized_docs := map analyzer documents in
  bm25 <- BM25Okapi tokenized_docs ;;
  Ok {| documents := documents;
        doc_paths := doc_paths;
        tfidf_similarities := tfidf;
        tokenize_text := analyzer;
        bm25_get_scores := bm25;
        max_results := max_results;
        analyze_query := classifier |}.

Definition default_max_results : Z := 5.

(** One result tuple: the chunk, its source, the combined score and
    [result_meta]. *)
Record result_tuple : Type := mkTuple {
  document : string;
  source : string;
  score : Q;
  combined_score : Q;
  tfidf_score : Q;
  bm25_score : Q
}.

Section Search.
Context `{Numpy}.
Variable r : Retriever.
Variable query : string.

(** Lines 60-65. *)
Definition sparse_weight : Q := dict_get (analyze_query r query) "sparse" half.
Definition dense_weight : Q := dict_get (analyze_query r query) "dense" half.

(** Lines 68-73. *)
Definition tfidf_raw : list Q := tfidf_similarities r query.
Definition bm25_raw : list Q := bm25_get_scores r (tokenize_text r query).

(** Lines 76-83. *)
Definition combined_scores : result (list Q) :=
  max_tfidf <- divisor tfidf_raw ;;
  max_bm25 <- divisor bm25_raw ;;
  let tfidf_norm := divide tfidf_raw max_tfidf in
  let bm25_norm := divide bm25_raw max_bm25 in
  np_add (scale dense_weight tfidf_norm) (scale sparse_weight bm25_norm).

(** Line 86: [combined.argsort()[::-1][:max_results]]. *)
Definition ranked_indices (combined : list Q) : list nat :=
  slice_to (max_results r) (rev (argsort combined)).

(** Lines 100-111, for one index. *)
Definition tuple_at (combined : list Q) (idx : nat) : result result_tuple :=
  c <- getitem combined idx ;;
  t <- getitem tfidf_raw idx ;;
  b <- getitem bm25_raw idx ;;
  d <- getitem (documents r) idx ;;
  p <- getitem (doc_paths r) idx ;;
  Ok {| document := d; source := p; score := c;
        combined_score := c; tfidf_score := t; bm25_score := b |}.

Definition search : result (list result_tuple) :=
  combined <- combined_scores ;;
  traverse (tuple_at combined) (ranked_indices combined).

End Search.

(** Every score function answers with one score per document. *)
Definition aligned (r : Retriever) : Prop :=
  forall q,
    List.length (tfidf_similarities r q) = List.length (documents r)
    /\ List.length (bm25_get_scores r (tokenize_text r q))
       = List.length (documents r).

(** What lines 76-80 do to one raw score vector [v]: [m] is its maximum,
    [d] the divisor. *)
Definition guarded_normalization (v : list Q) : Prop :=
  exists m d,
    py_max v = Ok m
    /\ divisor v = Ok d
    /\ normalize v = Ok (divide v d)
    /\ ((0 < m)%Q -> d = m)
    /\ (~ (0 < m)%Q -> d = 1%Q /\ Forall2 Qeq (divide v d) v)
    /\ ~ (d == 0)%Q
    /\ (Forall (fun x => (x == 0)%Q) v ->
        Forall (fun x => (x == 0)%Q) (divide v d))
    /\ (Forall (fun x => (0 <= x)%Q) v ->
        Forall (fun x => (0 <= x <= 1)%Q) (divide v d)).

(** Index [i] comes before index [j] in a stable ascending sort of [v]. *)
Definition before (v : list Q) (i j : nat) : Prop :=
  (score_at v i < score_at v j)%Q
  \/ ((score_at v i == score_at v j)%Q /\ i < j).

End Ranker.

(* ================================================================= *)
(** ** The answer generator ([generate_answer]) *)

Module LLM.

(** The reply of [model.generate_content(prompt)]: its text, or the message
    of the exception it raised. *)
Inductive reply : Type :=
| Text (text : string)
| Failure (message : string).

Record client : Type := mkClient {
  generate_content : string -> reply;
  format_score : Q -> string       (* the format [{score:.2f}] *)
}.

Definition lf : string := String Py.newline EmptyString.
Definition dquote : string := String (ascii_of_nat 34) EmptyString.
Definition cross_mark : string :=
  String (ascii_of_nat 226)
    (String (ascii_of_nat 157) (String (ascii_of_nat 140) EmptyString)).

Definition str_of_nat (n : nat) : string :=
  NilEmpty.string_of_uint (Nat.to_uint n).

(** Lines 13-19. *)
Fixpoint format_sources (c : client) (i : nat) (l : list (string * Q)) : string :=
  match l with
  | [] => EmptyString
  | (chunk, score) :: l' =>
      ("**Source " ++ str_of_nat (i + 1) ++ " (Relevance: "
         ++ format_score c score ++ "):**" ++ lf ++ strip chunk ++ lf ++ lf
         ++ format_sources c (i + 1) l')%string
  end.

Definition format_context (c : client) (chunks : list string) (scores : list Q)
           (max_chunks : Z) : string :=
  strip (format_sources c 0
           (combine (slice_to max_chunks chunks) (slice_to max_chunks scores))).

Definition fallback : string :=
  "I couldn't find any relevant content to answer your question.".

Definition grounded_prompt (context query : string) : string :=
  ("**Role**: You are a document-based assistant. " ++ lf
   ++ "1. Base answers ONLY on the provided context below." ++ lf
   ++ "2. If unsure, say " ++ dquote ++ "I don't have enough information."
   ++ dquote ++ lf
   ++ "3. Cite sources using [1], [2], etc." ++ lf ++ lf
   ++ "**Context**:" ++ lf ++ context ++ lf ++ lf
   ++ "**Question**: " ++ query ++ lf ++ lf
   ++ "**Answer**:")%string.

Definition open_prompt (context query : string) : string :=
  ("You are an assistant who can answer questions using your own knowledge *and* optional context. "
   ++ lf
   ++ "If the context is useful, incorporate it. Otherwise, I would love it if you relied on your own knowledge. Cite any relevant local sources as [1]."
   ++ lf ++ lf
   ++ "**Context**:" ++ lf ++ context ++ lf ++ lf ++ lf ++ lf
   ++ "**Question**: " ++ query
   ++ ". It is more than okay if none of the context is relevant. Tell me what you know."
   ++ lf ++ lf
   ++ "**Answer**:")%string.

(** What a call returns and the prompts it sent to the model, in order. *)
Record run : Type := mkRun {
  answer : result string;
  prompts : list string
}.

(** Lines 60-64. *)
Definition ask (c : client) (prompt : string) : run :=
  {| answer :=
       match generate_content c prompt with
       | Text t => Ok (strip t)
       | Failure e => Ok (cross_mark ++ " Error generating answer: " ++ e)%string
       end;
     prompts := [prompt] |}.

Definition is_nil {A} (l : list A) : bool :=
  match l with [] => true | _ :: _ => false end.

(** Lines 27-33: the context; [scores[0]] may raise. *)
Definition build_context (c : client) (chunks : list string) (scores : list Q)
           (search_web : bool) : result string :=
  if negb (is_nil chunks) && search_web then
    chunk0 <- getitem chunks 0 ;;
    score0 <- getitem scores 0 ;;
    Ok (format_context c [chunk0] [score0] 1)
  else if negb (is_nil chunks) then
    Ok (format_context c chunks scores 5)
  else
    Ok EmptyString.

(** Lines 23-64. *)
Definition generate_answer (c : client) (query : string) (chunks : list string)
           (scores : list Q) (search_web : bool) : run :=
  if is_nil chunks && negb search_web then
    {| answer := Ok fallback; prompts := [] |}
  else
    match build_context c chunks scores search_web with
    | Raise e => {| answer := Raise e; prompts := [] |}
    | Ok context =>
        ask c (if negb search_web then grounded_prompt context query
               else open_prompt context query)
    end.

End LLM.

(* ================================================================= *)
(** ** A small backend and corpus, to run the ranker on *)

Module Sample.
Import Ranker.

(** The number of query terms that occur in a document. *)
Definition overlap (query_terms doc_terms : list string) : nat :=
  List.length
    (filter (fun t => existsb (String.eqb t) doc_terms) query_terms).

(** Term-overlap scores in place of the fitted models: the share of the
    query's terms found in a document for the vector index, their number for
    the lexical index.  Like the packages it stands for, it refuses to fit
    an empty corpus. *)
#[export] Instance term_backend : Backend :=
  {| tfidf_fit := fun docs =>
       match docs with
       | [] => Raise LibraryError
       | _ :: _ =>
           Ok (fun q =>
                 map (fun d =>
                        Qmake (Z.of_nat (overlap (split q) (split d)))
                              (Pos.of_nat (List.length (split q))))
                     docs)
       end;
     analyzer := split;
     BM25Okapi := fun tokenized =>
       match tokenized with
       | [] => Raise LibraryError
       | _ :: _ =>
           Ok (fun ts => map (fun d => inject_Z (Z.of_nat (overlap ts d)))
                             tokenized)
       end;
     classifier := fun _ => [("sparse", Qmake 7 10); ("dense", Qmake 3 10)] |}.

(** A retriever over no chunk at all, with score vectors of that length. *)
Definition empty_retriever : Retriever :=
  {| documents := [];
     doc_paths := [];
     tfidf_similarities := fun _ => [];
     tokenize_text := split;
     bm25_get_scores := fun _ => [];
     max_results := default_max_results;
     analyze_query := fun _ => [] |}.

Definition corpus : list string :=
  ["alpha beta"; "alpha gamma"; "delta alpha alpha"].
Definition corpus_paths : list string := ["a.txt"; "b.txt"; "c.txt"].

(** A model that repeats its prompt, and scores printed as a fixed text. *)
Definition echo_client : LLM.client :=
  {| LLM.generate_content := fun prompt => LLM.Text prompt;
     LLM.format_score := fun _ => "0.50" |}.

End Sample.

(* ================================================================= *)
(** ** A small disk and library, to run the cache on *)

Module Disk.
Import Cache.

(** Two files: [notes.txt] holds two words and is also reachable as
    [./notes.txt] and by its resolved path; [blank.txt] holds no text.
    Nothing else exists.  [./notes.txt] is the one path used here that
    [pathlib] writes differently. *)
Definition notes_info : file_info :=
  {| st_mtime := 1700000000; st_ctime := 1690000000; st_size := 2048 |}.
Definition blank_info : file_info :=
  {| st_mtime := 1700000500; st_ctime := 1690000500; st_size := 0 |}.

Definition fs : file_system :=
  {| stat := fun p =>
       if String.eqb p "notes.txt" || String.eqb p "/data/notes.txt"
          || String.eqb p "./notes.txt"
       then Some notes_info
       else if String.eqb p "blank.txt" || String.eqb p "/data/blank.txt"
       then Some blank_info
       else None;
     read_text := fun p =>
       if String.eqb p "notes.txt" || String.eqb p "/data/notes.txt"
          || String.eqb p "./notes.txt"
       then "alpha beta" else EmptyString;
     path_str := fun p =>
       if String.eqb p "./notes.txt" then "notes.txt" else p;
     resolve := fun p =>
       if String.eqb p "notes.txt" || String.eqb p "./notes.txt"
       then "/data/notes.txt"
       else if String.eqb p "blank.txt" then "/data/blank.txt"
       else p;
     path_name := fun p =>
       if String.eqb p "/data/notes.txt" || String.eqb p "./notes.txt"
       then "notes.txt"
       else if String.eqb p "/data/blank.txt" then "blank.txt"
       else p;
     isoformat := fun _ => "2023-07-22T04:26:40" |}.

Definition untracked (path : string) : file_meta :=
  {| file_path := path; chunks := None; num_chunks := None;
     last_modified := None; file_name := None; size_kb := None;
     created_at := None |}.

Definition cached (path : string) (cs : list string) (mtime : Z) : file_meta :=
  {| file_path := path; chunks := Some cs;
     num_chunks := Some (List.length cs);
     last_modified := Some mtime; file_name := None; size_kb := None;
     created_at := None |}.

End Disk.

(* ================================================================= *)
(** ** What one record contributes to a reconcile *)

Module CacheView.
Import Cache.

Section OneRecord.
Variable fs : file_system.

Definition fresh_chunks (path : string) : list string :=
  fst (read_and_chunk_file fs path).

(** The file exists and its record is stale. *)
Definition refreshed (e : string * file_meta) : bool :=
  match stat fs (file_path (snd e)) with
  | None => false
  | Some info => needs_chunking (snd e) (st_mtime info)
  end.

Definition contribution (e : string * file_meta) : list string :=
  match stat fs (file_path (snd e)) with
  | None => []
  | Some info =>
      if needs_chunking (snd e) (st_mtime info)
      then fresh_chunks (file_path (snd e))
      else stored_chunks (snd e)
  end.

Definition visited (e : string * file_meta) : string * file_meta :=
  match stat fs (file_path (snd e)) with
  | None => e
  | Some info =>
      let path := file_path (snd e) in
      if needs_chunking (snd e) (st_mtime info)
      then (fst e,
            core_metadata fs path info
              (rechunked (snd e) (fresh_chunks path) (st_mtime info)))
      else (fst e, core_metadata fs path info (snd e))
  end.

Definition reads (e : string * file_meta) : list event :=
  if refreshed e then [ReadText (file_path (snd e))] else [].

Definition sources (e : string * file_meta) : list string :=
  repeat (path_str fs (file_path (snd e))) (List.length (contribution e)).

End OneRecord.

End CacheView.

(* ================================================================= *)
(** ** More builtins: [str.split(sep)], [str.lower] *)

Module Text.

(** [s.split(sep)] for a separator of one character: the pieces between
    the separators, empty ones included; never an empty list. *)
Fixpoint split_on (sep : ascii) (s : string) : list string :=
  match s with
  | EmptyString => [EmptyString]
  | String c r =>
      if Ascii.eqb c sep then EmptyString :: split_on sep r
      else
        match split_on sep r with
        | piece :: pieces => String c piece :: pieces
        | [] => [String c EmptyString]
        end
  end.

Definition comma : ascii := ascii_of_nat 44.

(** [c.lower()] on the ASCII letters. *)
Definition lower_char (c : ascii) : ascii :=
  let n := nat_of_ascii c in
  if (65 <=? n)%nat && (n <=? 90)%nat then ascii_of_nat (n + 32) else c.

Fixpoint lower (s : string) : string :=
  match s with
  | EmptyString => EmptyString
  | String c r => String (lower_char c) (lower r)
  end.

Fixpoint contains_char (c : ascii) (s : string) : bool :=
  match s with
  | EmptyString => false
  | String a r => Ascii.eqb a c || contains_char c r
  end.

Fixpoint has_space (s : string) : bool :=
  match s with
  | EmptyString => false
  | String c r => isspace c || has_space r
  end.

(** A word as [str.split()] returns them: not empty, no whitespace. *)
Definition is_word (s : string) : bool := negb (is_empty s) && negb (has_space s).

End Text.

(* ================================================================= *)
(** ** Text extraction ([read_text]) *)

Module Extract.

(** The readers [read_text] calls, one field per package call; a call that
    raises gives [Raise]. *)
Record readers : Type := mkReaders {
  suffix : string -> string;                    (* Path(p).suffix *)
  read_utf8 : string -> result string;          (* the text of the file, utf-8 *)
  pdf_pages : string -> result (list string);   (* page.get_text() of each page *)
  docx_paragraphs : string -> result (list string);  (* para.text of each paragraph *)
  json_indent : string -> result string;        (* json.dumps(json.loads(text), indent=2) *)
  csv_rows : string -> result (list (list string));  (* the rows of csv.reader *)
  markdown_html : string -> result string;      (* markdown.markdown(text) *)
  html_text : string -> result string;          (* BeautifulSoup(html, "html.parser").get_text() *)
  rtf_text : string -> result string;           (* rtf_to_text(text) *)
  image_text : string -> result string          (* pytesseract.image_to_string(Image.open(p)) *)
}.

Definition lf : string := String Py.newline EmptyString.

Definition image_suffixes : list string :=
  [".jpg"; ".jpeg"; ".png"; ".bmp"; ".tiff"].

(** Lines 195-230: the body of the [try]. [None] when no branch is
    taken. *)
Definition dispatch (rd : readers) (path : string) : option (result string) :=
  let sfx := Text.lower (suffix rd path) in
  if String.eqb sfx ".txt" then Some (read_utf8 rd path)
  else if String.eqb sfx ".pdf" then
    Some (pages <- pdf_pages rd path ;; Ok (join lf pages))
  else if String.eqb sfx ".docx" then
    Some (paras <- docx_paragraphs rd path ;; Ok (join lf paras))
  else if String.eqb sfx ".json" then
    Some (text <- read_utf8 rd path ;; json_indent rd text)
  else if String.eqb sfx ".csv" then
    Some (text <- read_utf8 rd path ;;
          rows <- csv_rows rd text ;;
          Ok (join lf (map (join ", ") rows)))
  else if String.eqb sfx ".md" then
    Some (md_content <- read_utf8 rd path ;;
          html_content <- markdown_html rd md_content ;;
          html_text rd html_content)
  else if String.eqb sfx ".html" then
    Some (html_content <- read_utf8 rd path ;; html_text rd html_content)
  else if String.eqb sfx ".rtf" then
    Some (rtf_content <- read_utf8 rd path ;; rtf_text rd rtf_content)
  else if existsb (String.eqb sfx) image_suffixes then
    Some (image_text rd path)
  else None.

(** Lines 193-233: an exception is caught and gives the empty text, as does
    a suffix no branch handles. *)
Definition read_text (rd : readers) (path : string) : string :=
  match dispatch rd path with
  | Some (Ok text) => text
  | Some (Raise _) => EmptyString
  | None => EmptyString
  end.

(** A disk whose [read_text] is the function above. *)
Definition file_system_of (rd : readers)
           (stat : string -> option Cache.file_info)
           (path_str resolve path_name : string -> string)
           (isoformat : Z -> string)
  : Cache.file_system :=
  {| Cache.stat := stat;
     Cache.read_text := read_text rd;
     Cache.path_str := path_str;
     Cache.resolve := resolve;
     Cache.path_name := path_name;
     Cache.isoformat := isoformat |}.

End Extract.

(* ================================================================= *)
(** ** The helpers of [llm.py] and the feedback loop *)

Module Dialogue.
Import LLM.

(** The model over a whole run: its reply may depend on the prompts it was
    sent before.  A history is the list of those prompts, oldest first. *)
Record oracle : Type := mkOracle {
  reply_after : list string -> string -> reply;
  score_format : Q -> string
}.

Definition client_after (o : oracle) (history : list string) : client :=
  {| generate_content := reply_after o history;
     format_score := score_format o |}.

(** Lines 71-76. *)
Definition get_llm_help (o : oracle) (history : list string) (prompt : string)
  : string * list string :=
  (match reply_after o history prompt with
   | Text t => strip t
   | Failure e => (cross_mark ++ " Error generating LLM content: " ++ e)%string
   end,
   history ++ [prompt]).

(** Lines 80-88: the prompt. *)
Definition expansion_prompt (query : string) (prev_queries : list string) : string :=
  let previous_queries_section :=
    if is_nil prev_queries then EmptyString
    else ("Previous Queries: " ++ join ", " prev_queries ++ lf)%string in
  ("You are a helpful assistant that expands user queries to be more specific and detailed. You can use previous queries as context. Avoid making the expanded query similar to previous queries. JUST GIVE THE EXPANDED QUERY WITHOUT ANY EXPLANATION."
   ++ lf ++ lf
   ++ "User Query: " ++ query ++ lf
   ++ previous_queries_section ++ lf
   ++ "Expanded Query:")%string.

(** Lines 80-89. *)
Definition llm_query_expansion (o : oracle) (history : list string)
           (query : string) (prev_queries : list string) : string * list string :=
  get_llm_help o history (expansion_prompt query prev_queries).

Definition keywords_prompt (answer : string) : string :=
  ("Extract the most relevant keywords or search terms from the following answer to improve future document retrieval. Return them as a comma-separated list."
   ++ lf ++ lf
   ++ "Answer: " ++ answer ++ lf
   ++ "Keywords:")%string.

(** Lines 93-99. *)
Definition extract_keywords_from_answer (o : oracle) (history : list string)
           (answer : string) : list string * list string :=
  let (keywords_text, history') := get_llm_help o history (keywords_prompt answer) in
  (map strip (Text.split_on Text.comma keywords_text), history').

(** [generate_answer] at a point of the run. *)
Definition generate_answer_after (o : oracle) (history : list string)
           (query : string) (chunks : list string) (scores : list Q)
           (search_web : bool) : result string * list string :=
  let r := generate_answer (client_after o history) query chunks scores search_web in
  (answer r, history ++ prompts r).

(** What [feedback_loop_rag] returns. *)
Record feedback : Type := mkFeedback {
  final_answer : string;
  initial_sources : list (string * string * Q);
  refined_sources : list (string * string * Q)
}.

Definition display (results : list Ranker.result_tuple)
  : list (string * string * Q) :=
  map (fun t => (Ranker.document t, Ranker.source t, Ranker.bm25_score t)) results.

(** Lines 103-142.  The second component is the history at the point where
    the function returned or raised. *)
Definition feedback_loop_rag `{Ranker.Numpy} (o : oracle) (history : list string)
           (query : string) (previous_queries : list string)
           (retriever : Ranker.Retriever) (search_web : bool)
  : result feedback * list string :=
  let (expanded_query, h1) := llm_query_expansion o history query previous_queries in
  match Ranker.search retriever expanded_query with
  | Raise e => (Raise e, h1)
  | Ok initial_results =>
      let chunks := map Ranker.document initial_results in
      let scores := map Ranker.bm25_score initial_results in
      let (first, h2) := generate_answer_after o h1 query chunks scores search_web in
      match first with
      | Raise e => (Raise e, h2)
      | Ok first_answer =>
          let (keywords, h3) := extract_keywords_from_answer o h2 first_answer in
          let refined_query := join " " keywords in
          match Ranker.search retriever refined_query with
          | Raise e => (Raise e, h3)
          | Ok refined_results =>
              let refined_chunks := map Ranker.document refined_results in
              let refined_scores := map Ranker.bm25_score refined_results in
              let (final, h4) :=
                generate_answer_after o h3 query refined_chunks refined_scores
                                      search_web in
              match final with
              | Raise e => (Raise e, h4)
              | Ok final_answer =>
                  (Ok {| final_answer := final_answer;
                         initial_sources := display initial_results;
                         refined_sources := display refined_results |},
                   h4)
              end
          end
      end
  end.

End Dialogue.

(* ================================================================= *)
(** ** Query expansion ([Retriever.query_expansion], [expanded_search]) *)

Module Expansion.
Import Dialogue.

(** The loop of lines 122-124, [n] rounds to go. *)
Fixpoint expansion_rounds (n : nat) (o : oracle) (history : list string)
         (query : string) (expanded_queries : list string)
  : list string * list string :=
  match n with
  | O => (expanded_queries, history)
  | S n' =>
      let (expanded_query, history') :=
        llm_query_expansion o history query expanded_queries in
      expansion_rounds n' o history' query (expanded_queries ++ [expanded_query])
  end.

(** Lines 115-126; [range(num_k)] is empty for a negative [num_k]. *)
Definition query_expansion (o : oracle) (history : list string)
           (query : string) (num_k : Z) : list string * list string :=
  expansion_rounds (Z.to_nat num_k) o history query [].

Definition default_num_k : Z := 5.

(** [d[key].extend(values)] on a [defaultdict(list)], keys in insertion
    order. *)
Fixpoint dict_extend {V} (d : list (string * list V)) (key : string)
         (values : list V) : list (string * list V) :=
  match d with
  | [] => [(key, values)]
  | (k, v) :: d' =>
      if String.eqb k key then (k, v ++ values) :: d'
      else (k, v) :: dict_extend d' key values
  end.

(** The loop of lines 135-137. *)
Fixpoint search_each `{Ranker.Numpy} (retriever : Ranker.Retriever)
         (queries : list string)
         (all_results : list (string * list Ranker.result_tuple))
  : result (list (string * list Ranker.result_tuple)) :=
  match queries with
  | [] => Ok all_results
  | eq :: rest =>
      results <- Ranker.search retriever eq ;;
      search_each retriever rest (dict_extend all_results eq results)
  end.

(** Lines 128-138. *)
Definition expanded_search `{Ranker.Numpy} (o : oracle) (history : list string)
           (retriever : Ranker.Retriever) (query : string)
  : result (list (string * list Ranker.result_tuple)) * list string :=
  let (expansions, history') := query_expansion o history query default_num_k in
  let expanded_queries := query :: expansions in
  (search_each retriever expanded_queries [], history').

End Expansion.

(* ================================================================= *)
(** ** Notions used to state properties *)

Module Notions.
Import Chunker Text Cache.

Definition nl : string := String Py.newline EmptyString.

Definition all_words (ws : list string) : Prop :=
  Forall (fun w => is_word w = true) ws.

(** The buffer holds words and [current_length] is its length. *)
Definition tidy (st : state) : Prop :=
  all_words (current_chunk st)
  /\ current_length st = Z.of_nat (List.length (current_chunk st)).

(** The text is empty or ends with whitespace. *)
Fixpoint ends_blank (s : string) : bool :=
  match s with
  | EmptyString => true
  | String c r =>
      match r with
      | EmptyString => isspace c
      | String _ _ => ends_blank r
      end
  end.

Definition word_count (s : string) : Z := Z.of_nat (List.length (split s)).

(** A chunk seen as the words it repeats from the chunk before (the seed)
    and the words it adds (the body). *)
Definition part : Type := (list string * list string)%type.

Definition chunk_of (p : part) : string := join " " (fst p ++ snd p).

(** Every seed is what [overlap_words] takes from the words of the chunk
    before; [prev] are the words before the first part. *)
Fixpoint seeded (overlap : Z) (prev : list string) (parts : list part) : Prop :=
  match parts with
  | [] => True
  | p :: rest =>
      fst p = overlap_words overlap prev
      /\ seeded overlap (fst p ++ snd p) rest
  end.

Fixpoint last_words (prev : list string) (parts : list part) : list string :=
  match parts with
  | [] => prev
  | p :: rest => last_words (fst p ++ snd p) rest
  end.

Definition nonempty (s : string) : Prop := s <> EmptyString.

(** [num_chunks] is the length of the stored chunk list, when there is
    one. *)
Definition consistent (m : file_meta) : Prop :=
  forall cs, chunks m = Some cs -> num_chunks m = Some (List.length cs).

(** The suffixes [read_text] has a branch for. *)
Definition supported : list string :=
  [".txt"; ".pdf"; ".docx"; ".json"; ".csv"; ".md"; ".html"; ".rtf";
   ".jpg"; ".jpeg"; ".png"; ".bmp"; ".tiff"].

End Notions.

(* ================================================================= *)
(** ** More samples to run the definitions on *)

Module Samples.
Import Cache Ranker LLM Dialogue Sample.

Definition touched_fs : file_system :=
  {| stat := fun p =>
       if String.eqb p "/data/notes.txt"
       then Some {| st_mtime := 1700009999; st_ctime := 1690000000;
                    st_size := 4096 |}
       else stat Disk.fs p;
     read_text := fun p =>
       if String.eqb p "/data/notes.txt" then "alpha beta gamma"
       else read_text Disk.fs p;
     path_str := path_str Disk.fs;
     resolve := resolve Disk.fs;
     path_name := path_name Disk.fs;
     isoformat := isoformat Disk.fs |}.

(** Readers for two files: a text file that reads well and a picture whose
    recognition fails. *)
Definition sample_readers : Extract.readers :=
  {| Extract.suffix := fun p =>
       if String.eqb p "notes.txt" then ".txt"
       else if String.eqb p "scan.PNG" then ".PNG" else ".bin";
     Extract.read_utf8 := fun p =>
       if String.eqb p "notes.txt" then Ok "alpha beta"
       else Raise LibraryError;
     Extract.pdf_pages := fun _ => Raise LibraryError;
     Extract.docx_paragraphs := fun _ => Raise LibraryError;
     Extract.json_indent := fun _ => Raise LibraryError;
     Extract.csv_rows := fun _ => Raise LibraryError;
     Extract.markdown_html := fun _ => Raise LibraryError;
     Extract.html_text := fun _ => Raise LibraryError;
     Extract.rtf_text := fun _ => Raise LibraryError;
     Extract.image_text := fun _ => Raise LibraryError |}.

(** The sample corpus, indexed. *)
Definition shelf (max_results : Z) : Retriever :=
  match init Sample.corpus Sample.corpus_paths max_results with
  | Ok r => r
  | Raise _ => Sample.empty_retriever
  end.

(** A model that always gives the same two keywords. *)
Definition keyword_oracle : oracle :=
  {| reply_after := fun _ _ => Text " alpha , gamma ";
     score_format := fun _ => "0.50" |}.

(** A model that is out of reach. *)
Definition silent_oracle : oracle :=
  {| reply_after := fun _ _ => Failure "timeout";
     score_format := fun _ => "0.50" |}.

End Samples.

(* ================================================================= *)
(** * Properties of the chunk cache *)

Module CacheFacts.
Import Cache CacheView.

Section Loop.
Variable fs : file_system.

Lemma visit_view (st : loop_state) (e : string * file_meta) :
  visit fs st e =
  {| lib := lib st ++ [visited fs e];
     all_chunks := all_chunks st ++ contribution fs e;
     all_sources := all_sources st ++ sources fs e;
     updated := updated st || refreshed fs e;
     trace := trace st ++ reads fs e |}.
Proof.
  destruct e as [name meta].
  unfold visit, visited, contribution, sources, reads, refreshed, contribution.
  cbn [fst snd].
  destruct (stat fs (file_path meta)) as [info|].
  - destruct (needs_chunking meta (st_mtime info)); cbn.
    + now rewrite orb_true_r.
    + now rewrite orb_false_r, app_nil_r.
  - cbn. now rewrite orb_false_r, !app_nil_r.
Qed.

Lemma loop_view (l : library) (st : loop_state) :
  fold_left (visit fs) l st =
  {| lib := lib st ++ map (visited fs) l;
     all_chunks := all_chunks st ++ flat_map (contribution fs) l;
     all_sources := all_sources st ++ flat_map (sources fs) l;
     updated := updated st || existsb (refreshed fs) l;
     trace := trace st ++ flat_map (reads fs) l |}.
Proof.
  revert st.
  induction l as [|e l IH]; intro st; cbn [fold_left map flat_map existsb].
  - rewrite orb_false_r, !app_nil_r. now destruct st.
  - rewrite IH, visit_view. cbn [lib all_chunks all_sources updated trace].
    now rewrite <- !app_assoc, orb_assoc.
Qed.

Lemma load_view (l : library) (k : Z) :
  load_and_chunk_files fs l k =
  {| out_library := map (visited fs) l;
     out_chunks := flat_map (contribution fs) l;
     out_sources := flat_map (sources fs) l;
     out_trace :=
       if existsb (refreshed fs) l
       then flat_map (reads fs) l ++ [StoreWrite (map (visited fs) l)]
       else flat_map (reads fs) l |}.
Proof.
  unfold load_and_chunk_files, finish. rewrite loop_view. reflexivity.
Qed.

Lemma reads_nil_iff (l : library) :
  existsb (refreshed fs) l = false -> flat_map (reads fs) l = [].
Proof.
  induction l as [|e l IH]; cbn; [reflexivity|].
  intro E. apply orb_false_iff in E as [E1 E2].
  unfold reads at 1. rewrite E1. cbn. auto.
Qed.

(** The two flattened lists of a reconcile have the same length. *)
Lemma sources_length (l : library) :
  List.length (flat_map (sources fs) l) =
  List.length (flat_map (contribution fs) l).
Proof.
  induction l as [|e l IH]; cbn; [reflexivity|].
  rewrite !length_app, IH. unfold sources. now rewrite repeat_length.
Qed.

End Loop.

(** The two flattened lists a reconcile returns have the same length. *)
Lemma reconcile_lists_aligned (fs : file_system) (l : library) (k : Z) :
  List.length (out_sources (load_and_chunk_files fs l k))
  = List.length (out_chunks (load_and_chunk_files fs l k)).
Proof. rewrite load_view. cbn. apply sources_length. Qed.

Section Run.
Variable fs : file_system.

Lemma extractions_app (t u : list event) :
  extractions (t ++ u) = extractions t ++ extractions u.
Proof. unfold extractions. now rewrite flat_map_app. Qed.

Lemma extractions_reads (l : library) :
  extractions (flat_map (reads fs) l) =
  flat_map (fun e => extractions (reads fs e)) l.
Proof.
  induction l as [|e l IH]; cbn; [reflexivity|].
  now rewrite extractions_app, IH.
Qed.

Lemma load_extractions (l : library) (k : Z) :
  extractions (out_trace (load_and_chunk_files fs l k)) =
  flat_map (fun e => extractions (reads fs e)) l.
Proof.
  rewrite load_view. cbn [out_trace].
  destruct (existsb (refreshed fs) l).
  - rewrite extractions_app, extractions_reads. cbn. now rewrite app_nil_r.
  - apply extractions_reads.
Qed.

Lemma load_chunks_split (pre post : library) (e : string * file_meta) (k : Z) :
  out_chunks (load_and_chunk_files fs (pre ++ e :: post) k) =
  out_chunks (load_and_chunk_files fs pre k) ++ contribution fs e
    ++ out_chunks (load_and_chunk_files fs post k).
Proof. rewrite !load_view. cbn [out_chunks]. now rewrite flat_map_app. Qed.

Lemma load_sources_split (pre post : library) (e : string * file_meta) (k : Z) :
  out_sources (load_and_chunk_files fs (pre ++ e :: post) k) =
  out_sources (load_and_chunk_files fs pre k) ++ sources fs e
    ++ out_sources (load_and_chunk_files fs post k).
Proof. rewrite !load_view. cbn [out_sources]. now rewrite flat_map_app. Qed.


Lemma load_record_at (pre post : library) (e : string * file_meta) (k : Z) :
  nth_error (out_library (load_and_chunk_files fs (pre ++ e :: post) k))
            (List.length pre) = Some (visited fs e).
Proof.
  rewrite load_view. cbn [out_library].
  rewrite map_app, nth_error_app2; rewrite length_map; [|lia].
  now rewrite Nat.sub_diag.
Qed.




Lemma needs_chunking_hit (m : file_meta) (t : Z) :
  needs_chunking m t = false ->
  exists c cs, chunks m = Some (c :: cs) /\ last_modified m = Some t.
Proof.
  unfold needs_chunking, has_chunks, mtime_differs.
  destruct (chunks m) as [[|c cs]|]; cbn; try discriminate.
  destruct (last_modified m) as [t'|]; cbn; try discriminate.
  rewrite negb_false_iff, Z.eqb_eq. intros ->. eauto.
Qed.

End Run.

(** C9: a tracked file whose path does not exist is skipped.  Its record
    comes back as it was, at its place; the other records, the chunks, the
    sources and the extractions are those of a reconcile of the library
    without it; the call returns. *)
Theorem reconcile_skips_missing_file
        (fs : file_system) (pre post : library) (name : string)
        (meta : file_meta) (k : Z) :
  stat fs (file_path meta) = None ->
  let o := load_and_chunk_files fs (pre ++ (name, meta) :: post) k in
  let o' := load_and_chunk_files fs (pre ++ post) k in
  nth_error (out_library o) (List.length pre) = Some (name, meta)
  /\ out_library o =
     firstn (List.length pre) (out_library o') ++ (name, meta)
       :: skipn (List.length pre) (out_library o')
  /\ out_chunks o = out_chunks o'
  /\ out_sources o = out_sources o'
  /\ extractions (out_trace o) = extractions (out_trace o').
Proof.
  intros Hgone o o'. subst o o'.
  assert (Hv : visited fs (name, meta) = (name, meta))
    by (unfold visited; cbn [snd]; now rewrite Hgone).
  assert (Hc : contribution fs (name, meta) = [])
    by (unfold contribution; cbn [snd]; now rewrite Hgone).
  assert (Hr : reads fs (name, meta) = [])
    by (unfold reads, refreshed; cbn [snd]; now rewrite Hgone).
  repeat split.
  - now rewrite load_record_at, Hv.
  - rewrite !load_view. cbn [out_library].
    rewrite !map_app. cbn [map]. rewrite Hv.
    rewrite firstn_app, skipn_app, length_map, Nat.sub_diag.
    rewrite firstn_all2, skipn_all2 by (rewrite length_map; lia).
    cbn. now rewrite app_nil_r.
  - rewrite !load_view. cbn [out_chunks].
    rewrite !flat_map_app. cbn [flat_map]. now rewrite Hc.
  - rewrite !load_view. cbn [out_sources].
    rewrite !flat_map_app. cbn [flat_map]. unfold sources at 2.
    now rewrite Hc.
  - rewrite !load_extractions, !flat_map_app. cbn [flat_map]. now rewrite Hr.
Qed.

Lemma reconcile_skips_missing_file_witness :
  stat Disk.fs "gone.txt" = None
  /\ out_chunks
       (load_and_chunk_files Disk.fs
          ([("notes", Disk.untracked "notes.txt")]
             ++ ("gone", Disk.cached "gone.txt" ["old text"] 7)
             :: []) 500)
     = out_chunks
         (load_and_chunk_files Disk.fs
            ([("notes", Disk.untracked "notes.txt")] ++ []) 500).
Proof.
  split; [reflexivity|].
  exact (proj1 (proj2 (proj2
    (@reconcile_skips_missing_file Disk.fs
       [("notes", Disk.untracked "notes.txt")] [] "gone"
       (Disk.cached "gone.txt" ["old text"] 7) 500 eq_refl)))).
Defined.



Section Twice.
Variable fs : file_system.
Hypothesis resolve_same_file : forall p, stat fs (resolve fs p) = stat fs p.

Lemma last_modified_visited (e : string * file_meta) (info : file_info) :
  stat fs (file_path (snd e)) = Some info ->
  last_modified (snd (visited fs e)) = Some (st_mtime info)
  /\ stored_chunks (snd (visited fs e)) = contribution fs e
  /\ file_path (snd (visited fs e)) = resolve fs (file_path (snd e)).
Proof.
  intro Hstat. unfold visited, contribution. rewrite Hstat.
  destruct (needs_chunking (snd e) (st_mtime info)) eqn:E; cbn.
  - auto.
  - destruct (needs_chunking_hit _ _ E) as (c & cs & Hc & Hm). auto.
Qed.

Lemma second_visit (e : string * file_meta) :
  (stat fs (file_path (snd (visited fs e))) <> None ->
   has_chunks (snd (visited fs e)) = true) ->
  refreshed fs (visited fs e) = false
  /\ contribution fs (visited fs e) = contribution fs e.
Proof.
  intro Hfull.
  destruct (stat fs (file_path (snd e))) as [info|] eqn:Hstat.
  - destruct (last_modified_visited e Hstat) as (Hm & Hc & Hp).
    assert (Hstat' : stat fs (file_path (snd (visited fs e))) = Some info)
      by (rewrite Hp, resolve_same_file; exact Hstat).
    assert (Hn : needs_chunking (snd (visited fs e)) (st_mtime info) = false).
    { unfold needs_chunking. rewrite Hfull by congruence.
      rewrite Hm. cbn. now rewrite Z.eqb_refl. }
    unfold refreshed. unfold contribution at 1.
    rewrite Hstat', Hn. auto.
  - assert (Hv : visited fs e = e) by (unfold visited; now rewrite Hstat).
    rewrite Hv. unfold refreshed, contribution. now rewrite Hstat.
Qed.

Lemma second_run (l : library) :
  Forall (fun e => stat fs (file_path (snd e)) <> None ->
                   has_chunks (snd e) = true) (map (visited fs) l) ->
  existsb (refreshed fs) (map (visited fs) l) = false
  /\ flat_map (contribution fs) (map (visited fs) l)
     = flat_map (contribution fs) l.
Proof.
  induction l as [|e l IH]; cbn; [auto|].
  intro HF. inversion HF as [|? ? He Hl]; subst.
  destruct (second_visit e He) as [Hr Hc].
  destruct (IH Hl) as [Hr' Hc'].
  now rewrite Hr, Hr', Hc, Hc'.
Qed.

Lemma second_refreshed_record (e : string * file_meta) :
  refreshed fs (visited fs e) = false <->
  (stat fs (file_path (snd (visited fs e))) <> None ->
   has_chunks (snd (visited fs e)) = true).
Proof.
  split; [|apply second_visit].
  intros Hr Hstat'. unfold refreshed in Hr.
  destruct (stat fs (file_path (snd (visited fs e)))) as [info'|];
    [|congruence].
  unfold needs_chunking in Hr. apply orb_false_iff in Hr as [Hr _].
  now apply negb_false_iff in Hr.
Qed.

Lemma second_refreshed (l : library) :
  existsb (refreshed fs) (map (visited fs) l) = false <->
  Forall (fun e => stat fs (file_path (snd e)) <> None ->
                   has_chunks (snd e) = true) (map (visited fs) l).
Proof.
  induction l as [|e l IH]; cbn [map existsb].
  - split; auto.
  - rewrite orb_false_iff, IH, second_refreshed_record. split.
    + intros [He Hl]. now constructor.
    + intro HF. inversion HF; subst. auto.
Qed.

Hypothesis resolve_same_text :
  forall p, read_text fs (resolve fs p) = read_text fs p.

(** The second visit of a record contributes what the first one did, also
    when it extracts the file again. *)
Lemma second_contribution (e : string * file_meta) :
  contribution fs (visited fs e) = contribution fs e.
Proof.
  destruct (has_chunks (snd (visited fs e))) eqn:Hh.
  - apply second_visit. intros _. exact Hh.
  - destruct (stat fs (file_path (snd e))) as [info|] eqn:Hstat.
    + destruct (last_modified_visited e Hstat) as (Hm & Hc & Hp).
      unfold contribution at 1.
      rewrite Hp, resolve_same_file, Hstat.
      unfold needs_chunking. rewrite Hh. cbn [negb orb].
      unfold fresh_chunks, read_and_chunk_file. cbn [fst].
      rewrite resolve_same_text.
      unfold visited in Hh. unfold contribution. rewrite Hstat in *.
      destruct (needs_chunking (snd e) (st_mtime info)) eqn:E.
      * reflexivity.
      * cbn in Hh. destruct (needs_chunking_hit _ _ E) as (c & cs & Hcs & _).
        unfold has_chunks in Hh. cbn in Hh. rewrite Hcs in Hh. discriminate.
    + assert (Hv : visited fs e = e) by (unfold visited; now rewrite Hstat).
      now rewrite Hv.
Qed.

Lemma second_chunks (l : library) :
  flat_map (contribution fs) (map (visited fs) l)
  = flat_map (contribution fs) l.
Proof.
  induction l as [|e l IH]; cbn; [reflexivity|].
  now rewrite second_contribution, IH.
Qed.

End Twice.

Ltac by_path p :=
  unfold Disk.fs, stat, read_text, resolve;
  destruct (String.eqb_spec p "notes.txt") as [->|N1]; [reflexivity|];
  destruct (String.eqb_spec p "./notes.txt") as [->|N2]; [reflexivity|];
  destruct (String.eqb_spec p "blank.txt") as [->|N3]; [reflexivity|];
  apply String.eqb_neq in N1, N2, N3;
  repeat (progress (cbn [orb]; cbv beta iota; rewrite ?N1, ?N2, ?N3));
  reflexivity.

(** On the sample disk a resolved path leads to the same file. *)
Lemma Disk_resolve_stat (p : string) :
  stat Disk.fs (resolve Disk.fs p) = stat Disk.fs p.
Proof. by_path p. Qed.

Lemma Disk_resolve_text (p : string) :
  read_text Disk.fs (resolve Disk.fs p) = read_text Disk.fs p.
Proof. by_path p. Qed.

(** C6, on a file without text: the second reconcile extracts it again and
    writes the store again. *)
Lemma reconcile_blank_file_written_again :
  let o1 := load_and_chunk_files Disk.fs
              [("blank", Disk.untracked "blank.txt")] 500 in
  let o2 := load_and_chunk_files Disk.fs (out_library o1) 500 in
  out_chunks o1 = [] /\ out_chunks o2 = []
  /\ writes (out_trace o2) = [StoreWrite (out_library o2)]
  /\ writes (out_trace o2) <> [].
Proof.
  vm_compute. repeat split; discriminate.
Qed.

(** C6, amended: with no change on disk between the two calls, and
    resolving a path leading to the same file (same [stat], same text), a
    second reconcile returns the same flattened chunk list as the first,
    whatever the records hold.  It causes no event, no extraction and no
    write to the store, exactly when every record of a file present on
    disk holds at least one chunk after the first reconcile; and it
    writes exactly when it extracts. *)
Theorem reconcile_twice_no_write
        (fs : file_system) (l : library) (k k' : Z) :
  (forall p, stat fs (resolve fs p) = stat fs p) ->
  (forall p, read_text fs (resolve fs p) = read_text fs p) ->
  let o1 := load_and_chunk_files fs l k in
  let o2 := load_and_chunk_files fs (out_library o1) k' in
  out_chunks o2 = out_chunks o1
  /\ (Forall (fun e => stat fs (file_path (snd e)) <> None ->
                       has_chunks (snd e) = true) (out_library o1)
      <-> out_trace o2 = [])
  /\ (writes (out_trace o2) = [] <-> out_trace o2 = []).
Proof.
  intros Hres Hread o1 o2. subst o1 o2.
  rewrite (load_view fs l k). cbn [out_library out_chunks].
  rewrite load_view. cbn [out_chunks out_trace].
  split; [apply second_chunks; assumption|].
  rewrite <- (second_refreshed fs Hres l).
  destruct (existsb (refreshed fs) (map (visited fs) l)) eqn:E.
  - split; split; intro H; try discriminate.
    + now destruct (flat_map (reads fs) (map (visited fs) l)).
    + unfold writes in H. rewrite filter_app in H. cbn in H.
      now destruct (filter is_write (flat_map (reads fs) (map (visited fs) l))).
    + now destruct (flat_map (reads fs) (map (visited fs) l)).
  - rewrite (reads_nil_iff fs _ E). now repeat split.
Qed.

Lemma reconcile_twice_no_write_witness :
  (forall p, stat Disk.fs (resolve Disk.fs p) = stat Disk.fs p)
  /\ (forall p, read_text Disk.fs (resolve Disk.fs p) = read_text Disk.fs p)
  /\ let o1 := load_and_chunk_files Disk.fs
                 [("notes", Disk.untracked "notes.txt");
                  ("gone", Disk.cached "gone.txt" ["old text"] 7)] 500 in
     let o2 := load_and_chunk_files Disk.fs (out_library o1) 500 in
     out_chunks o1 = ["alpha beta"]
     /\ out_chunks o2 = out_chunks o1
     /\ out_trace o2 = [].
Proof.
  split; [exact Disk_resolve_stat|]. split; [exact Disk_resolve_text|].
  cbv zeta. split; [vm_compute; reflexivity|].
  pose proof (@reconcile_twice_no_write Disk.fs
    [("notes", Disk.untracked "notes.txt");
     ("gone", Disk.cached "gone.txt" ["old text"] 7)] 500 500
    Disk_resolve_stat Disk_resolve_text) as W.
  cbv zeta in W. destruct W as (Hc & Ht & _).
  split; [exact Hc|]. apply Ht.
  vm_compute. repeat constructor.
Defined.

End CacheFacts.

(* ================================================================= *)
(** * Properties of the fusion ranker *)

Module RankerFacts.
Import Ranker Sample.

Lemma Qlt_bool_iff (a b : Q) : Qlt_bool a b = true <-> (a < b)%Q.
Proof.
  unfold Qlt_bool. rewrite negb_true_iff.
  split; intro E.
  - apply Qnot_le_lt. intro L. apply Qle_bool_iff in L. congruence.
  - destruct (Qle_bool b a) eqn:L; [|reflexivity].
    apply Qle_bool_iff in L. exfalso. exact (Qlt_not_le _ _ E L).
Qed.

Lemma Qlt_bool_false (a b : Q) : Qlt_bool a b = false <-> (b <= a)%Q.
Proof.
  unfold Qlt_bool. rewrite negb_false_iff. apply Qle_bool_iff.
Qed.

(** *** The builtin [max] *)

Lemma max_from_ge (l : list Q) (m : Q) : (m <= max_from m l)%Q.
Proof.
  revert m. induction l as [|x l IH]; intro m; cbn.
  - apply Qle_refl.
  - destruct (Qlt_bool m x) eqn:E.
    + apply Qlt_bool_iff in E. eapply Qle_trans; [|apply IH].
      now apply Qlt_le_weak.
    + apply IH.
Qed.

Lemma max_from_upper (l : list Q) (m : Q) :
  Forall (fun x => (x <= max_from m l)%Q) l.
Proof.
  revert m. induction l as [|x l IH]; intro m; cbn; constructor.
  - destruct (Qlt_bool m x) eqn:E.
    + apply max_from_ge.
    + apply Qlt_bool_false in E. eapply Qle_trans; [exact E|apply max_from_ge].
  - apply IH.
Qed.

Lemma max_from_in (l : list Q) (m : Q) : In (max_from m l) (m :: l).
Proof.
  revert m. induction l as [|x l IH]; intro m; cbn.
  - now left.
  - destruct (IH (if Qlt_bool m x then x else m)) as [E|E].
    + destruct (Qlt_bool m x); rewrite <- E; auto.
    + auto.
Qed.

Lemma py_max_ok (v : list Q) : v <> [] -> exists m, py_max v = Ok m.
Proof. destruct v; [congruence|]. intros _. cbn. eauto. Qed.

Lemma py_max_upper (v : list Q) (m : Q) :
  py_max v = Ok m -> Forall (fun x => (x <= m)%Q) v /\ In m v.
Proof.
  destruct v as [|x l]; cbn; [discriminate|].
  intro E. injection E as <-. split.
  - constructor; [apply max_from_ge|apply max_from_upper].
  - apply max_from_in.
Qed.

(** *** Normalization *)

Lemma divisor_cases (v : list Q) (m : Q) :
  py_max v = Ok m ->
  exists d, divisor v = Ok d
            /\ ((0 < m)%Q -> d = m)
            /\ (~ (0 < m)%Q -> d = 1%Q)
            /\ (0 < d)%Q.
Proof.
  intro E. unfold divisor. rewrite E. cbn.
  destruct (Qlt_bool 0 m) eqn:P; eexists; split; try reflexivity.
  - apply Qlt_bool_iff in P. repeat split; auto. intro N. contradiction.
  - repeat split; auto.
    intro L. apply Qlt_bool_iff in L. congruence.
Qed.

Lemma divide_by_one (v : list Q) : Forall2 Qeq (divide v 1) v.
Proof.
  induction v as [|x v IH]; cbn; constructor; [|exact IH].
  unfold Qdiv. setoid_replace (/ 1)%Q with 1%Q by reflexivity.
  apply Qmult_1_r.
Qed.

Lemma divide_zero (v : list Q) (d : Q) :
  Forall (fun x => (x == 0)%Q) v -> Forall (fun x => (x == 0)%Q) (divide v d).
Proof.
  induction 1 as [|x v Hx _ IH]; cbn; constructor; [|exact IH].
  unfold Qdiv. rewrite Hx. apply Qmult_0_l.
Qed.

Lemma divide_unit (v : list Q) (d : Q) :
  (0 < d)%Q ->
  Forall (fun x => (0 <= x)%Q) v -> Forall (fun x => (x <= d)%Q) v ->
  Forall (fun x => (0 <= x <= 1)%Q) (divide v d).
Proof.
  intros Hd Hpos. induction Hpos as [|x v Hx _ IH]; intro Hle; cbn; constructor.
  - inversion Hle; subst. split.
    + apply Qle_shift_div_l; [exact Hd|]. now rewrite Qmult_0_l.
    + apply Qle_shift_div_r; [exact Hd|]. now rewrite Qmult_1_l.
  - inversion Hle; subst. auto.
Qed.

(** *** Sorted lists *)

Section Sorted.
Variables A B : Type.

Lemma sorted_snoc (R : A -> A -> Prop) (l : list A) (x : A) :
  StronglySorted R l -> Forall (fun y => R y x) l ->
  StronglySorted R (l ++ [x]).
Proof.
  induction 1 as [|a l Hl IH Ha]; intro Hx; cbn.
  - repeat constructor.
  - inversion Hx; subst. constructor; [auto|].
    apply Forall_app. split; [exact Ha|]. now constructor.
Qed.

Lemma sorted_rev (R : A -> A -> Prop) (l : list A) :
  StronglySorted R l -> StronglySorted (fun x y => R y x) (rev l).
Proof.
  induction 1 as [|a l Hl IH Ha]; cbn; [constructor|].
  apply sorted_snoc; [exact IH|].
  apply Forall_rev. exact Ha.
Qed.

Lemma sorted_firstn (R : A -> A -> Prop) (n : nat) (l : list A) :
  StronglySorted R l -> StronglySorted R (firstn n l).
Proof.
  intro H. revert n.
  induction H as [|a l Hl IH Ha]; intro n; destruct n; cbn; try constructor.
  - apply IH.
  - apply Forall_forall. intros x Hx.
    rewrite Forall_forall in Ha. apply Ha.
    rewrite <- (firstn_skipn n l). apply in_or_app. now left.
Qed.

Lemma sorted_weaken (R S : A -> A -> Prop) (l : list A) :
  (forall x y, R x y -> S x y) ->
  StronglySorted R l -> StronglySorted S l.
Proof.
  intros HRS. induction 1 as [|a l Hl IH Ha]; constructor; [exact IH|].
  eapply Forall_impl; [|exact Ha]. auto.
Qed.

Lemma sorted_transport (P : A -> B -> Prop) (R : A -> A -> Prop)
      (S : B -> B -> Prop) (l : list A) (l' : list B) :
  (forall a a' b b', P a a' -> P b b' -> R a b -> S a' b') ->
  Forall2 P l l' -> StronglySorted R l -> StronglySorted S l'.
Proof.
  intros HPS HF. induction HF as [|a a' l l' Ha HF IH]; intro Hs.
  - constructor.
  - inversion Hs as [|? ? Hl Hall]; subst. constructor; [auto|].
    clear IH Hs Hl. induction HF as [|b b' l l' Hb HF IH]; constructor.
    + inversion Hall; subst. eauto.
    + inversion Hall; subst. auto.
Qed.

End Sorted.

(** *** The stable argsort *)

Section Stable.
Variable v : list Q.

Lemma insert_index_perm (k : nat) (l : list nat) :
  Permutation (insert_index v k l) (k :: l).
Proof.
  induction l as [|h t IH]; cbn; [reflexivity|].
  destruct (Qlt_bool (score_at v k) (score_at v h)); [reflexivity|].
  rewrite IH. apply perm_swap.
Qed.

Lemma fold_insert_perm (ks acc : list nat) :
  Permutation (fold_left (fun sorted k => insert_index v k sorted) ks acc)
              (acc ++ ks).
Proof.
  revert acc. induction ks as [|k ks IH]; intro acc; cbn.
  - now rewrite app_nil_r.
  - rewrite IH, insert_index_perm. cbn.
    now rewrite <- Permutation_middle.
Qed.

Lemma stable_argsort_perm :
  Permutation (stable_argsort v) (seq 0 (List.length v)).
Proof. unfold stable_argsort. now rewrite fold_insert_perm. Qed.

Lemma before_trans_le (i j x : nat) :
  (score_at v i < score_at v j)%Q -> before v j x -> before v i x.
Proof.
  intros Hij [Hjx|[Hjx _]]; left.
  - eapply Qlt_trans; eauto.
  - now rewrite <- Hjx.
Qed.

Lemma insert_index_stable (k : nat) (l : list nat) :
  Forall (fun i => i < k) l ->
  StronglySorted (before v) l ->
  StronglySorted (before v) (insert_index v k l).
Proof.
  intros Hlt Hs. induction Hs as [|h t Ht IH Hh]; cbn.
  - repeat constructor.
  - inversion Hlt as [|? ? Hhk Htk]; subst.
    destruct (Qlt_bool (score_at v k) (score_at v h)) eqn:E.
    + apply Qlt_bool_iff in E.
      constructor; [now constructor|].
      constructor; [now left|].
      eapply Forall_impl; [|exact Hh]. intros x Hx.
      eapply before_trans_le; eauto.
    + apply Qlt_bool_false in E.
      constructor; [auto|].
      eapply Permutation_Forall;
        [symmetry; apply insert_index_perm|].
      constructor; [|exact Hh].
      destruct (Qle_lt_or_eq _ _ E) as [L|L]; [now left|right; auto].
Qed.

Lemma fold_insert_stable (n a : nat) (acc : list nat) :
  Forall (fun i => i < a) acc ->
  StronglySorted (before v) acc ->
  StronglySorted (before v)
    (fold_left (fun sorted k => insert_index v k sorted) (seq a n) acc).
Proof.
  revert a acc. induction n as [|n IH]; intros a acc Hlt Hs; cbn; [exact Hs|].
  apply IH.
  - eapply Permutation_Forall; [symmetry; apply insert_index_perm|].
    constructor; [lia|].
    eapply Forall_impl; [|exact Hlt]. cbn. intros; lia.
  - now apply insert_index_stable.
Qed.

Lemma stable_argsort_stable : StronglySorted (before v) (stable_argsort v).
Proof. apply fold_insert_stable; constructor. Qed.

Lemma before_ascending (i j : nat) :
  before v i j -> (score_at v i <= score_at v j)%Q.
Proof.
  intros [L|[E _]]; [now apply Qlt_le_weak|].
  rewrite E. apply Qle_refl.
Qed.

Lemma stable_argsort_sorted :
  StronglySorted (fun i j => (score_at v i <= score_at v j)%Q)
                 (stable_argsort v).
Proof.
  eapply sorted_weaken; [|apply stable_argsort_stable].
  intros i j. apply before_ascending.
Qed.

End Stable.

(** A stable sort meets the contract of [argsort]. *)
#[export] Instance stable_numpy : Numpy :=
  {| argsort := stable_argsort;
     argsort_perm := stable_argsort_perm;
     argsort_sorted := stable_argsort_sorted |}.

(** *** Loops that may raise *)

Lemma traverse_ok (A B : Type) (f : A -> result B) (l : list A) (res : list B) :
  traverse f l = Ok res -> Forall2 (fun a b => f a = Ok b) l res.
Proof.
  revert res. induction l as [|a l IH]; intros res E; cbn in E.
  - injection E as <-. constructor.
  - destruct (f a) as [b|e] eqn:Ea; cbn in E; [|discriminate].
    destruct (traverse f l) as [bs|e] eqn:El; cbn in E; [|discriminate].
    injection E as <-. constructor; auto.
Qed.

Lemma traverse_raises (A B : Type) (f : A -> result B) (l : list A)
      (e : exn) (a : A) :
  (forall x e', f x = Raise e' -> e' = e) ->
  In a l -> f a = Raise e -> traverse f l = Raise e.
Proof.
  intros Honly. induction l as [|x l IH]; intros Hin Ha; [contradiction|].
  cbn. destruct (f x) as [b|e'] eqn:Ex; cbn.
  - destruct Hin as [->|Hin]; [congruence|].
    now rewrite (IH Hin Ha).
  - now rewrite (Honly _ _ Ex).
Qed.

Lemma getitem_ok (A : Type) (l : list A) (i : nat) (a : A) :
  getitem l i = Ok a <-> nth_error l i = Some a.
Proof.
  unfold getitem. destruct (nth_error l i); split; congruence.
Qed.

Lemma getitem_raises (A : Type) (l : list A) (i : nat) (e : exn) :
  getitem l i = Raise e -> e = IndexError.
Proof. unfold getitem. destruct (nth_error l i); congruence. Qed.

Lemma getitem_beyond (A : Type) (l : list A) (i : nat) :
  List.length l <= i -> getitem l i = Raise IndexError.
Proof.
  intro L. unfold getitem.
  now rewrite (proj2 (nth_error_None l i) L).
Qed.

(** *** Shapes *)

Lemma np_add_at (a b c : list Q) (i : nat) (x y z : Q) :
  np_add a b = Ok c ->
  nth_error a i = Some x -> nth_error b i = Some y ->
  nth_error c i = Some z ->
  z = (x + y)%Q.
Proof.
  unfold np_add. intros E Ha Hb Hc.
  destruct (List.length a =? List.length b)%nat eqn:L.
  - injection E as E; subst c.
    rewrite nth_error_map in Hc.
    assert (Hab : nth_error (combine a b) i = Some (x, y)).
    { clear Hc L. revert b i Ha Hb.
      induction a as [|a0 a IH]; intros [|b0 b] [|i] Ha Hb;
        cbn in *; try discriminate; [congruence|auto]. }
    rewrite Hab in Hc. cbn in Hc. congruence.
  - destruct a as [|a0 [|a1 a]].
    + destruct i; discriminate.
    + destruct i as [|i]; [|destruct i; discriminate].
      cbn in Ha. injection Ha as ->.
      injection E as E; subst c.
      rewrite nth_error_map, Hb in Hc. cbn in Hc. congruence.
    + destruct b as [|b0 [|b1 b]]; try discriminate.
      destruct i as [|i]; [|destruct i; discriminate].
      injection E as E; subst c.
      cbn in *. congruence.
Qed.

Lemma slice_to_length (A : Type) (k : Z) (l : list A) :
  (0 <= k)%Z -> (Z.of_nat (List.length (slice_to k l)) <= k)%Z.
Proof.
  intro Hk. unfold slice_to.
  rewrite (proj2 (Z.leb_le 0 k) Hk).
  pose proof (firstn_le_length (Z.to_nat k) l). lia.
Qed.

Lemma slice_to_negative_length
      `{Numpy} (k : Z) (v : list Q) :
  (k < 0)%Z ->
  Z.of_nat (List.length (slice_to k (rev (argsort v))))
  = Z.max 0 (Z.of_nat (List.length v) + k).
Proof.
  intro Hk. unfold slice_to.
  rewrite (proj2 (Z.leb_gt 0 k) Hk).
  rewrite length_firstn, length_rev.
  rewrite (Permutation_length (argsort_perm v)), length_seq. lia.
Qed.

Lemma slice_to_sorted (A : Type) (R : A -> A -> Prop) (k : Z) (l : list A) :
  StronglySorted R l -> StronglySorted R (slice_to k l).
Proof.
  intro Hs. unfold slice_to. destruct (0 <=? k)%Z; now apply sorted_firstn.
Qed.

(** *** What a successful search returns *)

Section SearchFacts.
Context `{Numpy}.
Variable r : Retriever.
Variable query : string.

Lemma search_ok (results : list result_tuple) :
  search r query = Ok results ->
  exists combined,
    combined_scores r query = Ok combined
    /\ Forall2 (fun idx t => tuple_at r query combined idx = Ok t)
               (ranked_indices r combined) results.
Proof.
  unfold search. intro E.
  destruct (combined_scores r query) as [combined|e]; cbn in E; [|discriminate].
  exists combined. split; [reflexivity|]. now apply traverse_ok.
Qed.

Lemma tuple_at_ok (combined : list Q) (idx : nat) (t : result_tuple) :
  tuple_at r query combined idx = Ok t ->
  nth_error combined idx = Some (score t)
  /\ combined_score t = score t
  /\ nth_error (tfidf_raw r query) idx = Some (tfidf_score t)
  /\ nth_error (bm25_raw r query) idx = Some (bm25_score t)
  /\ nth_error (documents r) idx = Some (document t)
  /\ nth_error (doc_paths r) idx = Some (source t).
Proof.
  unfold tuple_at. intro E.
  destruct (getitem combined idx) as [c|] eqn:Ec; cbn in E; [|discriminate].
  destruct (getitem (tfidf_raw r query) idx) as [x|] eqn:Et; cbn in E;
    [|discriminate].
  destruct (getitem (bm25_raw r query) idx) as [y|] eqn:Eb; cbn in E;
    [|discriminate].
  destruct (getitem (documents r) idx) as [d|] eqn:Ed; cbn in E;
    [|discriminate].
  destruct (getitem (doc_paths r) idx) as [p|] eqn:Ep; cbn in E;
    [|discriminate].
  injection E as <-. cbn.
  apply getitem_ok in Ec, Et, Eb, Ed, Ep. auto 6.
Qed.

Lemma tuple_at_raises (combined : list Q) (idx : nat) (e : exn) :
  tuple_at r query combined idx = Raise e -> e = IndexError.
Proof.
  unfold tuple_at. intro E.
  repeat match type of E with
         | bind (getitem ?l ?i) _ = _ =>
             let G := fresh "G" in
             destruct (getitem l i) eqn:G; cbn in E;
             [|injection E as <-; exact (getitem_raises _ _ G)]
         end.
  discriminate.
Qed.

Lemma tuple_at_beyond_paths (combined : list Q) (idx : nat) :
  List.length (doc_paths r) <= idx ->
  tuple_at r query combined idx = Raise IndexError.
Proof.
  intro L. destruct (tuple_at r query combined idx) as [t|e] eqn:E.
  - apply tuple_at_ok in E. destruct E as (_ & _ & _ & _ & _ & Ep).
    apply nth_error_None in L. congruence.
  - now rewrite (tuple_at_raises _ _ E).
Qed.

Lemma combined_scores_ok (combined : list Q) :
  combined_scores r query = Ok combined ->
  exists max_tfidf max_bm25,
    divisor (tfidf_raw r query) = Ok max_tfidf
    /\ divisor (bm25_raw r query) = Ok max_bm25
    /\ np_add (scale (dense_weight r query)
                     (divide (tfidf_raw r query) max_tfidf))
              (scale (sparse_weight r query)
                     (divide (bm25_raw r query) max_bm25))
       = Ok combined.
Proof.
  unfold combined_scores. intro E.
  destruct (divisor (tfidf_raw r query)) as [a|]; cbn in E; [|discriminate].
  destruct (divisor (bm25_raw r query)) as [b|]; cbn in E; [|discriminate].
  eauto.
Qed.

Lemma ranked_indices_descending (combined : list Q) :
  StronglySorted (fun i j => (score_at combined j <= score_at combined i)%Q)
                 (ranked_indices r combined).
Proof.
  unfold ranked_indices. apply slice_to_sorted.
  apply (sorted_rev (argsort_sorted combined)).
Qed.

End SearchFacts.

(** C1, on the code: a search over zero indexed chunks does not return an
    empty list.  The score vectors have no entry, and [max] of the first one
    raises [ValueError] on line 76. *)
Theorem search_empty_corpus_raises `{Numpy} (r : Retriever) (query : string) :
  documents r = [] -> aligned r ->
  search r query = Raise ValueError.
Proof.
  intros Hdocs Hal.
  destruct (Hal query) as [Ht _]. rewrite Hdocs in Ht. cbn in Ht.
  unfold search, combined_scores, tfidf_raw.
  destruct (tfidf_similarities r query); [reflexivity|discriminate].
Qed.

Lemma search_empty_corpus_raises_witness :
  documents Sample.empty_retriever = []
  /\ aligned Sample.empty_retriever
  /\ search Sample.empty_retriever "what is machine learning?"
     = Raise ValueError.
Proof.
  assert (Hal : aligned Sample.empty_retriever) by (intro q; split; reflexivity).
  split; [reflexivity|]. split; [exact Hal|].
  exact (@search_empty_corpus_raises stable_numpy Sample.empty_retriever
           "what is machine learning?" eq_refl Hal).
Defined.

(** C4, at a vector with a negative entry: the vector is not all zero, and
    a normalized entry lies below [0]; and at a vector whose maximum is
    negative the divisor is [1], not the maximum. *)
Lemma normalize_negative_entry :
  (exists n, normalize [(-1)%Q; 2%Q] = Ok n
             /\ ~ Forall (fun x => (x == 0)%Q) [(-1)%Q; 2%Q]
             /\ ~ Forall (fun x => (0 <= x <= 1)%Q) n)
  /\ py_max [(-2)%Q] = Ok (-2)%Q
  /\ divisor [(-2)%Q] = Ok 1%Q.
Proof.
  split; [|split; reflexivity].
  eexists. split; [reflexivity|]. split; intro F.
  - inversion F as [|? ? E _]; subst. discriminate E.
  - inversion F as [|? ? [L _] _]; subst.
    vm_compute in L. now apply L.
Qed.

(** C4, amended: a raw score vector with at least one entry is divided by
    its maximum when that maximum is positive and by [1], which leaves it
    as it is, otherwise; the divisor is never [0]; an all-zero vector stays
    all zero; and when no raw entry is negative every normalized entry lies
    in [[0, 1]].  This holds for each of the two vectors of a search. *)
Theorem normalize_guarded (tfidf bm25 : list Q) :
  tfidf <> [] -> bm25 <> [] ->
  guarded_normalization tfidf /\ guarded_normalization bm25.
Proof.
  assert (Hone : forall v : list Q, v <> [] -> guarded_normalization v).
  { intros v Hv.
    destruct (py_max_ok Hv) as [m Hm].
    destruct (divisor_cases _ Hm) as (d & Hd & Hpos & Hneg & Hd0).
    destruct (py_max_upper _ Hm) as [Hup Hin].
    exists m, d.
    split; [exact Hm|]. split; [exact Hd|].
    split; [unfold normalize; now rewrite Hd|].
    split; [exact Hpos|].
    split.
    { intro N. split; [now apply Hneg|].
      rewrite (Hneg N). apply divide_by_one. }
    split.
    { intro Z. rewrite Z in Hd0. exact (Qlt_irrefl _ Hd0). }
    split; [now apply divide_zero|].
    intro Hnn. apply divide_unit; auto.
    destruct (Qlt_le_dec 0 m) as [P|P].
    - now rewrite (Hpos P).
    - rewrite (Hneg (Qle_not_lt _ _ P)).
      eapply Forall_impl; [|exact Hup]. cbn. intros x Hx.
      eapply Qle_trans; [exact Hx|].
      eapply Qle_trans; [exact P|]. discriminate. }
  intros Ht Hb. split; auto.
Qed.

Lemma normalize_guarded_witness :
  [Qmake 1 2; 0%Q] <> [] /\ [0%Q; 0%Q; 0%Q] <> []
  /\ guarded_normalization [Qmake 1 2; 0%Q]
  /\ guarded_normalization [0%Q; 0%Q; 0%Q].
Proof.
  assert (A : [Qmake 1 2; 0%Q] <> []) by discriminate.
  assert (B : [0%Q; 0%Q; 0%Q] <> []) by discriminate.
  exact (conj A (conj B (normalize_guarded A B))).
Defined.

(** C7, with a negative [max_results]: the slice [[:max_results]] of line
    86 then counts from the end, so over three chunks [max_results = -1]
    gives two tuples, which is more than [max_results]. *)
Lemma search_negative_max_results :
  exists r results,
    init Sample.corpus Sample.corpus_paths (-1) = Ok r
    /\ search (H := stable_numpy) r "alpha gamma" = Ok results
    /\ List.length results = 2
    /\ ~ (Z.of_nat (List.length results) <= max_results r)%Z.
Proof.
  do 2 eexists. split; [reflexivity|].
  split; [vm_compute; reflexivity|].
  split; [reflexivity|]. cbn. lia.
Qed.

(** C7, amended: when a search returns, it returns one tuple per ranked
    snapshot index [idx]; the tuple carries the chunk and the source at
    [idx], the two raw scores at [idx], and a combined score equal to
    [w_dense * (tfidf[idx] / max_tfidf) + w_sparse * (bm25[idx] / max_bm25)],
    where the weights are those the classifier gave for the query, [1/2]
    standing in for a missing one.  It returns at most [max_results] tuples
    when [max_results] is not negative; a negative [max_results] drops that
    many from the end of the ranking instead, and all that is left is
    returned. *)
Theorem search_result_tuples
        `{Numpy} (r : Retriever) (query : string) (results : list result_tuple) :
  search r query = Ok results ->
  let w_sparse := dict_get (analyze_query r query) "sparse" (Qmake 1 2) in
  let w_dense := dict_get (analyze_query r query) "dense" (Qmake 1 2) in
  exists max_tfidf max_bm25 combined,
    divisor (tfidf_raw r query) = Ok max_tfidf
    /\ divisor (bm25_raw r query) = Ok max_bm25
    /\ combined_scores r query = Ok combined
    /\ Forall2
         (fun idx t =>
            nth_error (documents r) idx = Some (document t)
            /\ nth_error (doc_paths r) idx = Some (source t)
            /\ nth_error (tfidf_raw r query) idx = Some (tfidf_score t)
            /\ nth_error (bm25_raw r query) idx = Some (bm25_score t)
            /\ nth_error combined idx = Some (combined_score t)
            /\ score t = combined_score t
            /\ combined_score t
               = (w_dense * (tfidf_score t / max_tfidf)
                  + w_sparse * (bm25_score t / max_bm25))%Q)
         (ranked_indices r combined) results
    /\ ((0 <= max_results r)%Z ->
        (Z.of_nat (List.length results) <= max_results r)%Z)
    /\ ((max_results r < 0)%Z ->
        Z.of_nat (List.length results)
        = Z.max 0 (Z.of_nat (List.length combined) + max_results r)).
Proof.
  intros E w_sparse w_dense.
  destruct (search_ok _ _ E) as (combined & Hc & HF).
  destruct (combined_scores_ok _ _ Hc) as (mt & mb & Hmt & Hmb & Hadd).
  exists mt, mb, combined. repeat (split; [assumption|]).
  split; [|split].
  - eapply Forall2_impl; [|exact HF]. cbn. intros idx t Ht.
    destruct (tuple_at_ok _ _ _ _ Ht) as (Hs & Hcs & Htf & Hbm & Hd & Hp).
    rewrite Hcs. repeat (split; [assumption || reflexivity|]).
    eapply np_add_at; [exact Hadd| | |exact Hs].
    + unfold scale, divide. rewrite !nth_error_map, Htf. reflexivity.
    + unfold scale, divide. rewrite !nth_error_map, Hbm. reflexivity.
  - intro Hk. rewrite <- (Forall2_length HF). unfold ranked_indices.
    now apply slice_to_length.
  - intro Hk. rewrite <- (Forall2_length HF). unfold ranked_indices.
    now apply slice_to_negative_length.
Qed.

Lemma search_result_tuples_witness :
  exists r results,
    init Sample.corpus Sample.corpus_paths 2 = Ok r
    /\ search r "alpha gamma" = Ok results
    /\ (Z.of_nat (List.length results) <= max_results r)%Z.
Proof.
  destruct (init Sample.corpus Sample.corpus_paths 2) as [r|] eqn:Er;
    [|discriminate Er].
  assert (Hk : (0 <= max_results r)%Z).
  { vm_compute in Er. injection Er as <-. cbn. lia. }
  destruct (search r "alpha gamma") as [results|] eqn:Es.
  - exists r, results. split; [reflexivity|]. split; [exact Es|].
    destruct (@search_result_tuples stable_numpy r "alpha gamma" results Es)
      as (mt & mb & combined & _ & _ & _ & _ & Hle & _).
    exact (Hle Hk).
  - exfalso. vm_compute in Er. injection Er as <-.
    vm_compute in Es. discriminate Es.
Defined.

(** C2, with a stable argsort: of three chunks with the same combined score
    the last one of the snapshot comes first and the first one comes last. *)
Lemma search_ties_come_last_first :
  exists r t1 t2 t3,
    init Sample.corpus Sample.corpus_paths 5 = Ok r
    /\ search (H := stable_numpy) r "alpha" = Ok [t1; t2; t3]
    /\ (score t1 == score t2)%Q /\ (score t2 == score t3)%Q
    /\ nth_error (documents r) 2 = Some (document t1)
    /\ nth_error (documents r) 1 = Some (document t2)
    /\ nth_error (documents r) 0 = Some (document t3)
    /\ document t1 <> document t3.
Proof.
  do 4 eexists. split; [reflexivity|].
  split; [vm_compute; reflexivity|].
  cbn. repeat split; try reflexivity. discriminate.
Qed.

(** With a stable argsort the ranked indices go by descending combined score
    and, among equal scores, by descending snapshot position. *)
Lemma stable_ranking_reverses_ties (r : Retriever) (combined : list Q) :
  StronglySorted (fun i j => before combined j i)
                 (ranked_indices (H := stable_numpy) r combined).
Proof.
  unfold ranked_indices. apply slice_to_sorted.
  apply (sorted_rev (stable_argsort_stable combined)).
Qed.

(** C2, amended: the results of a search come in descending order of
    combined score, for every argsort that meets numpy's contract, and a
    repeated call returns the same list.  Nothing orders equal scores by
    snapshot position: their order is that of the reversed ascending
    argsort. *)
Theorem search_ranks_descending
        `{Numpy} (r : Retriever) (query : string) (results : list result_tuple) :
  search r query = Ok results ->
  StronglySorted (fun t1 t2 => (score t2 <= score t1)%Q) results
  /\ (forall again, search r query = Ok again -> again = results)
  /\ exists combined,
       combined_scores r query = Ok combined
       /\ ranked_indices r combined
          = slice_to (max_results r) (rev (argsort combined))
       /\ Forall2 (fun idx t => nth_error combined idx = Some (score t))
                  (ranked_indices r combined) results.
Proof.
  intro E. destruct (search_ok _ _ E) as (combined & Hc & HF).
  assert (HF' : Forall2 (fun idx t => nth_error combined idx = Some (score t))
                        (ranked_indices r combined) results).
  { eapply Forall2_impl; [|exact HF]. cbn. intros idx t Ht.
    exact (proj1 (tuple_at_ok _ _ _ _ Ht)). }
  split; [|split].
  - eapply sorted_transport; [|exact HF'|apply ranked_indices_descending].
    cbn. intros i t1 j t2 H1 H2 L.
    unfold score_at in L.
    now rewrite (nth_error_nth _ _ _ H1), (nth_error_nth _ _ _ H2) in L.
  - intros again E'. congruence.
  - exists combined. auto.
Qed.

Lemma search_ranks_descending_witness :
  exists r results,
    init Sample.corpus Sample.corpus_paths 2 = Ok r
    /\ search r "alpha gamma" = Ok results
    /\ StronglySorted (fun t1 t2 => (score t2 <= score t1)%Q) results.
Proof.
  destruct (init Sample.corpus Sample.corpus_paths 2) as [r|] eqn:Er;
    [|discriminate Er].
  destruct (search r "alpha gamma") as [results|] eqn:Es.
  - exists r, results. split; [reflexivity|]. split; [exact Es|].
    exact (proj1 (@search_ranks_descending stable_numpy r "alpha gamma"
                    results Es)).
  - exfalso. vm_compute in Er. injection Er as <-.
    vm_compute in Es. discriminate Es.
Defined.

(** C8, on one chunk and no source path: the index is built, and the
    mismatch shows at scoring time, as an [IndexError]. *)
Lemma init_accepts_mismatched_lists :
  exists r,
    init ["alpha beta"] [] 5 = Ok r
    /\ List.length (documents r) <> List.length (doc_paths r)
    /\ search (H := stable_numpy) r "alpha" = Raise IndexError.
Proof.
  eexists. split; [reflexivity|]. split; [discriminate|].
  vm_compute. reflexivity.
Qed.

(** C8, amended: [__init__] compares no lengths.  When it builds an index
    it stores the two lists as given, and it builds one for every other
    source-path list as well; a source-path list that is too short is found
    at scoring time, where a ranked index beyond it makes [search] raise
    [IndexError]. *)
Theorem init_checks_no_lengths
        `{Backend} (docs paths : list string) (k : Z) (r : Retriever) :
  init docs paths k = Ok r ->
  documents r = docs /\ doc_paths r = paths
  /\ (forall paths',
         exists r', init docs paths' k = Ok r'
                    /\ documents r' = docs /\ doc_paths r' = paths')
  /\ (forall (N : Numpy) (query : string) (combined : list Q) (idx : nat),
         combined_scores r query = Ok combined ->
         In idx (ranked_indices r combined) ->
         List.length paths <= idx ->
         search r query = Raise IndexError).
Proof.
  unfold init. intro E.
  destruct (tfidf_fit docs) as [tfidf|]; cbn in E; [|discriminate].
  destruct (BM25Okapi (map analyzer docs)) as [bm25|]; cbn in E; [|discriminate].
  injection E as <-. cbn [documents doc_paths].
  split; [reflexivity|]. split; [reflexivity|]. split.
  - intro paths'. eexists. split; [reflexivity|]. split; reflexivity.
  - intros N query combined idx Hc Hin Hlen.
    unfold search. rewrite Hc. cbn [bind].
    eapply traverse_raises; [|exact Hin|].
    + intros x e. apply tuple_at_raises.
    + now apply tuple_at_beyond_paths.
Qed.

Lemma init_checks_no_lengths_witness :
  exists r,
    init Sample.corpus ["a.txt"] 5 = Ok r
    /\ doc_paths r = ["a.txt"]
    /\ exists r', init Sample.corpus [] 5 = Ok r' /\ doc_paths r' = [].
Proof.
  destruct (init Sample.corpus ["a.txt"] 5) as [r|] eqn:Er;
    [|discriminate Er].
  destruct (@init_checks_no_lengths term_backend Sample.corpus ["a.txt"] 5 r Er)
    as (_ & Hp & Hany & _).
  exists r. split; [reflexivity|]. split; [exact Hp|].
  destruct (Hany []) as (r' & Er' & _ & Hp').
  exists r'. split; [exact Er'|exact Hp'].
Defined.

End RankerFacts.

(* ================================================================= *)
(** * Properties of the answer generator *)

Module LLMFacts.
Import LLM.

(** C10: with no chunk and web search off, [generate_answer] returns the
    fixed sentence and sends no prompt to the model. *)
Theorem generate_answer_without_content
        (c : client) (query : string) (chunks : list string)
        (scores : list Q) (search_web : bool) :
  chunks = [] -> search_web = false ->
  answer (generate_answer c query chunks scores search_web)
  = Ok "I couldn't find any relevant content to answer your question."
  /\ prompts (generate_answer c query chunks scores search_web) = [].
Proof.
  intros -> ->. split; reflexivity.
Qed.

Lemma generate_answer_without_content_witness :
  (@nil string) = [] /\ false = false
  /\ answer (generate_answer Sample.echo_client "what is machine learning?"
               [] [] false)
     = Ok "I couldn't find any relevant content to answer your question."
  /\ prompts (generate_answer Sample.echo_client "what is machine learning?"
                [] [] false) = [].
Proof.
  split; [reflexivity|]. split; [reflexivity|].
  exact (@generate_answer_without_content Sample.echo_client
           "what is machine learning?" [] [] false eq_refl eq_refl).
Defined.

(** On every other path that returns, exactly one prompt goes to the
    model. *)
Lemma generate_answer_asks_once
      (c : client) (query : string) (chunks : list string)
      (scores : list Q) (search_web : bool) (text : string) :
  chunks <> [] \/ search_web = true ->
  answer (generate_answer c query chunks scores search_web) = Ok text ->
  exists prompt,
    prompts (generate_answer c query chunks scores search_web) = [prompt].
Proof.
  intros Hpath. unfold generate_answer.
  assert (G : is_nil chunks && negb search_web = false).
  { destruct Hpath as [Hc| ->].
    - destruct chunks; [congruence|reflexivity].
    - apply andb_false_r. }
  rewrite G.
  destruct (build_context c chunks scores search_web); cbn; [eauto|discriminate].
Qed.

End LLMFacts.

(* ================================================================= *)
(** * Properties of the chunker *)

Module ChunkerFacts.
Import Chunker.

(** *** Paragraphs have words *)

Lemma split_from_word (s w : string) : split_from (Some w) s <> [].
Proof.
  revert w. induction s as [|c r IH]; intro w; cbn; [discriminate|].
  destruct (isspace c); [discriminate|apply IH].
Qed.

Lemma split_nonspace (s : string) : has_nonspace s = true -> split s <> [].
Proof.
  unfold split. induction s as [|c r IH]; cbn; [discriminate|].
  destruct (isspace c); cbn; [exact IH|].
  intros _. apply split_from_word.
Qed.

Lemma replace_newlines_nonspace (s : string) :
  has_nonspace (replace_newlines s) = has_nonspace s.
Proof.
  induction s as [|c r IH]; cbn; [reflexivity|].
  rewrite IH. unfold is_newline.
  destruct (Ascii.eqb_spec c newline) as [->|_]; reflexivity.
Qed.

Lemma rstrip_nonspace (s : string) :
  is_empty (rstrip s) = false -> has_nonspace (rstrip s) = true.
Proof.
  induction s as [|c r IH]; cbn; [discriminate|].
  destruct (rstrip r) as [|c' r'] eqn:E.
  - destruct (isspace c) eqn:Ec; cbn; [discriminate|].
    now rewrite Ec.
  - intros _. cbn in IH |- *. rewrite IH by reflexivity.
    apply orb_true_r.
Qed.

Lemma paragraphs_have_words (text para : string) :
  In para (paragraphs text) -> split para <> [].
Proof.
  unfold paragraphs. intro Hin.
  apply in_map_iff in Hin as (piece & <- & Hin).
  apply filter_In in Hin as [_ Hne].
  apply negb_true_iff in Hne.
  apply split_nonspace. rewrite replace_newlines_nonspace.
  now apply rstrip_nonspace.
Qed.

(** *** The loop *)

Section Loop.
Variables chunk_size overlap : Z.

Abbreviation run := (fold_left (step chunk_size overlap)).

Lemma step_cases (st : state) (para : string) :
  (split para = [] /\ step chunk_size overlap st para = st)
  \/ (split para <> []
      /\ (current_length st + Z.of_nat (List.length (split para))
          <= chunk_size)%Z
      /\ step chunk_size overlap st para =
         {| chunks := chunks st;
            current_chunk := current_chunk st ++ split para;
            current_length :=
              current_length st + Z.of_nat (List.length (split para)) |})
  \/ (split para <> []
      /\ (chunk_size
          < current_length st + Z.of_nat (List.length (split para)))%Z
      /\ step chunk_size overlap st para =
         {| chunks := chunks st ++ [join " " (current_chunk st)];
            current_chunk :=
              overlap_words overlap (current_chunk st) ++ split para;
            current_length :=
              Z.of_nat (List.length
                (overlap_words overlap (current_chunk st) ++ split para)) |}).
Proof.
  unfold step. destruct (split para) as [|w ws] eqn:E; [now left|right].
  destruct (current_length st + Z.of_nat (List.length (w :: ws))
            <=? chunk_size)%Z eqn:L.
  - left. apply Z.leb_le in L. repeat split; [discriminate|exact L].
  - right. apply Z.leb_gt in L. repeat split; [discriminate|exact L].
Qed.

(** The three outcomes of one step, with the state rewritten in each. *)
Ltac step_outcomes st para :=
  destruct (step_cases st para) as [[_ ->]|[(_ & _ & ->)|(_ & _ & ->)]].

Lemma run_length_nonneg (paras : list string) (st : state) :
  (0 <= current_length st)%Z -> (0 <= current_length (run paras st))%Z.
Proof.
  revert st. induction paras as [|para paras IH]; intros st H0; cbn; [exact H0|].
  apply IH.
  step_outcomes st para; cbn; lia.
Qed.

Lemma run_keeps_chunks (paras : list string) (st : state) (c : string) :
  In c (chunks st) -> In c (chunks (run paras st)).
Proof.
  revert st. induction paras as [|para paras IH]; intros st Hin; cbn; [exact Hin|].
  apply IH.
  step_outcomes st para; cbn; auto.
  apply in_or_app. now left.
Qed.

Lemma flush_keeps_chunks (st : state) (c : string) :
  In c (chunks st) -> In c (flush st).
Proof.
  unfold flush. destruct (current_chunk st); [auto|].
  intro Hin. apply in_or_app. now left.
Qed.

Lemma flush_buffer (st : state) :
  current_chunk st <> [] ->
  flush st = chunks st ++ [join " " (current_chunk st)].
Proof. unfold flush. destruct (current_chunk st); congruence. Qed.

(** A buffer that holds words reaches the output, with what later
    paragraphs add to it. *)
Lemma buffer_emitted (paras : list string) (st : state) :
  current_chunk st <> [] ->
  exists t, In (join " " (current_chunk st ++ t)) (flush (run paras st)).
Proof.
  revert st. induction paras as [|para paras IH]; intros st Hne; cbn.
  - exists []. rewrite app_nil_r, (flush_buffer _ Hne).
    apply in_or_app. right. now left.
  - destruct (step_cases st para) as [[_ E]|[(Hw & _ & E)|(Hw & _ & E)]];
      rewrite E.
    + now apply IH.
    + destruct (IH {| chunks := chunks st;
                      current_chunk := current_chunk st ++ split para;
                      current_length :=
                        current_length st
                        + Z.of_nat (List.length (split para)) |})
        as [t Ht].
      { cbn. intro N. apply app_eq_nil in N. tauto. }
      cbn in Ht. exists (split para ++ t). now rewrite app_assoc.
    + exists []. rewrite app_nil_r.
      apply flush_keeps_chunks, run_keeps_chunks. cbn.
      apply in_or_app. right. now left.
Qed.

(** A buffer longer than [chunk_size] is closed as it is. *)
Lemma full_buffer_closed (paras : list string) (st : state) :
  current_chunk st <> [] ->
  (chunk_size < current_length st)%Z ->
  In (join " " (current_chunk st)) (flush (run paras st)).
Proof.
  revert st. induction paras as [|para paras IH]; intros st Hne Hfull; cbn.
  - rewrite (flush_buffer _ Hne). apply in_or_app. right. now left.
  - destruct (step_cases st para) as [[_ E]|[(Hw & L & E)|(Hw & _ & E)]];
      rewrite E.
    + now apply IH.
    + lia.
    + apply flush_keeps_chunks, run_keeps_chunks. cbn.
      apply in_or_app. right. now left.
Qed.

Lemma overlap_words_length (current : list string) :
  (Z.of_nat (List.length (overlap_words overlap current)) <= Z.max 0 overlap)%Z.
Proof.
  unfold overlap_words, last_items.
  destruct (0 <? overlap)%Z eqn:E; cbn; [|lia].
  apply Z.ltb_lt in E. rewrite length_skipn. lia.
Qed.

Lemma overlap_words_suffix (current : list string) :
  exists front, current = front ++ overlap_words overlap current.
Proof.
  unfold overlap_words, last_items.
  destruct (0 <? overlap)%Z.
  - eexists. symmetry. apply firstn_skipn.
  - exists current. now rewrite app_nil_r.
Qed.

Lemma run_init_nonneg (paras : list string) :
  (0 <= current_length (run paras initial))%Z.
Proof. apply run_length_nonneg. cbn. lia. Qed.

(** After a paragraph with words the buffer ends with them. *)
Lemma step_buffer (st : state) (para : string) :
  split para <> [] ->
  exists s, current_chunk (step chunk_size overlap st para) = s ++ split para.
Proof.
  intro Hw.
  destruct (step_cases st para) as [[E _]|[(_ & _ & ->)|(_ & _ & ->)]];
    [contradiction| |]; cbn; eauto.
Qed.

(** A paragraph is never cut: its words lie side by side in one chunk. *)
Lemma paragraph_kept_whole (pre post : list string) (para : string) :
  split para <> [] ->
  exists s t,
    In (join " " (s ++ split para ++ t))
       (chunk_paragraphs (pre ++ para :: post) chunk_size overlap).
Proof.
  intro Hw. unfold chunk_paragraphs.
  rewrite fold_left_app. cbn [fold_left].
  destruct (step_buffer (run pre initial) para Hw) as [s Hs].
  destruct (buffer_emitted post (step chunk_size overlap (run pre initial) para))
    as [t Ht].
  { rewrite Hs. intro N. apply app_eq_nil in N. tauto. }
  exists s, t. rewrite Hs, <- app_assoc in Ht. exact Ht.
Qed.

(** A paragraph longer than [chunk_size] closes its chunk: the chunk is the
    overlap seed, at most [overlap] words, followed by the paragraph. *)
Lemma oversized_paragraph_closes_chunk (pre post : list string) (para : string) :
  split para <> [] ->
  (chunk_size < Z.of_nat (List.length (split para)))%Z ->
  exists seed,
    (Z.of_nat (List.length seed) <= Z.max 0 overlap)%Z
    /\ In (join " " (seed ++ split para))
          (chunk_paragraphs (pre ++ para :: post) chunk_size overlap).
Proof.
  intros Hwords Hbig. unfold chunk_paragraphs.
  rewrite fold_left_app. cbn [fold_left].
  pose proof (run_init_nonneg pre) as H0.
  destruct (step_cases (run pre initial) para)
    as [[E _]|[(_ & L & _)|(Hw & _ & E)]].
  - contradiction.
  - lia.
  - exists (overlap_words overlap (current_chunk (run pre initial))).
    split; [apply overlap_words_length|].
    rewrite E.
    match goal with
    | |- In _ (flush (fold_left _ post ?st)) =>
        pose proof (full_buffer_closed post st) as Hc
    end.
    cbn [current_chunk current_length] in Hc. apply Hc.
    + intro N. apply app_eq_nil in N. tauto.
    + rewrite length_app, Nat2Z.inj_add. lia.
Qed.

(** The last buffer is flushed as the trailing chunk, whatever its
    length. *)
Lemma trailing_chunk_flushed (pre : list string) (para : string) :
  split para <> [] ->
  exists front s,
    chunk_paragraphs (pre ++ [para]) chunk_size overlap
    = front ++ [join " " (s ++ split para)].
Proof.
  intro Hw. unfold chunk_paragraphs.
  rewrite fold_left_app. cbn [fold_left].
  destruct (step_buffer (run pre initial) para Hw) as [s Hs].
  rewrite flush_buffer, Hs; [eauto|].
  rewrite Hs. intro N. apply app_eq_nil in N. tauto.
Qed.

(** When the first paragraph is longer than [chunk_size], the first chunk
    of the output is the join of an empty buffer. *)
Lemma oversized_first_paragraph (post : list string) (para : string) :
  split para <> [] ->
  (chunk_size < Z.of_nat (List.length (split para)))%Z ->
  exists rest,
    chunk_paragraphs (para :: post) chunk_size overlap = EmptyString :: rest.
Proof.
  intros Hwords Hbig. unfold chunk_paragraphs. cbn [fold_left].
  destruct (step_cases initial para) as [[E _]|[(_ & L & _)|(Hw & _ & E)]].
  - contradiction.
  - cbn in L. lia.
  - rewrite E. cbn [chunks current_chunk initial app].
    match goal with
    | |- exists rest, flush (fold_left _ post ?st) = _ =>
        assert (G : forall l st', hd_error (chunks st') = Some EmptyString ->
                  hd_error (flush (fold_left (step chunk_size overlap) l st'))
                  = Some EmptyString);
        [|specialize (G post st eq_refl)]
    end.
    { induction l as [|q l IH]; intros st' Hh; cbn.
      - unfold flush. destruct (current_chunk st'); [exact Hh|].
        destruct (chunks st'); [discriminate|exact Hh].
      - apply IH.
        step_outcomes st' q; cbn; auto.
        destruct (chunks st'); [discriminate|exact Hh]. }
    destruct (flush _) as [|c rest]; [discriminate|].
    injection G as ->. eauto.
Qed.

End Loop.

(** What [chunk_text] does by design with a paragraph of a text: it keeps
    it whole in one chunk; when it is longer than [chunk_size] that chunk
    is the overlap seed followed by the paragraph; when it is the last one
    its buffer is the trailing chunk; and when it is the first one and
    longer than [chunk_size] the output starts with an empty chunk. *)
Lemma chunk_text_paragraph
      (text : string) (chunk_size overlap : Z)
      (pre post : list string) (para : string) :
  paragraphs text = pre ++ para :: post ->
  (exists s t,
      In (join " " (s ++ split para ++ t)) (chunk_text text chunk_size overlap))
  /\ ((chunk_size < Z.of_nat (List.length (split para)))%Z ->
      exists seed,
        (Z.of_nat (List.length seed) <= Z.max 0 overlap)%Z
        /\ In (join " " (seed ++ split para))
              (chunk_text text chunk_size overlap))
  /\ (post = [] ->
      exists front s,
        chunk_text text chunk_size overlap
        = front ++ [join " " (s ++ split para)])
  /\ (pre = [] ->
      (chunk_size < Z.of_nat (List.length (split para)))%Z ->
      exists rest, chunk_text text chunk_size overlap = EmptyString :: rest).
Proof.
  intro E.
  assert (Hw : split para <> []).
  { apply (paragraphs_have_words text). rewrite E.
    apply in_or_app. right. now left. }
  unfold chunk_text. rewrite E.
  split; [now apply paragraph_kept_whole|].
  split; [now apply oversized_paragraph_closes_chunk|].
  split.
  - intros ->. now apply trailing_chunk_flushed.
  - intros ->. now apply oversized_first_paragraph.
Qed.

(** C5, on the code: a text of one paragraph of three words, chunked with
    [chunk_size = 2] and [overlap = 1], gives two chunks, an empty one and
    the paragraph.  The chunk closed inside the loop (line 253) is appended
    without the test for an empty buffer that the last flush has (line
    258). *)
Theorem chunk_text_oversized_paragraph_alone :
  chunk_text "one two three" 2 1 = [EmptyString; "one two three"].
Proof. vm_compute. reflexivity. Qed.

End ChunkerFacts.

(* ================================================================= *)
(** * More on the chunker: words, bounds, reconstruction *)

Module ChunkerWords.
Import Chunker Text ChunkerFacts Notions Samples.

(** *** [split] and [join] *)

Lemma append_assoc (a b c : string) : ((a ++ b) ++ c = a ++ (b ++ c))%string.
Proof. induction a as [|x a IH]; cbn; [reflexivity|now rewrite IH]. Qed.

Lemma append_empty_r (a : string) : (a ++ EmptyString)%string = a.
Proof. induction a as [|x a IH]; cbn; [reflexivity|now rewrite IH]. Qed.

Lemma has_space_app (a b : string) :
  has_space (a ++ b)%string = has_space a || has_space b.
Proof.
  induction a as [|x a IH]; cbn; [reflexivity|].
  now rewrite IH, orb_assoc.
Qed.

Lemma is_word_iff (w : string) :
  is_word w = true <-> w <> EmptyString /\ has_space w = false.
Proof.
  unfold is_word. rewrite andb_true_iff, !negb_true_iff.
  destruct w; cbn; split; intros [A B]; split; congruence.
Qed.

Lemma split_from_words (s : string) (acc : option string) :
  match acc with Some w => is_word w = true | None => True end ->
  Forall (fun w => is_word w = true) (split_from acc s).
Proof.
  revert acc. induction s as [|c r IH]; intros acc Hacc; cbn.
  - destruct acc; repeat constructor; auto.
  - destruct (isspace c) eqn:Ec.
    + destruct acc; [constructor; auto|]; apply IH; exact I.
    + apply IH. apply is_word_iff. split.
      * destruct acc as [w|]; [destruct w|]; discriminate.
      * rewrite has_space_app. cbn. rewrite Ec. cbn.
        destruct acc as [w|]; [|reflexivity].
        apply is_word_iff in Hacc. now rewrite (proj2 Hacc).
Qed.

(** [split] returns words. *)
Lemma split_words (s : string) : Forall (fun w => is_word w = true) (split s).
Proof. apply split_from_words. exact I. Qed.

Lemma split_from_run (w rest a : string) :
  has_space w = false ->
  split_from (Some a) (w ++ rest)%string = split_from (Some (a ++ w)%string) rest.
Proof.
  revert a. induction w as [|c w IH]; intros a Hw; cbn.
  - now rewrite append_empty_r.
  - cbn in Hw. apply orb_false_iff in Hw as [Hc Hw].
    rewrite Hc, (IH _ Hw), append_assoc. reflexivity.
Qed.

Lemma split_from_word_first (w rest : string) :
  is_word w = true ->
  split_from None (w ++ rest)%string = split_from (Some w) rest.
Proof.
  intro Hw. apply is_word_iff in Hw as [Hne Hsp].
  destruct w as [|c w]; [congruence|].
  cbn in Hsp |- *. apply orb_false_iff in Hsp as [Hc Hsp].
  rewrite Hc. now rewrite (split_from_run _ _ _ Hsp).
Qed.

(** Splitting what [join] made of words gives the words back. *)
Lemma split_join (ws : list string) :
  Forall (fun w => is_word w = true) ws -> split (join " " ws) = ws.
Proof.
  unfold split, join.
  induction 1 as [|w ws Hw Hws IH]; [reflexivity|].
  cbn [String.concat]. destruct ws as [|w' ws].
  - transitivity (split_from None (w ++ EmptyString)%string);
      [now rewrite append_empty_r|].
    now rewrite (split_from_word_first _ _ Hw).
  - rewrite (split_from_word_first _ _ Hw).
    change (split_from (Some w) (" " ++ String.concat " " (w' :: ws))%string)
      with (w :: split_from None (String.concat " " (w' :: ws))).
    now rewrite IH.
Qed.

Lemma join_nonempty (ws : list string) :
  ws <> [] -> Forall (fun w => is_word w = true) ws ->
  join " " ws <> EmptyString.
Proof.
  intros Hne HF Hj.
  pose proof (split_join HF) as E. rewrite Hj in E. cbn in E. congruence.
Qed.

(** *** Texts without words *)

Lemma lstrip_blank (s : string) :
  has_nonspace s = false -> lstrip s = EmptyString.
Proof.
  induction s as [|c r IH]; cbn; [reflexivity|].
  intro H. apply orb_false_iff in H as [Hc Hr].
  apply negb_false_iff in Hc. rewrite Hc. auto.
Qed.

Lemma blank_text_no_chunk (text : string) (chunk_size overlap : Z) :
  has_nonspace text = false -> chunk_text text chunk_size overlap = [].
Proof.
  intro H. unfold chunk_text, paragraphs, strip.
  rewrite (lstrip_blank _ H). reflexivity.
Qed.

(** X1: a text without any non-whitespace character, the empty text
    included, gives no chunk at all. *)
Theorem chunk_text_blank (text : string) (chunk_size overlap : Z) :
  has_nonspace text = false -> chunk_text text chunk_size overlap = [].
Proof. apply blank_text_no_chunk. Qed.

Lemma chunk_text_blank_witness :
  has_nonspace (" " ++ nl ++ nl ++ "  ")%string = false
  /\ chunk_text (" " ++ nl ++ nl ++ "  ")%string 500 50 = [].
Proof.
  split; [reflexivity|].
  exact (@chunk_text_blank (" " ++ nl ++ nl ++ "  ")%string 500 50 eq_refl).
Defined.

(** *** What the loop keeps true *)

Lemma overlap_words_all_words (overlap : Z) (current : list string) :
  all_words current -> all_words (overlap_words overlap current).
Proof.
  intro H. destruct (overlap_words_suffix overlap current) as [front E].
  rewrite E in H. unfold all_words in *. apply Forall_app in H. tauto.
Qed.

Section Invariants.
Variables chunk_size overlap : Z.

Abbreviation run := (fold_left (step chunk_size overlap)).

Lemma initial_tidy : tidy initial.
Proof. split; [constructor|reflexivity]. Qed.

Lemma step_tidy (st : state) (para : string) :
  tidy st -> tidy (step chunk_size overlap st para).
Proof.
  intros [Hw Hl].
  destruct (step_cases chunk_size overlap st para)
    as [[_ ->]|[(_ & _ & ->)|(_ & _ & ->)]]; [now split| |]; split; cbn.
  - apply Forall_app. split; [exact Hw|apply split_words].
  - rewrite length_app, Nat2Z.inj_add. lia.
  - apply Forall_app. split; [|apply split_words].
    now apply overlap_words_all_words.
  - reflexivity.
Qed.

(** An invariant of the state that every step keeps holds at the end of
    the loop. *)
Lemma run_invariant (P : state -> Prop) (paras : list string) (st : state) :
  (forall st' para, In para paras -> P st' ->
                    P (step chunk_size overlap st' para)) ->
  P st -> P (run paras st).
Proof.
  revert st. induction paras as [|para paras IH]; intros st Hstep H0; cbn.
  - exact H0.
  - apply IH.
    + intros st' q Hq. apply Hstep. now right.
    + apply Hstep; [now left|exact H0].
Qed.

Lemma run_tidy (paras : list string) (st : state) :
  tidy st -> tidy (run paras st).
Proof.
  apply run_invariant. intros st' para _. apply step_tidy.
Qed.

Lemma flush_forall (P : string -> Prop) (st : state) :
  Forall P (chunks st) ->
  (current_chunk st <> [] -> P (join " " (current_chunk st))) ->
  Forall P (flush st).
Proof.
  intros Hc Hb. unfold flush.
  destruct (current_chunk st) as [|w ws] eqn:E; [exact Hc|].
  apply Forall_app. split; [exact Hc|].
  constructor; [|constructor]. apply Hb. discriminate.
Qed.

(** A property of word lists that holds of every closed buffer holds of
    every chunk. *)
Lemma chunks_from_buffers (P : string -> Prop) (paras : list string) :
  (forall ws, all_words ws -> P (join " " ws)) ->
  Forall P (chunk_paragraphs paras chunk_size overlap).
Proof.
  intro HP. unfold chunk_paragraphs.
  assert (G : tidy (run paras initial) /\ Forall P (chunks (run paras initial))).
  { apply (run_invariant (fun st => tidy st /\ Forall P (chunks st))).
    - intros st para _ [Ht Hc]. split; [now apply step_tidy|].
      destruct (step_cases chunk_size overlap st para)
        as [[_ ->]|[(_ & _ & ->)|(_ & _ & ->)]]; cbn; auto.
      apply Forall_app. split; [exact Hc|].
      constructor; [|constructor]. apply HP, Ht.
    - split; [apply initial_tidy|constructor]. }
  destruct G as [[Hw _] Hc].
  apply flush_forall; auto.
Qed.

End Invariants.

Lemma no_newline_word (w : string) :
  has_space w = false -> contains_char newline w = false.
Proof.
  induction w as [|c w IH]; cbn [contains_char has_space]; [reflexivity|].
  intro H. apply orb_false_iff in H as [Hc Hw].
  rewrite (IH Hw), orb_false_r.
  destruct (Ascii.eqb_spec c newline) as [->|]; [discriminate Hc|reflexivity].
Qed.

Lemma contains_char_app (c : ascii) (a b : string) :
  contains_char c (a ++ b)%string = contains_char c a || contains_char c b.
Proof.
  induction a as [|x a IH]; cbn; [reflexivity|].
  now rewrite IH, orb_assoc.
Qed.

Lemma no_newline_join (ws : list string) :
  all_words ws -> contains_char newline (join " " ws) = false.
Proof.
  unfold join. induction 1 as [|w ws Hw Hws IH]; [reflexivity|].
  apply is_word_iff in Hw as [_ Hsp].
  cbn [String.concat]. destruct ws as [|w' ws].
  - now apply no_newline_word.
  - rewrite !contains_char_app, IH, (no_newline_word _ Hsp). reflexivity.
Qed.

(** X2: every chunk is in normal form: it is its own words joined by
    single spaces, so it has no newline, no run of spaces and no space at
    either end. *)
Theorem chunk_text_normal_form
        (text : string) (chunk_size overlap : Z) (chunk : string) :
  In chunk (chunk_text text chunk_size overlap) ->
  join " " (split chunk) = chunk
  /\ contains_char newline chunk = false.
Proof.
  revert chunk. apply Forall_forall.
  apply chunks_from_buffers. intros ws Hws.
  split; [now rewrite (split_join Hws)|now apply no_newline_join].
Qed.

Lemma chunk_text_normal_form_witness :
  In "x a b" (chunk_text ("x" ++ nl ++ "a   b" ++ nl ++ " c")%string 3 1)
  /\ join " " (split "x a b") = "x a b".
Proof.
  assert (H : In "x a b"
                 (chunk_text ("x" ++ nl ++ "a   b" ++ nl ++ " c")%string 3 1))
    by (vm_compute; left; reflexivity).
  split; [exact H|].
  exact (proj1 (@chunk_text_normal_form _ 3 1 "x a b" H)).
Defined.

(** *** The paragraphs keep the words of the text *)

Lemma split_from_lstrip (s : string) :
  split_from None (lstrip s) = split_from None s.
Proof.
  induction s as [|c r IH]; cbn; [reflexivity|].
  destruct (isspace c) eqn:E; [exact IH|]. cbn. now rewrite E.
Qed.

Lemma split_from_rstrip (s : string) (acc : option string) :
  split_from acc (rstrip s) = split_from acc s.
Proof.
  revert acc. induction s as [|c r IH]; intro acc; [reflexivity|].
  cbn [rstrip]. destruct (rstrip r) as [|c' r'] eqn:E.
  - destruct (isspace c) eqn:Ec; cbn; rewrite Ec.
    + rewrite <- !IH. reflexivity.
    + rewrite <- IH. reflexivity.
  - cbn. destruct (isspace c); [destruct acc|]; now rewrite <- IH.
Qed.

Lemma split_strip (s : string) : split (strip s) = split s.
Proof.
  unfold split, strip. now rewrite split_from_rstrip, split_from_lstrip.
Qed.

Lemma newline_is_space (c : ascii) : is_newline c = true -> isspace c = true.
Proof.
  unfold is_newline. intro E. apply Ascii.eqb_eq in E. now subst c.
Qed.

Lemma split_from_replace_newlines (s : string) (acc : option string) :
  split_from acc (replace_newlines s) = split_from acc s.
Proof.
  revert acc. induction s as [|c r IH]; intro acc; [reflexivity|].
  cbn [replace_newlines split_from].
  destruct (is_newline c) eqn:En.
  - rewrite (newline_is_space _ En). change (isspace space) with true.
    destruct acc; now rewrite IH.
  - destruct (isspace c); [destruct acc|]; now rewrite IH.
Qed.

Lemma ends_blank_snoc (a : string) (c : ascii) :
  ends_blank (a ++ String c EmptyString)%string = isspace c.
Proof.
  induction a as [|x a IH]; [reflexivity|].
  cbn [append ends_blank]. rewrite IH.
  destruct a; reflexivity.
Qed.

Lemma split_from_app_space (a r : string) (c : ascii) (acc : option string) :
  isspace c = true ->
  split_from acc (a ++ String c r)%string
  = split_from acc a ++ split_from None r.
Proof.
  intro Ec. revert acc. induction a as [|x a IH]; intro acc; cbn.
  - rewrite Ec. destruct acc; reflexivity.
  - destruct (isspace x); [destruct acc|]; now rewrite IH.
Qed.

Lemma split_from_app_blank (a b : string) (acc : option string) :
  ends_blank a = true -> (a = EmptyString -> acc = None) ->
  split_from acc (a ++ b)%string = split_from acc a ++ split_from None b.
Proof.
  revert acc. induction a as [|x a IH]; intros acc Ha Hacc.
  - now rewrite (Hacc eq_refl).
  - destruct a as [|y a].
    + cbn in Ha. cbn. rewrite Ha. destruct acc; reflexivity.
    + change (ends_blank (String y a) = true) in Ha.
      remember (String y a) as t eqn:Et.
      assert (Ht : forall acc' : option string, t = EmptyString -> acc' = None)
        by (intros acc' N; subst t; discriminate N).
      cbn [append split_from].
      destruct (isspace x); [destruct acc|]; now rewrite (IH _ Ha (Ht _)).
Qed.

Lemma newline_run_space_run (s : string) : newline_run s <= space_run s.
Proof.
  induction s as [|c r IH]; cbn; [lia|].
  destruct (is_newline c) eqn:E; [|lia].
  rewrite (newline_is_space _ E). lia.
Qed.

(** Where the pattern cuts, whitespace or nothing stands before or at the
    cut: the pieces have the words of the text. *)
Lemma re_split_from_words (s piece : string) (prev_nl : bool) (skip : nat) :
  skip <= space_run s ->
  (0 < skip -> piece = EmptyString) ->
  (prev_nl = true -> ends_blank piece = true) ->
  flat_map split (re_split_from prev_nl skip piece s)
  = split (piece ++ s)%string.
Proof.
  revert piece prev_nl skip.
  induction s as [|c r IH]; intros piece prev_nl skip Hskip Hpiece Hprev.
  - cbn. now rewrite app_nil_r, append_empty_r.
  - cbn [re_split_from]. destruct skip as [|k].
    + destruct (is_newline c && (0 <? newline_run r)%nat) eqn:A.
      * apply andb_true_iff in A as [Ac _].
        cbn [flat_map]. rewrite IH.
        -- unfold split. cbn [append].
           rewrite split_from_app_space by (now apply newline_is_space).
           reflexivity.
        -- apply newline_run_space_run.
        -- reflexivity.
        -- reflexivity.
      * destruct (prev_nl && has_nonspace (String c r)) eqn:B.
        -- apply andb_true_iff in B as [Bp _].
           cbn [space_run]. destruct (isspace c) eqn:Ec.
           ++ cbn [flat_map]. rewrite IH.
              ** unfold split. cbn [append].
                 rewrite split_from_app_space by exact Ec.
                 reflexivity.
              ** cbn [space_run] in Hskip. lia.
              ** reflexivity.
              ** reflexivity.
           ++ cbn [flat_map]. rewrite IH.
              ** unfold split. cbn [append].
                 rewrite split_from_app_blank; auto.
              ** lia.
              ** lia.
              ** intro En. apply newline_is_space in En. congruence.
        -- rewrite IH.
           ++ now rewrite append_assoc.
           ++ lia.
           ++ lia.
           ++ intro En. rewrite ends_blank_snoc. now apply newline_is_space.
    + cbn [space_run] in Hskip.
      destruct (isspace c) eqn:Ec; [|lia].
      rewrite (Hpiece (Nat.lt_0_succ k)).
      rewrite IH; [|lia|reflexivity|reflexivity].
      unfold split. cbn. now rewrite Ec.
Qed.

Lemma paragraphs_words (text : string) :
  flat_map split (paragraphs text) = split text.
Proof.
  unfold paragraphs.
  transitivity (flat_map split (re_split (strip text))).
  - induction (re_split (strip text)) as [|piece pieces IH]; [reflexivity|].
    cbn [filter flat_map].
    destruct (is_empty (strip piece)) eqn:E; cbn [negb map flat_map].
    + rewrite IH, <- (split_strip piece).
      destruct (strip piece); [reflexivity|discriminate].
    + rewrite IH. f_equal. unfold split.
      rewrite split_from_replace_newlines. apply split_strip.
  - unfold re_split. rewrite re_split_from_words; [apply split_strip| |lia|auto].
    lia.
Qed.

(** X3: cutting a text into paragraphs loses no word, adds none and keeps
    their order. *)
Theorem paragraphs_keep_words (text : string) :
  flat_map split (paragraphs text) = split text.
Proof. apply paragraphs_words. Qed.

(** *** Sizes *)

(** X4: when no paragraph has more than [chunk_size] words, no chunk has
    more than [chunk_size] words plus the overlap. *)
Theorem chunk_text_word_bound
        (text : string) (chunk_size overlap : Z) (chunk : string) :
  Forall (fun para => (word_count para <= chunk_size)%Z) (paragraphs text) ->
  In chunk (chunk_text text chunk_size overlap) ->
  (word_count chunk <= chunk_size + Z.max 0 overlap)%Z.
Proof.
  intro Hparas. revert chunk. apply Forall_forall.
  unfold chunk_text, chunk_paragraphs.
  destruct (paragraphs text) as [|q qs] eqn:Eq; [constructor|].
  assert (H0 : (0 <= chunk_size)%Z).
  { inversion Hparas; subst. unfold word_count in *. lia. }
  rewrite <- Eq in *. clear Eq q qs.
  set (bound := (chunk_size + Z.max 0 overlap)%Z).
  set (P := fun st => tidy st /\ (current_length st <= bound)%Z
                      /\ Forall (fun c => (word_count c <= bound)%Z) (chunks st)).
  assert (G : P (fold_left (step chunk_size overlap) (paragraphs text) initial)).
  { apply (@run_invariant chunk_size overlap P).
    - intros st para Hin (Ht & Hl & Hc).
      rewrite Forall_forall in Hparas. specialize (Hparas _ Hin).
      unfold word_count in Hparas.
      split; [now apply step_tidy|].
      destruct (step_cases chunk_size overlap st para)
        as [[_ ->]|[(_ & L & ->)|(_ & _ & ->)]]; cbn [current_length chunks].
      + auto.
      + split; [subst bound; lia|exact Hc].
      + split.
        * rewrite length_app, Nat2Z.inj_add.
          pose proof (overlap_words_length overlap (current_chunk st)).
          subst bound. lia.
        * apply Forall_app. split; [exact Hc|].
          constructor; [|constructor].
          unfold word_count. destruct Ht as [Hw Hlen].
          rewrite (split_join Hw). lia.
    - split; [apply initial_tidy|]. split; [|constructor].
      cbn. subst bound. lia. }
  destruct G as ([Hw Hlen] & Hl & Hc).
  apply flush_forall; [exact Hc|].
  intros _. unfold word_count. rewrite (split_join Hw). lia.
Qed.

Lemma chunk_text_word_bound_witness :
  Forall (fun para => (word_count para <= 3)%Z)
         (paragraphs ("x" ++ nl ++ "a b c" ++ nl ++ "d")%string)
  /\ In "c d" (chunk_text ("x" ++ nl ++ "a b c" ++ nl ++ "d")%string 3 1)
  /\ (word_count "c d" <= 3 + Z.max 0 1)%Z.
Proof.
  assert (A : Forall (fun para => (word_count para <= 3)%Z)
                     (paragraphs ("x" ++ nl ++ "a b c" ++ nl ++ "d")%string))
    by (vm_compute; repeat constructor; discriminate).
  assert (B : In "c d"
                 (chunk_text ("x" ++ nl ++ "a b c" ++ nl ++ "d")%string 3 1))
    by (vm_compute; right; right; left; reflexivity).
  exact (conj A (conj B (@chunk_text_word_bound _ 3 1 "c d" A B))).
Defined.

(** When all the words fit, the loop closes nothing. *)
Lemma run_all_fit (chunk_size overlap : Z) (paras : list string) (st : state) :
  (current_length st + Z.of_nat (List.length (flat_map split paras))
   <= chunk_size)%Z ->
  chunks (fold_left (step chunk_size overlap) paras st) = chunks st
  /\ current_chunk (fold_left (step chunk_size overlap) paras st)
     = current_chunk st ++ flat_map split paras.
Proof.
  revert st. induction paras as [|para paras IH]; intros st Hfit; cbn.
  - now rewrite app_nil_r.
  - cbn in Hfit. rewrite length_app, Nat2Z.inj_add in Hfit.
    destruct (step_cases chunk_size overlap st para)
      as [[E ->]|[(_ & L & ->)|(_ & L & _)]].
    + rewrite E in *. cbn in *. apply IH. lia.
    + destruct (IH {| chunks := chunks st;
                      current_chunk := current_chunk st ++ split para;
                      current_length :=
                        current_length st
                        + Z.of_nat (List.length (split para)) |})
        as [Hc Hb]; [cbn; lia|].
      cbn in Hc, Hb. now rewrite Hc, Hb, app_assoc.
    + lia.
Qed.

(** X5: a text with at least one word and no more than [chunk_size] words
    in all gives exactly one chunk: all its words, joined by single
    spaces. *)
Theorem chunk_text_single_chunk
        (text : string) (chunk_size overlap : Z) :
  split text <> [] ->
  (word_count text <= chunk_size)%Z ->
  chunk_text text chunk_size overlap = [join " " (split text)].
Proof.
  intros Hne Hfit. unfold word_count in Hfit.
  rewrite <- paragraphs_words in Hne, Hfit |- *.
  unfold chunk_text, chunk_paragraphs.
  destruct (@run_all_fit chunk_size overlap (paragraphs text) initial) as [Hc Hb];
    [cbn; lia|].
  cbn in Hc, Hb.
  rewrite flush_buffer; rewrite Hb; [now rewrite Hc|exact Hne].
Qed.

Lemma chunk_text_single_chunk_witness :
  split ("  one " ++ nl ++ nl ++ " two" ++ nl ++ "three ")%string <> []
  /\ (word_count ("  one " ++ nl ++ nl ++ " two" ++ nl ++ "three ")%string
      <= 500)%Z
  /\ chunk_text ("  one " ++ nl ++ nl ++ " two" ++ nl ++ "three ")%string 500 50
     = ["one two three"].
Proof.
  assert (A : split ("  one " ++ nl ++ nl ++ " two" ++ nl ++ "three ")%string
              <> []) by (vm_compute; discriminate).
  assert (B : (word_count
                 ("  one " ++ nl ++ nl ++ " two" ++ nl ++ "three ")%string
               <= 500)%Z) by (vm_compute; discriminate).
  exact (conj A (conj B (@chunk_text_single_chunk _ 500 50 A B))).
Defined.

(** *** Reconstruction *)

Lemma seeded_snoc (overlap : Z) (parts : list part) (prev : list string) (p : part) :
  seeded overlap prev (parts ++ [p])
  <-> seeded overlap prev parts
      /\ fst p = overlap_words overlap (last_words prev parts).
Proof.
  revert prev. induction parts as [|q parts IH]; intro prev; cbn.
  - tauto.
  - rewrite IH. tauto.
Qed.

Lemma last_words_snoc (parts : list part) (prev : list string) (p : part) :
  last_words prev (parts ++ [p]) = fst p ++ snd p.
Proof.
  revert prev. induction parts as [|q parts IH]; intro prev; cbn; auto.
Qed.

Lemma concat_bodies_snoc (parts : list part) (p : part) :
  List.concat (map snd (parts ++ [p])) = List.concat (map snd parts) ++ snd p.
Proof. now rewrite map_app, concat_app; cbn; rewrite app_nil_r. Qed.

Section Reconstruction.
Variables chunk_size overlap : Z.

(** The state holds the closed parts and the part being built. *)
Lemma run_parts (paras : list string) (st : state) (closed : list part)
      (seed body : list string) :
  chunks st = map chunk_of closed ->
  current_chunk st = seed ++ body ->
  seeded overlap [] (closed ++ [(seed, body)]) ->
  exists parts,
    flush (fold_left (step chunk_size overlap) paras st) = map chunk_of parts
    /\ seeded overlap [] parts
    /\ List.concat (map snd parts)
       = List.concat (map snd closed) ++ body ++ flat_map split paras.
Proof.
  revert st closed seed body.
  induction paras as [|para paras IH]; intros st closed seed body Hc Hb Hs.
  - cbn [fold_left flat_map]. unfold flush. rewrite Hb, Hc.
    destruct (seed ++ body) as [|w ws] eqn:E.
    + apply app_eq_nil in E as [-> ->].
      exists closed. apply seeded_snoc in Hs. cbn. rewrite app_nil_r. tauto.
    + exists (closed ++ [(seed, body)]).
      rewrite map_app, concat_bodies_snoc. cbn [map snd].
      change (chunk_of (seed, body)) with (join " " (seed ++ body)).
      rewrite E, app_nil_r. auto.
  - cbn [fold_left flat_map].
    destruct (step_cases chunk_size overlap st para)
      as [[E ->]|[(_ & _ & ->)|(_ & _ & ->)]].
    + rewrite E. cbn [app]. now apply (IH st closed seed body).
    + destruct (IH {| chunks := chunks st;
                      current_chunk := current_chunk st ++ split para;
                      current_length :=
                        current_length st
                        + Z.of_nat (List.length (split para)) |}
                  closed seed (body ++ split para) Hc)
        as (parts & A & B & C).
      * cbn. now rewrite Hb, <- app_assoc.
      * apply seeded_snoc in Hs. apply seeded_snoc. exact Hs.
      * exists parts. rewrite C, <- !app_assoc. auto.
    + destruct (IH {| chunks := chunks st ++ [join " " (current_chunk st)];
                      current_chunk :=
                        overlap_words overlap (current_chunk st) ++ split para;
                      current_length :=
                        Z.of_nat
                          (List.length
                             (overlap_words overlap (current_chunk st)
                                ++ split para)) |}
                  (closed ++ [(seed, body)])
                  (overlap_words overlap (current_chunk st)) (split para))
        as (parts & A & B & C).
      * cbn. rewrite Hc, Hb, map_app. reflexivity.
      * reflexivity.
      * apply seeded_snoc. split; [exact Hs|].
        cbn [fst]. now rewrite last_words_snoc, Hb.
      * exists parts. rewrite C, concat_bodies_snoc. cbn [snd].
        rewrite <- !app_assoc. auto.
Qed.

End Reconstruction.

Lemma chunk_text_parts (text : string) (chunk_size overlap : Z) :
  exists parts : list part,
    chunk_text text chunk_size overlap = map chunk_of parts
    /\ seeded overlap [] parts
    /\ List.concat (map snd parts) = split text.
Proof.
  unfold chunk_text, chunk_paragraphs.
  destruct (@run_parts chunk_size overlap (paragraphs text) initial [] [] [])
    as (parts & A & B & C); try reflexivity.
  - cbn. split; [|exact I].
    unfold overlap_words, last_items. now destruct (0 <? overlap)%Z.
  - exists parts. rewrite C. cbn. now rewrite paragraphs_words.
Qed.

(** X6: the chunks reconstruct the text.  Every chunk is a seed followed
    by a body; the seed is what [current_chunk[-overlap:]] takes from the
    words of the chunk before (nothing for the first chunk, and nothing at
    all when [overlap] is not positive); and the bodies, in order, are
    exactly the words of the text. *)
Theorem chunk_text_reconstruction (text : string) (chunk_size overlap : Z) :
  exists parts : list part,
    chunk_text text chunk_size overlap = map chunk_of parts
    /\ seeded overlap [] parts
    /\ List.concat (map snd parts) = split text.
Proof. apply chunk_text_parts. Qed.

Lemma seeded_no_overlap (overlap : Z) (parts : list part) (prev : list string) :
  (overlap <= 0)%Z -> seeded overlap prev parts ->
  Forall (fun p => fst p = []) parts.
Proof.
  intro Hov. revert prev. induction parts as [|p parts IH]; intros prev Hs.
  - constructor.
  - destruct Hs as [Hseed Hrest]. constructor; [|now apply (IH _ Hrest)].
    rewrite Hseed. unfold overlap_words.
    now rewrite (proj2 (Z.ltb_ge 0 overlap) Hov).
Qed.

Lemma all_words_concat (ls : list (list string)) :
  all_words (List.concat ls) -> Forall all_words ls.
Proof.
  unfold all_words. induction ls as [|l ls IH]; cbn; intro H; constructor.
  - apply Forall_app in H. tauto.
  - apply IH. apply Forall_app in H. tauto.
Qed.

(** X7: without overlap ([overlap <= 0]) the chunks split the words of the
    text among them: their words, taken chunk after chunk, are the words of
    the text, none lost and none repeated. *)
Theorem chunk_text_partition (text : string) (chunk_size overlap : Z) :
  (overlap <= 0)%Z ->
  flat_map split (chunk_text text chunk_size overlap) = split text.
Proof.
  intro Hov.
  destruct (chunk_text_parts text chunk_size overlap) as (parts & A & B & C).
  rewrite A, <- C.
  pose proof (seeded_no_overlap _ _ Hov B) as Hseeds.
  assert (Hw : Forall all_words (map snd parts)).
  { apply all_words_concat. rewrite C. apply split_words. }
  clear A B C. induction parts as [|p parts IH]; [reflexivity|].
  inversion Hseeds as [|? ? Hp Hps]; subst.
  inversion Hw as [|? ? Hb Hbs]; subst.
  cbn [map flat_map List.concat]. rewrite (IH Hps Hbs). f_equal.
  unfold chunk_of. rewrite Hp. cbn [app]. now apply split_join.
Qed.

Lemma chunk_text_partition_witness :
  (0 <= 0)%Z
  /\ flat_map split
       (chunk_text ("x" ++ nl ++ "a b c" ++ nl ++ "d")%string 2 0)
     = split ("x" ++ nl ++ "a b c" ++ nl ++ "d")%string.
Proof.
  split; [lia|].
  exact (@chunk_text_partition ("x" ++ nl ++ "a b c" ++ nl ++ "d")%string
           2 0 (Z.le_refl 0)).
Defined.

(** *** Empty chunks *)

Section EmptyChunks.
Variables chunk_size overlap : Z.

(** Once the buffer holds a word no empty chunk is closed any more. *)
Lemma run_nonempty (paras : list string) (st : state) :
  tidy st -> current_chunk st <> [] -> Forall nonempty (chunks st) ->
  Forall nonempty (flush (fold_left (step chunk_size overlap) paras st)).
Proof.
  intros Ht Hb Hc.
  set (P := fun st => tidy st /\ current_chunk st <> []
                      /\ Forall nonempty (chunks st)).
  assert (G : P (fold_left (step chunk_size overlap) paras st)).
  { apply (@run_invariant chunk_size overlap P);
      [|exact (conj Ht (conj Hb Hc))].
    intros st' para _ (Ht' & Hb' & Hc').
    split; [now apply step_tidy|].
    destruct (step_cases chunk_size overlap st' para)
      as [[_ ->]|[(Hw & _ & ->)|(Hw & _ & ->)]]; cbn [current_chunk chunks].
    - auto.
    - split; [|exact Hc']. intro N. apply app_eq_nil in N. tauto.
    - split; [intro N; apply app_eq_nil in N; tauto|].
      apply Forall_app. split; [exact Hc'|].
      constructor; [|constructor]. apply join_nonempty; [exact Hb'|apply Ht']. }
  destruct G as ([Hw _] & Hb' & Hc').
  apply flush_forall; [exact Hc'|].
  intros _. now apply join_nonempty.
Qed.

Lemma step_prepend (c para : string) (a b : state) :
  chunks a = c :: chunks b ->
  current_chunk a = current_chunk b ->
  current_length a = current_length b ->
  chunks (step chunk_size overlap a para)
  = c :: chunks (step chunk_size overlap b para)
  /\ current_chunk (step chunk_size overlap a para)
     = current_chunk (step chunk_size overlap b para)
  /\ current_length (step chunk_size overlap a para)
     = current_length (step chunk_size overlap b para).
Proof.
  intros Hc Hb Hl. unfold step. rewrite Hb, Hl, Hc.
  destruct (split para); [auto|].
  destruct (_ <=? _)%Z; cbn; auto.
Qed.

Lemma run_prepend (c : string) (paras : list string) (a b : state) :
  chunks a = c :: chunks b ->
  current_chunk a = current_chunk b ->
  current_length a = current_length b ->
  flush (fold_left (step chunk_size overlap) paras a)
  = c :: flush (fold_left (step chunk_size overlap) paras b).
Proof.
  revert a b. induction paras as [|q l IH]; intros a b Hc Hb Hl; cbn [fold_left].
  - unfold flush. rewrite Hb, Hc. now destruct (current_chunk b).
  - destruct (step_prepend q a b Hc Hb Hl) as (Hc' & Hb' & Hl').
    now apply IH.
Qed.

Lemma chunk_paragraphs_first (para : string) (post : list string) :
  split para <> [] ->
  exists rest,
    Forall nonempty rest
    /\ chunk_paragraphs (para :: post) chunk_size overlap
       = if (chunk_size <? Z.of_nat (List.length (split para)))%Z
         then EmptyString :: rest else rest.
Proof.
  intro Hw. unfold chunk_paragraphs. cbn [fold_left].
  assert (Hseed : overlap_words overlap [] = []).
  { unfold overlap_words, last_items. now destruct (0 <? overlap)%Z. }
  destruct (step_cases chunk_size overlap initial para)
    as [[E _]|[(_ & L & E)|(_ & L & E)]]; [contradiction| |];
    rewrite E; cbn in L.
  - rewrite (proj2 (Z.ltb_ge _ _)) by lia.
    eexists. split; [|reflexivity].
    apply run_nonempty; cbn.
    + split; [apply split_words|]. cbn. lia.
    + exact Hw.
    + constructor.
  - rewrite (proj2 (Z.ltb_lt _ _)) by lia.
    cbn [chunks current_chunk initial app]. rewrite Hseed. cbn [app].
    exists (flush (fold_left (step chunk_size overlap) post
                     {| chunks := [];
                        current_chunk := split para;
                        current_length :=
                          Z.of_nat (List.length (split para)) |})).
    split.
    + apply run_nonempty; cbn.
      * split; [apply split_words|reflexivity].
      * exact Hw.
      * constructor.
    + apply run_prepend; reflexivity.
Qed.

End EmptyChunks.

(** X8: only the first chunk can be empty, and it is empty exactly when
    the first paragraph has more than [chunk_size] words. *)
Theorem chunk_text_empty_chunk (text : string) (chunk_size overlap : Z) :
  Forall nonempty (tl (chunk_text text chunk_size overlap))
  /\ (hd_error (chunk_text text chunk_size overlap) = Some EmptyString
      <-> exists para post,
            paragraphs text = para :: post
            /\ (chunk_size < word_count para)%Z).
Proof.
  unfold chunk_text.
  destruct (paragraphs text) as [|para post] eqn:E.
  - cbn. split; [constructor|]. split; [discriminate|].
    intros (q & qs & N & _). discriminate N.
  - assert (Hw : split para <> []).
    { apply (paragraphs_have_words text). rewrite E. now left. }
    destruct (@chunk_paragraphs_first chunk_size overlap para post Hw)
      as (rest & Hrest & ->).
    unfold word_count.
    destruct (chunk_size <? Z.of_nat (List.length (split para)))%Z eqn:L.
    + apply Z.ltb_lt in L. cbn. split; [exact Hrest|].
      split; [|reflexivity]. intros _. exists para, post. auto.
    + apply Z.ltb_ge in L. split.
      * destruct rest; [constructor|]. cbn. now inversion Hrest.
      * split.
        -- intro H. destruct rest as [|c rest]; [discriminate|].
           inversion Hrest as [|? ? Hc _]; subst.
           cbn in H. injection H as ->. now elim Hc.
        -- intros (q & qs & N & Hq). injection N as <- <-. lia.
Qed.

End ChunkerWords.

(* ================================================================= *)
(** * More on the chunk cache: alignment, records, events *)

Module CacheRecords.
Import Cache CacheView CacheFacts Notions Samples.

Section Records.
Variable fs : file_system.

Lemma visited_name (e : string * file_meta) : fst (visited fs e) = fst e.
Proof.
  unfold visited. destruct (stat fs (file_path (snd e))); [|reflexivity].
  now destruct (needs_chunking (snd e) (st_mtime _)).
Qed.

(** The record of a file that exists, after the visit. *)
Lemma visited_present (e : string * file_meta) (info : file_info) :
  stat fs (file_path (snd e)) = Some info ->
  let m := snd (visited fs e) in
  chunks m = Some (contribution fs e)
  /\ last_modified m = Some (st_mtime info)
  /\ file_path m = resolve fs (file_path (snd e))
  /\ file_name m = Some (path_name fs (file_path (snd e)))
  /\ size_kb m = Some (round_kb (st_size info))
  /\ created_at m = Some (isoformat fs (st_ctime info))
  /\ (refreshed fs e = true ->
      num_chunks m = Some (List.length (contribution fs e)))
  /\ (refreshed fs e = false -> num_chunks m = num_chunks (snd e)
                                /\ chunks m = chunks (snd e)).
Proof.
  intro Hstat. unfold visited, contribution, refreshed. rewrite Hstat.
  destruct (needs_chunking (snd e) (st_mtime info)) eqn:E; cbn.
  - repeat split; auto; discriminate.
  - destruct (needs_chunking_hit _ _ E) as (c & cs & Hc & Hm).
    unfold stored_chunks. rewrite Hc, Hm. repeat split; auto; discriminate.
Qed.

Lemma visited_absent (e : string * file_meta) :
  stat fs (file_path (snd e)) = None ->
  visited fs e = e /\ contribution fs e = [] /\ refreshed fs e = false.
Proof.
  intro Hstat. unfold visited, contribution, refreshed. now rewrite Hstat.
Qed.

Lemma visited_consistent (e : string * file_meta) :
  consistent (snd e) -> consistent (snd (visited fs e)).
Proof.
  intro Hc. destruct (stat fs (file_path (snd e))) as [info|] eqn:Hstat.
  - destruct (visited_present e Hstat) as (Hch & _ & _ & _ & _ & _ & Hr & Hh).
    intros cs Hcs. rewrite Hch in Hcs. injection Hcs as <-.
    destruct (refreshed fs e) eqn:R; [now apply Hr|].
    destruct (Hh eq_refl) as [Hn Hsame]. rewrite Hn. apply Hc.
    now rewrite <- Hsame.
  - now rewrite (proj1 (visited_absent e Hstat)).
Qed.

Lemma nth_error_flat_map (A B : Type) (f : A -> list B) (l : list A)
      (i : nat) (b : B) :
  nth_error (flat_map f l) i = Some b ->
  exists pre a post j,
    l = pre ++ a :: post
    /\ i = List.length (flat_map f pre) + j
    /\ nth_error (f a) j = Some b.
Proof.
  revert i. induction l as [|a l IH]; intros i Hi; cbn in Hi.
  - destruct i; discriminate.
  - destruct (Nat.lt_ge_cases i (List.length (f a))) as [L|L].
    + rewrite nth_error_app1 in Hi by exact L.
      exists [], a, l, i. auto.
    + rewrite nth_error_app2 in Hi by exact L.
      destruct (IH _ Hi) as (pre & a' & post & j & -> & Ej & Hj).
      exists (a :: pre), a', post, j. cbn. rewrite length_app.
      repeat split; auto. lia.
Qed.

End Records.

(** X9: the two flattened lists of a reconcile are aligned.  They have
    the same length, and the chunk at a position comes with the path of a
    tracked file that exists and whose returned record holds that chunk:
    the path stored in the library passed in, as [str(Path(...))] writes
    it, not the resolved one that the returned record holds. *)
Theorem reconcile_sources_aligned
        (fs : file_system) (l : library) (k : Z) (i : nat) (chunk : string) :
  let o := load_and_chunk_files fs l k in
  nth_error (out_chunks o) i = Some chunk ->
  List.length (out_sources o) = List.length (out_chunks o)
  /\ exists pos name meta meta' cs,
       nth_error l pos = Some (name, meta)
       /\ nth_error (out_library o) pos = Some (name, meta')
       /\ nth_error (out_sources o) i = Some (path_str fs (file_path meta))
       /\ stat fs (file_path meta) <> None
       /\ chunks meta' = Some cs
       /\ In chunk cs.
Proof.
  intros o Hi. subst o. split; [apply reconcile_lists_aligned|].
  rewrite load_view in Hi. cbn [out_chunks] in Hi.
  destruct (nth_error_flat_map _ _ _ Hi)
    as (pre & [name meta] & post & j & -> & -> & Hj).
  destruct (stat fs (file_path meta)) as [info|] eqn:Hstat.
  - destruct (visited_present fs (name, meta) Hstat) as (Hch & _).
    exists (List.length pre), name, meta, (snd (visited fs (name, meta))),
      (contribution fs (name, meta)).
    split; [now rewrite nth_error_app2, Nat.sub_diag by lia|].
    split.
    { rewrite load_record_at.
      rewrite (surjective_pairing (visited fs (name, meta))) at 1.
      now rewrite visited_name. }
    split.
    { rewrite load_view. cbn [out_sources].
      rewrite flat_map_app. cbn [flat_map].
      rewrite nth_error_app2; rewrite sources_length; [|lia].
      replace (List.length (flat_map (contribution fs) pre) + j
               - List.length (flat_map (contribution fs) pre)) with j by lia.
      rewrite nth_error_app1.
      - unfold sources. cbn [snd].
        apply nth_error_repeat.
        apply nth_error_Some. congruence.
      - unfold sources. rewrite repeat_length.
        apply nth_error_Some. congruence. }
    split; [congruence|]. split; [exact Hch|].
    eapply nth_error_In; eauto.
  - destruct (visited_absent fs (name, meta) Hstat) as (_ & Hc & _).
    rewrite Hc in Hj. destruct j; discriminate.
Qed.

Lemma reconcile_sources_aligned_witness :
  nth_error
    (out_chunks (load_and_chunk_files Disk.fs
                   [("gone", Disk.cached "gone.txt" ["old text"] 7);
                    ("notes", Disk.untracked "./notes.txt")] 500)) 0
  = Some "alpha beta"
  /\ List.length
       (out_sources (load_and_chunk_files Disk.fs
                       [("gone", Disk.cached "gone.txt" ["old text"] 7);
                        ("notes", Disk.untracked "./notes.txt")] 500))
     = List.length
         (out_chunks (load_and_chunk_files Disk.fs
                        [("gone", Disk.cached "gone.txt" ["old text"] 7);
                         ("notes", Disk.untracked "./notes.txt")] 500))
  /\ out_sources (load_and_chunk_files Disk.fs
                    [("gone", Disk.cached "gone.txt" ["old text"] 7);
                     ("notes", Disk.untracked "./notes.txt")] 500)
     = ["notes.txt"].
Proof.
  assert (H : nth_error
                (out_chunks (load_and_chunk_files Disk.fs
                   [("gone", Disk.cached "gone.txt" ["old text"] 7);
                    ("notes", Disk.untracked "./notes.txt")] 500)) 0
              = Some "alpha beta") by (vm_compute; reflexivity).
  split; [exact H|]. split; [|vm_compute; reflexivity].
  exact (proj1 (@reconcile_sources_aligned Disk.fs _ 500 0 "alpha beta" H)).
Defined.

(** X10: a reconcile adds no record, drops none and keeps their order and
    their keys; and when [num_chunks] agrees with the stored chunk list in
    every record passed in, it does so in every record returned. *)
Theorem reconcile_keeps_records (fs : file_system) (l : library) (k : Z) :
  let o := load_and_chunk_files fs l k in
  map fst (out_library o) = map fst l
  /\ (Forall (fun e => consistent (snd e)) l ->
      Forall (fun e => consistent (snd e)) (out_library o)).
Proof.
  intro o. subst o. rewrite load_view. cbn [out_library]. split.
  - rewrite map_map. apply map_ext. apply visited_name.
  - intro H. apply Forall_map.
    eapply Forall_impl; [|exact H]. apply visited_consistent.
Qed.

Lemma reconcile_keeps_records_witness :
  Forall (fun e => consistent (snd e))
         [("gone", Disk.cached "gone.txt" ["old text"] 7);
          ("notes", Disk.untracked "notes.txt")]
  /\ Forall (fun e => consistent (snd e))
            (out_library
               (load_and_chunk_files Disk.fs
                  [("gone", Disk.cached "gone.txt" ["old text"] 7);
                   ("notes", Disk.untracked "notes.txt")] 500)).
Proof.
  assert (A : Forall (fun e => consistent (snd e))
                     [("gone", Disk.cached "gone.txt" ["old text"] 7);
                      ("notes", Disk.untracked "notes.txt")]).
  { repeat constructor; intros cs E; cbn in E;
      [injection E as <-; reflexivity|discriminate E]. }
  exact (conj A (proj2 (@reconcile_keeps_records Disk.fs _ 500) A)).
Defined.

(** X11: after a reconcile the record of every tracked file that exists is
    fresh: it holds a chunk list, the current modification time, the
    resolved path, the file name, the size in KB and the creation time;
    and its chunk list is what the file contributed to the output. *)
Theorem reconcile_record_fresh
        (fs : file_system) (l : library) (k : Z) (pos : nat)
        (name : string) (meta : file_meta) (info : file_info) :
  nth_error l pos = Some (name, meta) ->
  stat fs (file_path meta) = Some info ->
  exists meta' cs,
    nth_error (out_library (load_and_chunk_files fs l k)) pos
    = Some (name, meta')
    /\ chunks meta' = Some cs
    /\ last_modified meta' = Some (st_mtime info)
    /\ file_path meta' = resolve fs (file_path meta)
    /\ file_name meta' = Some (path_name fs (file_path meta))
    /\ size_kb meta' = Some (round_kb (st_size info))
    /\ created_at meta' = Some (isoformat fs (st_ctime info))
    /\ (has_chunks meta = false ->
        cs = Chunker.chunk_text (read_text fs (file_path meta)) 500 50
        /\ num_chunks meta' = Some (List.length cs)).
Proof.
  intros Hpos Hstat.
  destruct (visited_present fs (name, meta) Hstat)
    as (Hch & Hm & Hp & Hn & Hs & Hc & Hr & _).
  exists (snd (visited fs (name, meta))), (contribution fs (name, meta)).
  split.
  { rewrite load_view. cbn [out_library].
    rewrite nth_error_map, Hpos. cbn [option_map].
    rewrite (surjective_pairing (visited fs (name, meta))) at 1.
    now rewrite visited_name. }
  repeat (split; [assumption|]).
  intro Hno.
  assert (R : refreshed fs (name, meta) = true).
  { unfold refreshed. cbn [snd]. rewrite Hstat.
    unfold needs_chunking. now rewrite Hno. }
  split; [|now apply Hr].
  unfold contribution. cbn [snd]. rewrite Hstat.
  unfold refreshed in R. cbn [snd] in R. rewrite Hstat in R. now rewrite R.
Qed.

Lemma reconcile_record_fresh_witness :
  nth_error [("notes", Disk.untracked "notes.txt")] 0
  = Some ("notes", Disk.untracked "notes.txt")
  /\ stat Disk.fs "notes.txt" = Some Disk.notes_info
  /\ exists meta',
       nth_error (out_library
                    (load_and_chunk_files Disk.fs
                       [("notes", Disk.untracked "notes.txt")] 500)) 0
       = Some ("notes", meta')
       /\ last_modified meta' = Some 1700000000%Z.
Proof.
  split; [reflexivity|]. split; [reflexivity|].
  destruct (@reconcile_record_fresh Disk.fs
              [("notes", Disk.untracked "notes.txt")] 500 0 "notes"
              (Disk.untracked "notes.txt") Disk.notes_info eq_refl eq_refl)
    as (meta' & cs & A & _ & B & _).
  exists meta'. split; [exact A|exact B].
Defined.

Lemma reads_are_extractions (fs : file_system) (l : library) :
  flat_map (reads fs) l
  = map ReadText (extractions (flat_map (reads fs) l)).
Proof.
  induction l as [|e l IH]; [reflexivity|].
  cbn [flat_map]. rewrite extractions_app, map_app, <- IH. f_equal.
  unfold reads. now destruct (refreshed fs e).
Qed.

Lemma refreshed_reads (fs : file_system) (l : library) :
  existsb (refreshed fs) l = true -> flat_map (reads fs) l <> [].
Proof.
  induction l as [|e l IH]; cbn; [discriminate|].
  unfold reads at 1. destruct (refreshed fs e); cbn; [discriminate|exact IH].
Qed.

Lemma extractions_in_order (fs : file_system) (l : library) :
  flat_map (fun e => extractions (reads fs e)) l
  = map (fun e => file_path (snd e)) (filter (refreshed fs) l).
Proof.
  induction l as [|e l IH]; cbn [flat_map filter map]; [reflexivity|].
  unfold reads at 1. destruct (refreshed fs e); cbn; now rewrite IH.
Qed.

(** X12: the events of a reconcile are the extractions, in library order,
    followed by at most one write of the store.  The files extracted are
    those that exist with a stale record, in the order of the library.  The
    write comes last, it writes the library that is returned, and it
    happens exactly when at least one file was extracted. *)
Theorem reconcile_write_discipline (fs : file_system) (l : library) (k : Z) :
  let o := load_and_chunk_files fs l k in
  let extracted := extractions (out_trace o) in
  extracted = map (fun e => file_path (snd e)) (filter (refreshed fs) l)
  /\ ((extracted = [] /\ out_trace o = [])
      \/ (extracted <> []
          /\ out_trace o
             = map ReadText extracted ++ [StoreWrite (out_library o)])).
Proof.
  intros o extracted. subst o extracted.
  split; [rewrite load_extractions; apply extractions_in_order|].
  rewrite load_extractions, load_view. cbn [out_trace out_library].
  rewrite <- extractions_reads.
  destruct (existsb (refreshed fs) l) eqn:R.
  - right. pose proof (refreshed_reads fs l R) as Hne.
    rewrite <- reads_are_extractions. split; [|reflexivity].
    intro N. apply Hne. rewrite reads_are_extractions, N. reflexivity.
  - left. rewrite (reads_nil_iff fs l R). auto.
Qed.

(** X13: cache invalidation.  When the modification time of a tracked
    file changes between two reconciles, the second one extracts the file
    again, from its resolved path, stores the new chunks with the new
    modification time and writes the store. *)
Theorem reconcile_after_modification
        (fs1 fs2 : file_system) (pre post : library) (name : string)
        (meta : file_meta) (info1 info2 : file_info) (k k' : Z) :
  stat fs1 (file_path meta) = Some info1 ->
  stat fs2 (resolve fs1 (file_path meta)) = Some info2 ->
  st_mtime info2 <> st_mtime info1 ->
  let o1 := load_and_chunk_files fs1 (pre ++ (name, meta) :: post) k in
  let o2 := load_and_chunk_files fs2 (out_library o1) k' in
  let path := resolve fs1 (file_path meta) in
  let fresh := Chunker.chunk_text (read_text fs2 path) 500 50 in
  (exists meta2,
      nth_error (out_library o2) (List.length pre) = Some (name, meta2)
      /\ chunks meta2 = Some fresh
      /\ last_modified meta2 = Some (st_mtime info2))
  /\ In path (extractions (out_trace o2))
  /\ writes (out_trace o2) = [StoreWrite (out_library o2)].
Proof.
  intros H1 H2 Hdiff o1 o2 path fresh. subst o1 o2 path fresh.
  rewrite (load_view fs1). cbn [out_library].
  rewrite map_app. cbn [map].
  set (e1 := visited fs1 (name, meta)).
  destruct (visited_present fs1 (name, meta) H1) as (_ & Hm & Hp & _).
  fold e1 in Hm, Hp. cbn [snd] in Hp.
  assert (R : refreshed fs2 e1 = true).
  { unfold refreshed. rewrite Hp, H2. unfold needs_chunking.
    rewrite Hm. cbn. apply orb_true_iff. right.
    apply negb_true_iff, Z.eqb_neq. congruence. }
  assert (Hname : fst e1 = name) by (unfold e1; now rewrite visited_name).
  split; [|split].
  - exists (snd (visited fs2 e1)).
    replace (List.length pre) with (List.length (map (visited fs1) pre))
      by apply length_map.
    rewrite load_record_at.
    split.
    { rewrite (surjective_pairing (visited fs2 e1)) at 1.
      now rewrite visited_name, Hname. }
    assert (H2' : stat fs2 (file_path (snd e1)) = Some info2)
      by (now rewrite Hp).
    destruct (visited_present fs2 e1 H2') as (Hch & Hm2 & _).
    split; [|exact Hm2].
    rewrite Hch. unfold contribution. rewrite H2'.
    unfold refreshed in R. rewrite H2' in R. rewrite R.
    unfold fresh_chunks. cbn. now rewrite Hp.
  - rewrite load_extractions, flat_map_app. cbn [flat_map].
    apply in_or_app. right. apply in_or_app. left.
    unfold reads. rewrite R, Hp. cbn. now left.
  - rewrite load_view. cbn [out_trace out_library].
    assert (E : existsb (refreshed fs2)
                  (map (visited fs1) pre ++ e1 :: map (visited fs1) post)
                = true).
    { rewrite existsb_app. cbn. rewrite R. now rewrite orb_true_r. }
    rewrite E. unfold writes. rewrite filter_app. cbn.
    rewrite reads_are_extractions.
    match goal with
    | |- filter is_write (map ReadText ?x) ++ _ = _ =>
        assert (F : filter is_write (map ReadText x) = [])
          by (induction x; cbn; auto)
    end.
    now rewrite F.
Qed.

Lemma reconcile_after_modification_witness :
  stat Disk.fs "notes.txt" = Some Disk.notes_info
  /\ stat touched_fs (resolve Disk.fs "notes.txt")
     = Some {| st_mtime := 1700009999; st_ctime := 1690000000;
               st_size := 4096 |}
  /\ (1700009999 <> st_mtime Disk.notes_info)%Z
  /\ out_chunks
       (load_and_chunk_files touched_fs
          (out_library
             (load_and_chunk_files Disk.fs
                ([] ++ ("notes", Disk.untracked "notes.txt") :: []) 500))
          500)
     = ["alpha beta gamma"]
  /\ In "/data/notes.txt"
        (extractions
           (out_trace
              (load_and_chunk_files touched_fs
                 (out_library
                    (load_and_chunk_files Disk.fs
                       ([] ++ ("notes", Disk.untracked "notes.txt") :: [])
                       500))
                 500))).
Proof.
  assert (D : (st_mtime {| st_mtime := 1700009999; st_ctime := 1690000000;
                           st_size := 4096 |}
               <> st_mtime Disk.notes_info)%Z) by discriminate.
  split; [reflexivity|]. split; [reflexivity|]. split; [discriminate|].
  split; [vm_compute; reflexivity|].
  exact (proj1 (proj2
    (@reconcile_after_modification Disk.fs touched_fs [] [] "notes"
       (Disk.untracked "notes.txt") Disk.notes_info _ 500 500
       eq_refl eq_refl D))).
Defined.

End CacheRecords.

(* ================================================================= *)
(** * Files without text *)

Module ExtractFacts.
Import Cache CacheView CacheFacts CacheRecords Notions Samples.

Lemma dispatch_unsupported (rd : Extract.readers) (path : string) :
  existsb (String.eqb (Text.lower (Extract.suffix rd path))) supported = false ->
  Extract.dispatch rd path = None.
Proof.
  unfold supported, Extract.dispatch, Extract.image_suffixes.
  cbn [existsb]. intro H.
  repeat (apply orb_false_iff in H; destruct H as [?E H]).
  cbv zeta.
  repeat match goal with
         | E : String.eqb _ _ = false |- _ => rewrite E; clear E
         end.
  reflexivity.
Qed.

(** X14: [read_text] never lets an exception out.  A file whose suffix,
    in lower case, has no branch, or whose reader raises, reads as the
    empty text and gives no chunk. *)
Theorem unreadable_file_no_chunk
        (rd : Extract.readers) (path : string)
        (stat : string -> option file_info)
        (path_str resolve path_name : string -> string)
        (isoformat : Z -> string) :
  existsb (String.eqb (Text.lower (Extract.suffix rd path))) supported = false
  \/ (exists e, Extract.dispatch rd path = Some (Raise e)) ->
  Extract.read_text rd path = EmptyString
  /\ read_and_chunk_file
       (Extract.file_system_of rd stat path_str resolve path_name isoformat)
       path
     = ([], path_str path).
Proof.
  intro H.
  assert (E : Extract.read_text rd path = EmptyString).
  { unfold Extract.read_text. destruct H as [H|[e H]].
    - now rewrite (dispatch_unsupported _ _ H).
    - now rewrite H. }
  split; [exact E|].
  unfold read_and_chunk_file. cbn [read_text Extract.file_system_of].
  rewrite E. reflexivity.
Qed.

Lemma unreadable_file_no_chunk_witness :
  (exists e, Extract.dispatch sample_readers "scan.PNG" = Some (Raise e))
  /\ Extract.read_text sample_readers "scan.PNG" = EmptyString
  /\ Extract.read_text sample_readers "notes.txt" = "alpha beta".
Proof.
  assert (H : exists e,
             Extract.dispatch sample_readers "scan.PNG" = Some (Raise e))
    by (exists LibraryError; reflexivity).
  split; [exact H|]. split; [|reflexivity].
  exact (proj1 (@unreadable_file_no_chunk sample_readers "scan.PNG"
                  (stat Disk.fs) (path_str Disk.fs) (resolve Disk.fs)
                  (path_name Disk.fs)
                  (isoformat Disk.fs) (or_intror H))).
Defined.

Lemma writes_nonempty (fs : file_system) (l : library) (k : Z) :
  existsb (refreshed fs) l = true ->
  writes (out_trace (load_and_chunk_files fs l k))
  = [StoreWrite (out_library (load_and_chunk_files fs l k))].
Proof.
  intro E. rewrite load_view. cbn [out_trace out_library]. rewrite E.
  unfold writes. rewrite filter_app, reads_are_extractions. cbn.
  match goal with
  | |- filter is_write (map ReadText ?x) ++ _ = _ =>
      assert (F : filter is_write (map ReadText x) = [])
        by (induction x; cbn; auto)
  end.
  now rewrite F.
Qed.

(** X15: a tracked file that exists but gives no word is never cached.
    A reconcile stores an empty chunk list and [num_chunks = 0] for it,
    takes no chunk from it and writes the store; and as long as the file
    still gives no word, the next reconcile extracts it again and writes
    the store again. *)
Theorem reconcile_wordless_file
        (fs : file_system) (pre post : library) (name : string)
        (meta : file_meta) (info info' : file_info) (k k' : Z) :
  stat fs (file_path meta) = Some info ->
  has_chunks meta = false ->
  Chunker.has_nonspace (read_text fs (file_path meta)) = false ->
  stat fs (resolve fs (file_path meta)) = Some info' ->
  Chunker.has_nonspace (read_text fs (resolve fs (file_path meta))) = false ->
  let o1 := load_and_chunk_files fs (pre ++ (name, meta) :: post) k in
  let o2 := load_and_chunk_files fs (out_library o1) k' in
  (exists meta1,
      nth_error (out_library o1) (List.length pre) = Some (name, meta1)
      /\ chunks meta1 = Some [] /\ num_chunks meta1 = Some 0)
  /\ out_chunks o1
     = out_chunks (load_and_chunk_files fs pre k)
         ++ out_chunks (load_and_chunk_files fs post k)
  /\ writes (out_trace o1) = [StoreWrite (out_library o1)]
  /\ In (resolve fs (file_path meta)) (extractions (out_trace o2))
  /\ writes (out_trace o2) = [StoreWrite (out_library o2)].
Proof.
  intros Hstat Hno Hblank Hstat' Hblank' o1 o2. subst o1 o2.
  assert (R : refreshed fs (name, meta) = true).
  { unfold refreshed. cbn [snd]. rewrite Hstat.
    unfold needs_chunking. now rewrite Hno. }
  assert (C : contribution fs (name, meta) = []).
  { unfold contribution. cbn [snd]. rewrite Hstat.
    unfold refreshed in R. cbn [snd] in R. rewrite Hstat in R. rewrite R.
    unfold fresh_chunks, read_and_chunk_file. cbn [fst].
    now apply ChunkerWords.blank_text_no_chunk. }
  destruct (visited_present fs (name, meta) Hstat)
    as (Hch & Hm & Hp & _ & _ & _ & Hn & _).
  rewrite C in Hch. specialize (Hn R). rewrite C in Hn. cbn in Hn, Hp.
  set (e1 := visited fs (name, meta)) in *.
  assert (Hname : fst e1 = name) by (unfold e1; now rewrite visited_name).
  assert (R1 : refreshed fs e1 = true).
  { unfold refreshed. rewrite Hp, Hstat'. unfold needs_chunking, has_chunks.
    now rewrite Hch. }
  assert (E1 : existsb (refreshed fs) (pre ++ (name, meta) :: post) = true).
  { rewrite existsb_app. cbn. rewrite R. now rewrite orb_true_r. }
  assert (E2 : existsb (refreshed fs)
                 (out_library
                    (load_and_chunk_files fs (pre ++ (name, meta) :: post) k))
               = true).
  { rewrite load_view. cbn [out_library]. rewrite map_app, existsb_app. cbn.
    fold e1. rewrite R1. now rewrite orb_true_r. }
  split; [|split; [|split; [|split]]].
  - exists (snd e1). rewrite load_record_at. fold e1.
    rewrite (surjective_pairing e1) at 1. rewrite Hname. auto.
  - rewrite load_chunks_split, C. reflexivity.
  - now apply writes_nonempty.
  - rewrite load_extractions.
    rewrite (load_view fs (pre ++ (name, meta) :: post)). cbn [out_library].
    rewrite map_app, flat_map_app. cbn [map flat_map]. fold e1.
    apply in_or_app. right. apply in_or_app. left.
    unfold reads. rewrite R1, Hp. now left.
  - now apply writes_nonempty.
Qed.

Lemma reconcile_wordless_file_witness :
  stat Disk.fs "blank.txt" = Some Disk.blank_info
  /\ has_chunks (Disk.untracked "blank.txt") = false
  /\ Chunker.has_nonspace (read_text Disk.fs "blank.txt") = false
  /\ writes (out_trace
               (load_and_chunk_files Disk.fs
                  (out_library
                     (load_and_chunk_files Disk.fs
                        ([] ++ ("blank", Disk.untracked "blank.txt") :: [])
                        500)) 500))
     = [StoreWrite
          (out_library
             (load_and_chunk_files Disk.fs
                (out_library
                   (load_and_chunk_files Disk.fs
                      ([] ++ ("blank", Disk.untracked "blank.txt") :: [])
                      500)) 500))].
Proof.
  split; [reflexivity|]. split; [reflexivity|]. split; [reflexivity|].
  exact (proj2 (proj2 (proj2 (proj2
    (@reconcile_wordless_file Disk.fs [] [] "blank"
       (Disk.untracked "blank.txt") Disk.blank_info Disk.blank_info 500 500
       eq_refl eq_refl eq_refl eq_refl eq_refl))))).
Defined.

End ExtractFacts.

(* ================================================================= *)
(** * More on the fusion ranker: success, top-k, bounds *)

Module RankerRanking.
Import Ranker Sample RankerFacts Notions Samples.

Lemma traverse_all_ok (A B : Type) (f : A -> result B) (l : list A) :
  (forall a, In a l -> exists b, f a = Ok b) ->
  exists res, traverse f l = Ok res /\ List.length res = List.length l.
Proof.
  induction l as [|a l IH]; intro H; cbn.
  - exists []. auto.
  - destruct (H a (or_introl eq_refl)) as [b Hb].
    destruct IH as (res & Hres & Hlen); [intros x Hx; apply H; now right|].
    rewrite Hb, Hres. cbn. exists (b :: res). cbn. auto.
Qed.

Lemma in_firstn (A : Type) (n : nat) (l : list A) (x : A) :
  In x (firstn n l) -> In x l.
Proof.
  intro H. rewrite <- (firstn_skipn n l). apply in_or_app. now left.
Qed.

Lemma in_slice_to (A : Type) (k : Z) (l : list A) (x : A) :
  In x (slice_to k l) -> In x l.
Proof.
  unfold slice_to. destruct (0 <=? k)%Z; apply in_firstn.
Qed.

Lemma slice_to_firstn (A : Type) (k : Z) (l : list A) :
  exists n, slice_to k l = firstn n l.
Proof. unfold slice_to. destruct (0 <=? k)%Z; eauto. Qed.

Lemma np_add_same_length (a b : list Q) :
  List.length a = List.length b ->
  exists c, np_add a b = Ok c /\ List.length c = List.length a.
Proof.
  intro E. unfold np_add. rewrite (proj2 (Nat.eqb_eq _ _) E).
  eexists. split; [reflexivity|].
  rewrite length_map, length_combine. lia.
Qed.

Section Ranking.
Context `{Numpy}.
Variable r : Retriever.
Variable query : string.

Lemma ranked_indices_in_range (combined : list Q) (idx : nat) :
  In idx (ranked_indices r combined) -> idx < List.length combined.
Proof.
  unfold ranked_indices. intro Hin.
  apply in_slice_to, in_rev in Hin.
  apply (Permutation_in _ (argsort_perm combined)), in_seq in Hin. lia.
Qed.

Lemma ranked_indices_nodup (combined : list Q) :
  NoDup (ranked_indices r combined).
Proof.
  unfold ranked_indices.
  destruct (slice_to_firstn (max_results r) (rev (argsort combined)))
    as [n ->].
  assert (N : NoDup (rev (argsort combined))).
  { apply NoDup_rev.
    apply (Permutation_NoDup (Permutation_sym (argsort_perm combined))).
    apply seq_NoDup. }
  rewrite <- (firstn_skipn n) in N. now apply NoDup_app_remove_r in N.
Qed.

Lemma ranked_indices_length (combined : list Q) :
  (0 <= max_results r)%Z ->
  Z.of_nat (List.length (ranked_indices r combined))
  = Z.min (max_results r) (Z.of_nat (List.length combined)).
Proof.
  intro Hk. unfold ranked_indices, slice_to.
  rewrite (proj2 (Z.leb_le 0 _) Hk).
  rewrite length_firstn, length_rev.
  rewrite (Permutation_length (argsort_perm combined)), length_seq. lia.
Qed.

(** Aligned, non-empty score vectors combine into a vector of the same
    length. *)
Lemma combined_scores_aligned :
  tfidf_raw r query <> [] ->
  List.length (bm25_raw r query) = List.length (tfidf_raw r query) ->
  exists combined,
    combined_scores r query = Ok combined
    /\ List.length combined = List.length (tfidf_raw r query).
Proof.
  intros Hne Hlen.
  assert (Hne' : bm25_raw r query <> [])
    by (destruct (bm25_raw r query), (tfidf_raw r query);
        cbn in *; congruence).
  destruct (py_max_ok Hne) as [mt Hmt].
  destruct (py_max_ok Hne') as [mb Hmb].
  destruct (divisor_cases _ Hmt) as (dt & Hdt & _).
  destruct (divisor_cases _ Hmb) as (db & Hdb & _).
  unfold combined_scores. rewrite Hdt, Hdb. cbn [bind].
  destruct (np_add_same_length
              (scale (dense_weight r query) (divide (tfidf_raw r query) dt))
              (scale (sparse_weight r query) (divide (bm25_raw r query) db)))
    as (c & Hc & Hl).
  { unfold scale, divide. rewrite !length_map. now symmetry. }
  exists c. split; [exact Hc|].
  rewrite Hl. unfold scale, divide. now rewrite !length_map.
Qed.

End Ranking.

Lemma search_returns `{Numpy} (r : Retriever) (query : string) :
  documents r <> [] ->
  List.length (doc_paths r) = List.length (documents r) ->
  aligned r ->
  exists results,
    search r query = Ok results
    /\ ((0 <= max_results r)%Z ->
        Z.of_nat (List.length results)
        = Z.min (max_results r) (Z.of_nat (List.length (documents r)))).
Proof.
  intros Hdocs Hpaths Hal. destruct (Hal query) as [Ht Hb].
  fold (tfidf_raw r query) in Ht. fold (bm25_raw r query) in Hb.
  destruct (combined_scores_aligned r query) as (combined & Hc & Hl).
  { intro N. rewrite N in Ht. destruct (documents r); [congruence|discriminate]. }
  { congruence. }
  unfold search. rewrite Hc. cbn [bind].
  destruct (traverse_all_ok (tuple_at r query combined)
              (ranked_indices r combined)) as (results & Hres & Hlen).
  - intros idx Hin. apply ranked_indices_in_range in Hin.
    unfold tuple_at.
    assert (G : forall (A : Type) (l : list A),
               List.length l = List.length combined ->
               exists a, getitem l idx = Ok a).
    { intros A l El. unfold getitem.
      destruct (nth_error l idx) eqn:E; [eauto|].
      apply nth_error_None in E. lia. }
    destruct (G _ combined eq_refl) as [c ->].
    destruct (G _ (tfidf_raw r query)) as [t ->]; [congruence|].
    destruct (G _ (bm25_raw r query)) as [b ->]; [congruence|].
    destruct (G _ (documents r)) as [d ->]; [congruence|].
    destruct (G _ (doc_paths r)) as [p ->]; [congruence|].
    cbn. eauto.
  - exists results. split; [exact Hres|].
    intro Hk. rewrite Hlen, (ranked_indices_length _ _ Hk). congruence.
Qed.

(** X16: over a corpus that is not empty, with one path and one score of
    each kind per chunk, [search] returns: it raises nothing, and for a
    [max_results] that is not negative it returns exactly the smaller of
    [max_results] and the number of chunks. *)
Theorem search_succeeds `{Numpy} (r : Retriever) (query : string) :
  documents r <> [] ->
  List.length (doc_paths r) = List.length (documents r) ->
  aligned r ->
  exists results,
    search r query = Ok results
    /\ ((0 <= max_results r)%Z ->
        Z.of_nat (List.length results)
        = Z.min (max_results r) (Z.of_nat (List.length (documents r)))).
Proof. apply search_returns. Qed.

Lemma shelf_aligned (k : Z) : aligned (shelf k).
Proof. intro q. split; reflexivity. Qed.

Lemma search_succeeds_witness :
  documents (shelf 2) <> []
  /\ List.length (doc_paths (shelf 2)) = List.length (documents (shelf 2))
  /\ aligned (shelf 2)
  /\ exists results,
       search (shelf 2) "alpha gamma" = Ok results
       /\ ((0 <= max_results (shelf 2))%Z ->
           Z.of_nat (List.length results)
           = Z.min (max_results (shelf 2))
                   (Z.of_nat (List.length (documents (shelf 2))))).
Proof.
  assert (A : documents (shelf 2) <> []) by discriminate.
  assert (B : List.length (doc_paths (shelf 2))
              = List.length (documents (shelf 2))) by reflexivity.
  exact (conj A (conj B (conj (shelf_aligned 2)
    (@search_succeeds stable_numpy (shelf 2) "alpha gamma" A B
       (shelf_aligned 2))))).
Defined.

Lemma Forall2_in_r (A B : Type) (P : A -> B -> Prop) (l : list A)
      (l' : list B) (b : B) :
  Forall2 P l l' -> In b l' -> exists a, In a l /\ P a b.
Proof.
  induction 1 as [|x y l l' Hxy HF IH]; intro Hin; [contradiction|].
  destruct Hin as [->|Hin].
  - exists x. split; [now left|exact Hxy].
  - destruct (IH Hin) as (a & Ha & Pa). exists a. split; [now right|exact Pa].
Qed.

Lemma sorted_app_cross (A : Type) (R : A -> A -> Prop) (a b : list A) (x y : A) :
  StronglySorted R (a ++ b) -> In x a -> In y b -> R x y.
Proof.
  induction a as [|h a IH]; intros Hs Hx Hy; [contradiction|].
  cbn in Hs. inversion Hs as [|? ? Hrest Hall]; subst.
  destruct Hx as [->|Hx].
  - rewrite Forall_forall in Hall. apply Hall. apply in_or_app. now right.
  - now apply IH.
Qed.

(** What every returned tuple holds, by snapshot index. *)
Lemma search_tuples `{Numpy} (r : Retriever) (query : string)
      (results : list result_tuple) :
  search r query = Ok results ->
  exists max_tfidf max_bm25 combined,
    divisor (tfidf_raw r query) = Ok max_tfidf
    /\ divisor (bm25_raw r query) = Ok max_bm25
    /\ combined_scores r query = Ok combined
    /\ Forall2
         (fun idx t =>
            nth_error combined idx = Some (score t)
            /\ nth_error (tfidf_raw r query) idx = Some (tfidf_score t)
            /\ nth_error (bm25_raw r query) idx = Some (bm25_score t)
            /\ score t
               = (dense_weight r query * (tfidf_score t / max_tfidf)
                  + sparse_weight r query * (bm25_score t / max_bm25))%Q)
         (ranked_indices r combined) results.
Proof.
  intro E.
  destruct (search_ok _ _ E) as (combined & Hc & HF).
  destruct (combined_scores_ok _ _ Hc) as (mt & mb & Hmt & Hmb & Hadd).
  exists mt, mb, combined. repeat (split; [assumption|]).
  eapply Forall2_impl; [|exact HF]. cbn. intros idx t Ht.
  destruct (tuple_at_ok _ _ _ _ Ht) as (Hs & _ & Htf & Hbm & _).
  repeat (split; [assumption|]).
  eapply np_add_at; [exact Hadd| | |exact Hs].
  - unfold scale, divide. rewrite !nth_error_map, Htf. reflexivity.
  - unfold scale, divide. rewrite !nth_error_map, Hbm. reflexivity.
Qed.

(** X17: the results are a top-k selection.  No chunk is returned twice,
    and no chunk that is left out has a higher combined score than one
    that is returned. *)
Theorem search_top_k `{Numpy} (r : Retriever) (query : string)
        (results : list result_tuple) :
  search r query = Ok results ->
  exists combined,
    combined_scores r query = Ok combined
    /\ NoDup (ranked_indices r combined)
    /\ Forall2 (fun idx t => nth_error combined idx = Some (score t))
               (ranked_indices r combined) results
    /\ forall j t,
         j < List.length combined ->
         ~ In j (ranked_indices r combined) ->
         In t results ->
         (score_at combined j <= score t)%Q.
Proof.
  intro E.
  destruct (search_tuples _ _ E) as (mt & mb & combined & _ & _ & Hc & HF).
  exists combined. split; [exact Hc|].
  split; [apply ranked_indices_nodup|].
  assert (HF' : Forall2 (fun idx t => nth_error combined idx = Some (score t))
                        (ranked_indices r combined) results).
  { eapply Forall2_impl; [|exact HF]. cbn. tauto. }
  split; [exact HF'|].
  intros j t Hj Hout Hin.
  destruct (@Forall2_in_r _ _ _ _ _ _ HF' Hin) as (idx & Hidx & Hs).
  pose proof (sorted_rev (argsort_sorted combined)) as Hsorted.
  unfold ranked_indices in *.
  destruct (slice_to_firstn (max_results r) (rev (argsort combined)))
    as [n En].
  rewrite En in *.
  rewrite <- (firstn_skipn n (rev (argsort combined))) in Hsorted.
  assert (Hjl : In j (rev (argsort combined))).
  { apply -> in_rev.
    apply (Permutation_in _ (Permutation_sym (argsort_perm combined))).
    apply in_seq. lia. }
  rewrite <- (firstn_skipn n (rev (argsort combined))) in Hjl.
  apply in_app_or in Hjl as [Hjl|Hjl]; [contradiction|].
  pose proof (@sorted_app_cross _ _ _ _ _ _ Hsorted Hidx Hjl) as L. cbn in L.
  unfold score_at in L at 2. now rewrite (nth_error_nth _ _ _ Hs) in L.
Qed.

Lemma search_top_k_witness :
  exists results,
    search (shelf 2) "alpha gamma" = Ok results
    /\ exists combined,
         combined_scores (shelf 2) "alpha gamma" = Ok combined
         /\ NoDup (ranked_indices (shelf 2) combined).
Proof.
  destruct (search (shelf 2) "alpha gamma") as [results|] eqn:Es;
    [|vm_compute in Es; discriminate Es].
  exists results. split; [reflexivity|].
  destruct (@search_top_k stable_numpy (shelf 2) "alpha gamma" results Es)
    as (combined & Hc & Hn & _).
  exists combined. split; [exact Hc|exact Hn].
Defined.

Lemma normalized_entry_unit (v : list Q) (d x : Q) :
  divisor v = Ok d -> Forall (fun y => (0 <= y)%Q) v -> In x v ->
  (0 <= x / d <= 1)%Q.
Proof.
  intros Hd Hnn Hin.
  destruct v as [|y v']; [contradiction|].
  destruct (@py_max_ok (y :: v') ltac:(discriminate)) as [m Hm].
  destruct (divisor_cases _ Hm) as (d' & Hd' & Hpos & Hneg & Hd0).
  rewrite Hd in Hd'. injection Hd' as <-.
  destruct (py_max_upper _ Hm) as [Hup _].
  assert (Hle : Forall (fun z => (z <= d)%Q) (y :: v')).
  { destruct (Qlt_le_dec 0 m) as [P|P].
    - now rewrite (Hpos P).
    - rewrite (Hneg (Qle_not_lt _ _ P)).
      eapply Forall_impl; [|exact Hup]. cbn. intros z Hz. lra. }
  pose proof (divide_unit Hd0 Hnn Hle) as HU.
  rewrite Forall_forall in HU. apply HU.
  unfold divide. exact (in_map (fun z => (z / d)%Q) _ _ Hin).
Qed.

(** X18: when neither weight and no raw score is negative, the combined
    score of every returned tuple lies between [0] and the sum of the two
    weights. *)
Theorem search_score_bounds `{Numpy} (r : Retriever) (query : string)
        (results : list result_tuple) :
  (0 <= dense_weight r query)%Q -> (0 <= sparse_weight r query)%Q ->
  Forall (fun x => (0 <= x)%Q) (tfidf_raw r query) ->
  Forall (fun x => (0 <= x)%Q) (bm25_raw r query) ->
  search r query = Ok results ->
  Forall (fun t =>
            (0 <= score t <= dense_weight r query + sparse_weight r query)%Q)
         results.
Proof.
  intros Hwd Hws Ht Hb E.
  destruct (search_tuples _ _ E) as (mt & mb & combined & Hmt & Hmb & _ & HF).
  apply Forall_forall. intros t Hin.
  destruct (@Forall2_in_r _ _ _ _ _ _ HF Hin) as (idx & _ & _ & Htf & Hbm & ->).
  pose proof (normalized_entry_unit _ Hmt Ht (nth_error_In _ _ Htf)) as [A1 A2].
  pose proof (normalized_entry_unit _ Hmb Hb (nth_error_In _ _ Hbm)) as [B1 B2].
  set (a := (tfidf_score t / mt)%Q) in *.
  set (b := (bm25_score t / mb)%Q) in *.
  split; nra.
Qed.

Lemma search_score_bounds_witness :
  (0 <= dense_weight (shelf 2) "alpha gamma")%Q
  /\ (0 <= sparse_weight (shelf 2) "alpha gamma")%Q
  /\ exists results,
       search (shelf 2) "alpha gamma" = Ok results
       /\ Forall (fun t => (0 <= score t <= Qmake 3 10 + Qmake 7 10)%Q) results.
Proof.
  assert (A : (0 <= dense_weight (shelf 2) "alpha gamma")%Q) by discriminate.
  assert (B : (0 <= sparse_weight (shelf 2) "alpha gamma")%Q) by discriminate.
  assert (C : Forall (fun x => (0 <= x)%Q) (tfidf_raw (shelf 2) "alpha gamma"))
    by (vm_compute; repeat constructor; discriminate).
  assert (D : Forall (fun x => (0 <= x)%Q) (bm25_raw (shelf 2) "alpha gamma"))
    by (vm_compute; repeat constructor; discriminate).
  split; [exact A|]. split; [exact B|].
  destruct (search (shelf 2) "alpha gamma") as [results|] eqn:Es;
    [|vm_compute in Es; discriminate Es].
  exists results. split; [reflexivity|].
  exact (@search_score_bounds stable_numpy (shelf 2) "alpha gamma" results
           A B C D Es).
Defined.

(** X19: a query that matches nothing still gets an answer.  Over a
    corpus that is not empty and aligned, with a positive [max_results],
    two all-zero raw score vectors give a result list that is not empty,
    in which every combined score is zero. *)
Theorem search_zero_signal `{Numpy} (r : Retriever) (query : string) :
  documents r <> [] ->
  List.length (doc_paths r) = List.length (documents r) ->
  aligned r ->
  (0 < max_results r)%Z ->
  Forall (fun x => (x == 0)%Q) (tfidf_raw r query) ->
  Forall (fun x => (x == 0)%Q) (bm25_raw r query) ->
  exists results,
    search r query = Ok results
    /\ results <> []
    /\ Forall (fun t => (score t == 0)%Q) results.
Proof.
  intros Hdocs Hpaths Hal Hk Ht Hb.
  destruct (search_returns query Hdocs Hpaths Hal) as (results & E & Hlen).
  exists results. split; [exact E|]. split.
  - intro N. subst results. cbn in Hlen.
    assert (0 < List.length (documents r))%nat
      by (destruct (documents r); [congruence|cbn; lia]).
    specialize (Hlen ltac:(lia)). lia.
  - destruct (search_tuples _ _ E) as (mt & mb & combined & _ & _ & _ & HF).
    apply Forall_forall. intros t Hin.
    destruct (@Forall2_in_r _ _ _ _ _ _ HF Hin) as (idx & _ & _ & Htf & Hbm & ->).
    rewrite Forall_forall in Ht, Hb.
    rewrite (Ht _ (nth_error_In _ _ Htf)), (Hb _ (nth_error_In _ _ Hbm)).
    unfold Qdiv. rewrite !Qmult_0_l, !Qmult_0_r. reflexivity.
Qed.

Lemma search_zero_signal_witness :
  documents (shelf 5) <> []
  /\ (0 < max_results (shelf 5))%Z
  /\ exists results,
       search (shelf 5) "zeta" = Ok results
       /\ results <> []
       /\ Forall (fun t => (score t == 0)%Q) results.
Proof.
  assert (A : documents (shelf 5) <> []) by discriminate.
  assert (B : List.length (doc_paths (shelf 5))
              = List.length (documents (shelf 5))) by reflexivity.
  assert (K : (0 < max_results (shelf 5))%Z) by reflexivity.
  assert (C : Forall (fun x => (x == 0)%Q) (tfidf_raw (shelf 5) "zeta"))
    by (vm_compute; repeat constructor).
  assert (D : Forall (fun x => (x == 0)%Q) (bm25_raw (shelf 5) "zeta"))
    by (vm_compute; repeat constructor).
  exact (conj A (conj K
    (@search_zero_signal stable_numpy (shelf 5) "zeta" A B
       (shelf_aligned 5) K C D))).
Defined.

End RankerRanking.

(* ================================================================= *)
(** * The answer generator and the helpers of [llm.py] *)

Module DialogueFacts.
Import LLM Dialogue Text Notions Samples.

(** *** [strip] and [split(",")] *)

Lemma rstrip_cons (c : ascii) (r : string) :
  rstrip (String c r)
  = match rstrip r with
    | EmptyString => if isspace c then EmptyString else String c EmptyString
    | String _ _ => String c (rstrip r)
    end.
Proof. cbn [rstrip]. now destruct (rstrip r). Qed.

Lemma rstrip_idempotent (s : string) : rstrip (rstrip s) = rstrip s.
Proof.
  induction s as [|c r IH]; [reflexivity|].
  rewrite rstrip_cons. destruct (rstrip r) as [|c' r'] eqn:E.
  - destruct (isspace c) eqn:Ec; [reflexivity|]. cbn. now rewrite Ec.
  - rewrite rstrip_cons, IH. reflexivity.
Qed.

Lemma lstrip_fixed (s : string) :
  match s with
  | EmptyString => True
  | String c _ => isspace c = false
  end -> lstrip s = s.
Proof. destruct s as [|c r]; cbn; [reflexivity|]. now intros ->. Qed.

Lemma lstrip_head (s : string) :
  match lstrip s with
  | EmptyString => True
  | String c _ => isspace c = false
  end.
Proof.
  induction s as [|c r IH]; cbn; [exact I|].
  destruct (isspace c) eqn:E; [exact IH|exact E].
Qed.

Lemma rstrip_head (s : string) :
  match s with
  | EmptyString => True
  | String c _ => isspace c = false
  end ->
  match rstrip s with
  | EmptyString => True
  | String c _ => isspace c = false
  end.
Proof.
  destruct s as [|c r]; cbn; [auto|]. intro Ec.
  destruct (rstrip r); [rewrite Ec|]; exact Ec.
Qed.

(** [strip] does nothing to what it returned. *)
Lemma strip_idempotent (s : string) : strip (strip s) = strip s.
Proof.
  unfold strip.
  rewrite (lstrip_fixed (rstrip (lstrip s)));
    [apply rstrip_idempotent|].
  apply rstrip_head, lstrip_head.
Qed.

Lemma lstrip_contains (c : ascii) (s : string) :
  contains_char c (lstrip s) = true -> contains_char c s = true.
Proof.
  induction s as [|x r IH]; cbn; [auto|].
  destruct (isspace x); [|auto].
  intro H. rewrite (IH H). apply orb_true_r.
Qed.

Lemma rstrip_contains (c : ascii) (s : string) :
  contains_char c (rstrip s) = true -> contains_char c s = true.
Proof.
  induction s as [|x r IH]; [auto|].
  cbn [rstrip]. destruct (rstrip r) as [|y r'] eqn:E.
  - destruct (isspace x); cbn; [discriminate|].
    rewrite orb_false_r. intros ->. reflexivity.
  - cbn [contains_char] in *. intro H.
    apply orb_true_iff in H as [H|H]; [now rewrite H|].
    rewrite (IH H). apply orb_true_r.
Qed.

Lemma strip_contains (c : ascii) (s : string) :
  contains_char c s = false -> contains_char c (strip s) = false.
Proof.
  intro H. destruct (contains_char c (strip s)) eqn:E; [|reflexivity].
  apply rstrip_contains, lstrip_contains in E. congruence.
Qed.

Lemma split_on_nonempty (sep : ascii) (s : string) : split_on sep s <> [].
Proof.
  destruct s as [|c r]; cbn; [discriminate|].
  destruct (Ascii.eqb c sep); [discriminate|].
  destruct (split_on sep r); discriminate.
Qed.

Lemma split_on_pieces (sep : ascii) (s : string) :
  Forall (fun piece => contains_char sep piece = false) (split_on sep s).
Proof.
  induction s as [|c r IH]; cbn.
  - repeat constructor.
  - destruct (Ascii.eqb c sep) eqn:E.
    + constructor; [reflexivity|exact IH].
    + destruct (split_on sep r) as [|piece pieces].
      * constructor; [cbn; now rewrite E|constructor].
      * inversion IH; subst. constructor; [cbn; rewrite E|]; auto.
Qed.

Lemma split_on_whole (sep : ascii) (s : string) :
  contains_char sep s = false -> split_on sep s = [s].
Proof.
  induction s as [|c r IH]; cbn; [reflexivity|].
  intro H. apply orb_false_iff in H as [Hc Hr].
  rewrite Hc, (IH Hr). reflexivity.
Qed.

(** Putting the separator back between the pieces gives the text back. *)
Lemma join_split_on (sep : ascii) (s : string) :
  join (String sep EmptyString) (split_on sep s) = s.
Proof.
  unfold join. induction s as [|c r IH]; [reflexivity|].
  cbn [split_on]. destruct (Ascii.eqb_spec c sep) as [->|_].
  - cbn [String.concat].
    pose proof (split_on_nonempty sep r) as Hne.
    destruct (split_on sep r) as [|p ps]; [congruence|].
    cbn [append]. now rewrite IH.
  - pose proof (split_on_nonempty sep r) as Hne.
    destruct (split_on sep r) as [|p ps]; [congruence|].
    cbn [String.concat] in *. destruct ps; cbn [append]; now rewrite <- IH.
Qed.

(** *** [generate_answer] *)

(** X20: [generate_answer] raises in one case only: web search is on,
    there is a chunk, and the score list is empty.  Then the exception is
    the [IndexError] of [scores[0]] and no prompt was sent. *)
Theorem generate_answer_raises
        (c : client) (query : string) (chunks : list string)
        (scores : list Q) (search_web : bool) (e : exn) :
  answer (generate_answer c query chunks scores search_web) = Raise e
  <-> chunks <> [] /\ search_web = true /\ scores = [] /\ e = IndexError.
Proof.
  unfold generate_answer, build_context, ask.
  destruct chunks as [|c0 cs], search_web, scores as [|s0 ss]; cbn;
    try destruct (generate_content c _); cbn;
    split; intro H; try discriminate H;
    try (destruct H as (A & B & C & D); congruence).
  injection H as <-. repeat split. discriminate.
Qed.

Lemma generate_answer_raises_witness :
  ["alpha beta"] <> [] /\ true = true /\ (@nil Q) = []
  /\ answer (generate_answer Sample.echo_client "what is alpha?"
               ["alpha beta"] [] true)
     = Raise IndexError.
Proof.
  assert (A : ["alpha beta"] <> []) by discriminate.
  split; [exact A|]. split; [reflexivity|]. split; [reflexivity|].
  exact (proj2 (@generate_answer_raises Sample.echo_client "what is alpha?"
                  ["alpha beta"] [] true IndexError)
               (conj A (conj eq_refl (conj eq_refl eq_refl)))).
Defined.

Lemma generate_answer_raises_silent
      (c : client) (query : string) (chunks : list string)
      (scores : list Q) (search_web : bool) (e : exn) :
  answer (generate_answer c query chunks scores search_web) = Raise e ->
  prompts (generate_answer c query chunks scores search_web) = [].
Proof.
  unfold generate_answer, build_context, ask.
  destruct chunks as [|c0 cs], search_web, scores as [|s0 ss]; cbn;
    try destruct (generate_content c _); cbn; intro H;
    try discriminate H; reflexivity.
Qed.

Lemma slice_to_firstn_again (A : Type) (n : nat) (l : list A) :
  slice_to (Z.of_nat n) (firstn n l) = slice_to (Z.of_nat n) l.
Proof.
  unfold slice_to. rewrite (proj2 (Z.leb_le 0 _) (Nat2Z.is_nonneg n)).
  rewrite Nat2Z.id, firstn_firstn. f_equal. lia.
Qed.

(** X21: the prompt depends on the head of the lists only.  Without web
    search the chunks and scores after the first five change nothing; with
    web search those after the first one change nothing. *)
Theorem generate_answer_uses_top
        (c : client) (query : string) (chunks : list string) (scores : list Q) :
  generate_answer c query chunks scores false
  = generate_answer c query (firstn 5 chunks) (firstn 5 scores) false
  /\ generate_answer c query chunks scores true
     = generate_answer c query (firstn 1 chunks) (firstn 1 scores) true.
Proof.
  split.
  - unfold generate_answer, build_context, format_context.
    change 5%Z with (Z.of_nat 5). rewrite !slice_to_firstn_again.
    destruct chunks; reflexivity.
  - unfold generate_answer, build_context.
    destruct chunks as [|c0 cs]; [reflexivity|].
    destruct scores as [|s0 ss]; reflexivity.
Qed.

(** With as many scores as chunks, [generate_answer] returns an answer,
    after at most one prompt. *)
Lemma generate_answer_paired
      (c : client) (query : string) (chunks : list string)
      (scores : list Q) (search_web : bool) :
  List.length scores = List.length chunks ->
  (exists text, answer (generate_answer c query chunks scores search_web)
                = Ok text)
  /\ List.length (prompts (generate_answer c query chunks scores search_web))
     = if is_nil chunks && negb search_web then 0 else 1.
Proof.
  intro Hlen. unfold generate_answer, build_context, ask.
  destruct chunks as [|c0 cs], search_web, scores as [|s0 ss]; cbn in *;
    try discriminate Hlen;
    try destruct (generate_content c _); cbn; eauto.
Qed.

(** *** The helpers *)

(** X22: [extract_keywords_from_answer] sends one prompt and always
    returns at least one keyword; no keyword has a comma in it or
    whitespace around it.  When the model fails it does not raise: the
    error message, if it has no comma, comes back as the only keyword. *)
Theorem extract_keywords_shape
        (o : oracle) (history : list string) (answer : string) :
  let keywords := fst (extract_keywords_from_answer o history answer) in
  snd (extract_keywords_from_answer o history answer)
  = history ++ [keywords_prompt answer]
  /\ keywords <> []
  /\ Forall (fun kw => strip kw = kw /\ contains_char comma kw = false) keywords
  /\ (forall message,
         reply_after o history (keywords_prompt answer) = Failure message ->
         contains_char comma message = false ->
         keywords
         = [strip (cross_mark ++ " Error generating LLM content: "
                   ++ message)%string]).
Proof.
  unfold extract_keywords_from_answer, get_llm_help. cbn [fst snd].
  split; [reflexivity|]. split; [|split].
  - intro N. apply map_eq_nil in N. exact (split_on_nonempty _ _ N).
  - apply Forall_map. eapply Forall_impl; [|apply split_on_pieces].
    cbn. intros piece Hp. split; [apply strip_idempotent|].
    now apply strip_contains.
  - intros message Hrep Hmsg. rewrite Hrep.
    rewrite split_on_whole; [reflexivity|].
    rewrite !ChunkerWords.contains_char_app, Hmsg. reflexivity.
Qed.

Lemma extract_keywords_shape_witness :
  reply_after silent_oracle [] (keywords_prompt "an answer") = Failure "timeout"
  /\ contains_char comma "timeout" = false
  /\ fst (extract_keywords_from_answer silent_oracle [] "an answer")
     = [strip (cross_mark ++ " Error generating LLM content: "
               ++ "timeout")%string].
Proof.
  split; [reflexivity|]. split; [reflexivity|].
  exact (proj2 (proj2 (proj2
    (@extract_keywords_shape silent_oracle [] "an answer")))
    "timeout" eq_refl eq_refl).
Defined.

End DialogueFacts.

(* ================================================================= *)
(** * Query expansion and the feedback loop *)

Module LoopFacts.
Import Ranker LLM Dialogue Expansion RankerFacts Notions Samples.

(** *** [query_expansion] *)

Lemma expansion_rounds_spec (n : nat) (o : oracle) (history : list string)
      (query : string) (expanded : list string) :
  exists added,
    List.length added = n
    /\ expansion_rounds n o history query expanded
       = (expanded ++ added,
          history ++ map (fun i => expansion_prompt query
                                     (expanded ++ firstn i added))
                         (seq 0 n)).
Proof.
  revert history expanded. induction n as [|n IH]; intros history expanded.
  - exists []. cbn. now rewrite !app_nil_r.
  - cbn [expansion_rounds]. unfold llm_query_expansion, get_llm_help.
    set (eq := match reply_after o history (expansion_prompt query expanded)
               with
               | Text t => strip t
               | Failure e =>
                   (cross_mark ++ " Error generating LLM content: " ++ e)%string
               end).
    destruct (IH (history ++ [expansion_prompt query expanded])
                 (expanded ++ [eq])) as (added & Hlen & ->).
    exists (eq :: added). split; [cbn; now rewrite Hlen|].
    rewrite <- !app_assoc. cbn [app]. f_equal. f_equal.
    cbn [seq map firstn]. rewrite app_nil_r. f_equal.
    rewrite <- seq_shift, map_map. apply map_ext. intro i.
    cbn [firstn]. now rewrite <- app_assoc.
Qed.

Lemma query_expansion_spec
        (o : oracle) (history : list string) (query : string) (num_k : Z) :
  let queries := fst (query_expansion o history query num_k) in
  List.length queries = Z.to_nat num_k
  /\ snd (query_expansion o history query num_k)
     = history ++ map (fun i => expansion_prompt query (firstn i queries))
                      (seq 0 (Z.to_nat num_k)).
Proof.
  unfold query_expansion.
  destruct (expansion_rounds_spec (Z.to_nat num_k) o history query [])
    as (added & Hlen & ->).
  cbn [fst snd app]. auto.
Qed.

(** X23: [query_expansion] asks the model once per round and returns one
    query per round, [num_k] of them, none for a negative [num_k]; the
    prompt of a round shows the queries of the rounds before it.  It never
    raises: a failure of the model comes back as a query. *)
Theorem query_expansion_rounds
        (o : oracle) (history : list string) (query : string) (num_k : Z) :
  let queries := fst (query_expansion o history query num_k) in
  List.length queries = Z.to_nat num_k
  /\ snd (query_expansion o history query num_k)
     = history ++ map (fun i => expansion_prompt query (firstn i queries))
                      (seq 0 (Z.to_nat num_k)).
Proof. apply query_expansion_spec. Qed.

(** *** [expanded_search] *)

Lemma dict_extend_keys (V : Type) (d : list (string * list V)) (key : string)
      (values : list V) :
  map fst (dict_extend d key values)
  = if existsb (String.eqb key) (map fst d) then map fst d
    else map fst d ++ [key].
Proof.
  induction d as [|[k v] d IH]; [reflexivity|].
  cbn [dict_extend map fst existsb].
  rewrite (String.eqb_sym key k).
  destruct (String.eqb k key) eqn:E; [reflexivity|].
  cbn [map fst orb]. rewrite IH.
  now destruct (existsb (String.eqb key) (map fst d)).
Qed.

Lemma existsb_eqb_in (key : string) (keys : list string) :
  existsb (String.eqb key) keys = true <-> In key keys.
Proof.
  rewrite existsb_exists. split.
  - intros (x & Hx & E). apply String.eqb_eq in E. now subst.
  - intro H. exists key. split; [exact H|apply String.eqb_refl].
Qed.

Lemma dict_extend_nodup (V : Type) (d : list (string * list V)) (key : string)
      (values : list V) :
  NoDup (map fst d) -> NoDup (map fst (dict_extend d key values)).
Proof.
  intro N. rewrite dict_extend_keys.
  destruct (existsb (String.eqb key) (map fst d)) eqn:E; [exact N|].
  apply NoDup_app; [exact N|repeat constructor; auto|].
  intros x Hx [Ex|[]]. subst x.
  apply existsb_eqb_in in Hx. congruence.
Qed.

Lemma dict_extend_in (V : Type) (d : list (string * list V)) (key k : string)
      (values : list V) :
  In k (map fst (dict_extend d key values)) <-> In k (map fst d) \/ k = key.
Proof.
  rewrite dict_extend_keys.
  destruct (existsb (String.eqb key) (map fst d)) eqn:E.
  - apply existsb_eqb_in in E. split; [auto|]. intros [H|Ek]; [auto|now subst k].
  - rewrite in_app_iff. cbn. intuition congruence.
Qed.

Lemma dict_extend_head (V : Type) (d : list (string * list V)) (key : string)
      (values : list V) (k : string) :
  hd_error (map fst d) = Some k ->
  hd_error (map fst (dict_extend d key values)) = Some k.
Proof.
  destruct d as [|[k0 v0] d]; [discriminate|]. cbn.
  destruct (String.eqb k0 key); auto.
Qed.

Section SearchEach.
Context `{Numpy}.
Variable retriever : Retriever.

Lemma search_each_ok (queries : list string)
      (acc out : list (string * list result_tuple)) :
  search_each retriever queries acc = Ok out ->
  (NoDup (map fst acc) -> NoDup (map fst out))
  /\ (forall k, In k (map fst out) <-> In k (map fst acc) \/ In k queries)
  /\ (forall k, hd_error (map fst acc) = Some k ->
                hd_error (map fst out) = Some k)
  /\ Forall (fun q => exists results, search retriever q = Ok results) queries.
Proof.
  revert acc. induction queries as [|q qs IH]; intros acc E; cbn in E.
  - injection E as E. subst out.
    split; [auto|]. split; [|split].
    + intro k. cbn. tauto.
    + auto.
    + constructor.
  - destruct (search retriever q) as [results|] eqn:Es; cbn in E;
      [|discriminate].
    destruct (IH _ E) as (A & B & C & D).
    split; [|split; [|split]].
    + intro N. apply A. now apply dict_extend_nodup.
    + intro k. rewrite B, dict_extend_in. cbn. intuition congruence.
    + intros k Hk. apply C. now apply dict_extend_head.
    + constructor; [eauto|exact D].
Qed.

Lemma search_each_raises (queries : list string)
      (acc : list (string * list result_tuple)) (e : exn) :
  search_each retriever queries acc = Raise e ->
  exists q, In q queries /\ search retriever q = Raise e.
Proof.
  revert acc. induction queries as [|q qs IH]; intros acc E; cbn in E.
  - discriminate.
  - destruct (search retriever q) as [results|e'] eqn:Es; cbn in E.
    + destruct (IH _ E) as (q' & Hq & Hr). exists q'. split; [now right|auto].
    + injection E as ->. exists q. split; [now left|exact Es].
Qed.

End SearchEach.

(** X24: [expanded_search] first asks the model for five expansions, then
    searches the query and each expansion.  When it returns, the keys of
    the dict are the query, which comes first, and the expansions, each
    once, so there are at most six; and it raises only an exception that
    [search] raised on one of these queries. *)
Theorem expanded_search_keys
        `{Numpy} (o : oracle) (history : list string)
        (retriever : Retriever) (query : string) :
  let expansions := fst (query_expansion o history query 5) in
  let outcome := fst (expanded_search o history retriever query) in
  List.length (snd (expanded_search o history retriever query))
  = List.length history + 5
  /\ (forall all_results,
         outcome = Ok all_results ->
         NoDup (map fst all_results)
         /\ hd_error (map fst all_results) = Some query
         /\ (forall k, In k (map fst all_results)
                       <-> k = query \/ In k expansions)
         /\ List.length all_results <= 6)
  /\ (forall e,
         outcome = Raise e ->
         exists q, (q = query \/ In q expansions)
                   /\ search retriever q = Raise e).
Proof.
  unfold expanded_search, default_num_k.
  destruct (query_expansion_spec o history query 5) as [Hlen Hhist].
  destruct (query_expansion o history query 5) as [expansions history'] eqn:Eq.
  cbn [fst snd] in *. split; [|split].
  - rewrite Hhist, length_app, length_map, length_seq. reflexivity.
  - intros all_results E.
    cbn [search_each] in E.
    destruct (search retriever query) as [results|] eqn:Es; cbn [bind] in E;
      [|discriminate].
    destruct (search_each_ok _ _ _ E) as (A & B & C & _).
    cbn [dict_extend map fst] in A, B, C.
    assert (N : NoDup (map fst all_results))
      by (apply A; repeat constructor; auto).
    split; [exact N|]. split; [now apply C|]. split.
    + intro k. rewrite B. cbn. intuition congruence.
    + rewrite <- (length_map fst).
      assert (I : incl (map fst all_results) (query :: expansions)).
      { intros k Hk. apply B in Hk. cbn in *. intuition. }
      pose proof (NoDup_incl_length N I) as L. cbn in L.
      rewrite Hlen in L. cbn in L. lia.
  - intros e E.
    destruct (search_each_raises _ _ _ E) as (q & Hq & Hr).
    exists q. split; [|exact Hr]. cbn in Hq. intuition.
Qed.

Lemma expanded_search_keys_witness :
  exists all_results,
    fst (expanded_search keyword_oracle [] (shelf 2) "alpha")
    = Ok all_results
    /\ NoDup (map fst all_results)
    /\ hd_error (map fst all_results) = Some "alpha".
Proof.
  destruct (fst (expanded_search keyword_oracle [] (shelf 2) "alpha"))
    as [all_results|] eqn:E; [|vm_compute in E; discriminate E].
  exists all_results. split; [reflexivity|].
  destruct (proj1 (proj2
    (@expanded_search_keys stable_numpy keyword_oracle [] (shelf 2) "alpha"))
    all_results E) as (A & B & _).
  split; [exact A|exact B].
Defined.

(** *** [feedback_loop_rag] *)

Lemma search_nothing_indexed `{Numpy} (r : Retriever) (query : string) :
  documents r = [] -> aligned r -> search r query = Raise ValueError.
Proof.
  intros Hdocs Hal. destruct (Hal query) as [Ht _].
  rewrite Hdocs in Ht. cbn in Ht.
  unfold search, combined_scores, tfidf_raw.
  destruct (tfidf_similarities r query); [reflexivity|discriminate].
Qed.

Lemma generate_answer_after_paired
      (o : oracle) (history : list string) (query : string)
      (results : list result_tuple) (search_web : bool) :
  exists text sent,
    generate_answer_after o history query (map document results)
                          (map bm25_score results) search_web
    = (Ok text, history ++ sent)
    /\ List.length sent <= 1
    /\ (search_web = true -> List.length sent = 1).
Proof.
  unfold generate_answer_after.
  destruct (DialogueFacts.generate_answer_paired
              (client_after o history) query (map document results)
              (map bm25_score results) search_web) as [[text Ht] Hp].
  { now rewrite !length_map. }
  exists text, (prompts (generate_answer (client_after o history) query
                           (map document results) (map bm25_score results)
                           search_web)).
  rewrite Ht. split; [reflexivity|]. rewrite Hp.
  destruct (is_nil (map document results)), search_web; cbn; split;
    auto; discriminate.
Qed.

(** X25: the feedback loop raises only what [search] raised: the answer
    generator cannot fail in it, because the loop passes one score per
    chunk.  It always opens with the expansion prompt and sends at most
    four prompts; when it returns it has sent at least two, and exactly
    four when web search is on. *)
Theorem feedback_loop_prompts
        `{Numpy} (o : oracle) (history : list string) (query : string)
        (previous_queries : list string) (retriever : Retriever)
        (search_web : bool) :
  let run := feedback_loop_rag o history query previous_queries retriever
                               search_web in
  exists sent,
    snd run = history ++ expansion_prompt query previous_queries :: sent
    /\ List.length sent <= 3
    /\ (forall fb, fst run = Ok fb ->
                   1 <= List.length sent
                   /\ (search_web = true -> List.length sent = 3))
    /\ (forall e, fst run = Raise e ->
                  exists q, search retriever q = Raise e).
Proof.
  unfold feedback_loop_rag, llm_query_expansion.
  destruct (get_llm_help o history (expansion_prompt query previous_queries))
    as [expanded h1] eqn:E1.
  assert (Hh1 : h1 = history ++ [expansion_prompt query previous_queries])
    by (unfold get_llm_help in E1; now injection E1 as _ <-).
  destruct (search retriever expanded) as [initial|e1] eqn:S1.
  2:{ exists []. cbn [fst snd]. rewrite Hh1. split; [reflexivity|].
      split; [cbn; lia|]. split; [discriminate|].
      intros e Ee. injection Ee as <-. eauto. }
  destruct (generate_answer_after_paired o h1 query initial search_web)
    as (first & sent1 & -> & L1 & W1).
  unfold extract_keywords_from_answer.
  destruct (get_llm_help o (h1 ++ sent1) (keywords_prompt first))
    as [keywords_text h3] eqn:E3.
  assert (Hh3 : h3 = (h1 ++ sent1) ++ [keywords_prompt first])
    by (unfold get_llm_help in E3; now injection E3 as _ <-).
  destruct (search retriever
              (join " " (map strip (Text.split_on Text.comma keywords_text))))
    as [refined|e2] eqn:S2.
  2:{ exists (sent1 ++ [keywords_prompt first]). cbn [fst snd].
      rewrite Hh3, Hh1, <- !app_assoc. split; [reflexivity|].
      split; [rewrite length_app; cbn; lia|]. split; [discriminate|].
      intros e Ee. injection Ee as <-. eauto. }
  destruct (generate_answer_after_paired o h3 query refined search_web)
    as (final & sent2 & -> & L2 & W2).
  exists (sent1 ++ keywords_prompt first :: sent2). cbn [fst snd].
  rewrite Hh3, Hh1, <- !app_assoc. cbn [app].
  split; [reflexivity|].
  rewrite length_app. cbn [List.length].
  split; [lia|]. split; [|discriminate].
  intros fb _. split; [lia|].
  intro Hw. rewrite (W1 Hw), (W2 Hw). reflexivity.
Qed.

Lemma feedback_loop_prompts_witness :
  exists fb sent,
    fst (feedback_loop_rag keyword_oracle [] "what is alpha?" []
           (Samples.shelf 2) true) = Ok fb
    /\ snd (feedback_loop_rag keyword_oracle [] "what is alpha?" []
              (Samples.shelf 2) true)
       = [] ++ expansion_prompt "what is alpha?" [] :: sent
    /\ List.length sent = 3.
Proof.
  destruct (fst (feedback_loop_rag keyword_oracle [] "what is alpha?" []
                   (Samples.shelf 2) true)) as [fb|] eqn:E;
    [|vm_compute in E; discriminate E].
  destruct (@feedback_loop_prompts stable_numpy keyword_oracle []
              "what is alpha?" [] (Samples.shelf 2) true)
    as (sent & Hs & _ & Hok & _).
  exists fb, sent. split; [reflexivity|]. split; [exact Hs|].
  exact (proj2 (Hok fb E) eq_refl).
Defined.

(** X26: over a retriever with no chunk the feedback loop sends the
    expansion prompt to the model and then raises the [ValueError] of the
    first search; no answer is generated. *)
Theorem feedback_loop_empty_corpus
        `{Numpy} (o : oracle) (history : list string) (query : string)
        (previous_queries : list string) (retriever : Retriever)
        (search_web : bool) :
  documents retriever = [] -> aligned retriever ->
  feedback_loop_rag o history query previous_queries retriever search_web
  = (Raise ValueError,
     history ++ [expansion_prompt query previous_queries]).
Proof.
  intros Hdocs Hal.
  unfold feedback_loop_rag, llm_query_expansion, get_llm_help.
  now rewrite (search_nothing_indexed _ Hdocs Hal).
Qed.

Lemma feedback_loop_empty_corpus_witness :
  documents Sample.empty_retriever = []
  /\ aligned Sample.empty_retriever
  /\ feedback_loop_rag keyword_oracle [] "what is alpha?" []
       Sample.empty_retriever false
     = (Raise ValueError, [] ++ [expansion_prompt "what is alpha?" []]).
Proof.
  assert (Hal : aligned Sample.empty_retriever) by (intro q; split; reflexivity).
  split; [reflexivity|]. split; [exact Hal|].
  exact (@feedback_loop_empty_corpus stable_numpy keyword_oracle []
           "what is alpha?" [] Sample.empty_retriever false eq_refl Hal).
Defined.

End LoopFacts.
